(** * Mendelian-violation checking for STR trios

    A shallow embedding of [str_analysis/check_trios_for_mendelian_violations.py]
    and the properties of its trio grouping, its allele and confidence-interval
    scoring, its per-locus counters, its input checks and its main function.

    Conventions.
    - Python exceptions are values of [exn]; a computation that may raise has
      type [result A] and is sequenced left to right, as Python evaluates it.
    - Text is [string] (ASCII); [len] is [String.length].
    - A pandas table is the list of its rows, in table order. A cell that may
      be missing is a [cell].
    - Of the console output only the warning of source line 280 is modelled. *)

From Stdlib Require Import Ascii String ZArith.
From stdpp Require Import gmap strings list fin_maps pretty.

Local Open Scope Z_scope.

(** ** Exceptions and the error monad *)

(** [AssertionError n] is the failure of the [assert] at source line [n]. *)
Inductive exn : Set :=
  | ValueError
  | TypeError
  | IndexError
  | AttributeError
  | ZeroDivisionError
  | OverflowError
  | AssertionError (line : nat).

Inductive result (A : Type) : Type :=
  | Ok (a : A)
  | Raise (e : exn).
Arguments Ok {A} a.
Arguments Raise {A} e.

#[global] Instance exn_eq_dec : EqDecision exn.
Proof. solve_decision. Defined.

#[global] Instance result_ret : MRet result := λ A a, Ok a.
#[global] Instance result_bind : MBind result := λ A B f m,
  match m with
  | Ok a => f a
  | Raise e => Raise e
  end.
#[global] Instance result_fmap : FMap result := λ A B f m,
  match m with
  | Ok a => Ok (f a)
  | Raise e => Raise e
  end.

Definition is_Ok {A} (m : result A) : Prop := ∃ a, m = Ok a.

(** [assert cond, ...] at source line [n]. *)
Definition py_assert (line : nat) (cond : bool) : result unit :=
  if cond then Ok tt else Raise (AssertionError line).

(** ** Python built-ins used by the script *)

(** [s.split(sep)] for a one-character separator: every occurrence splits,
    so the result is never empty and [''.split(sep) = ['']]. *)
Fixpoint py_split (sep : ascii) (s : string) : list string :=
  match s with
  | EmptyString => [EmptyString]
  | String c s' =>
      if Ascii.eqb c sep then EmptyString :: py_split sep s'
      else match py_split sep s' with
           | [] => [String c EmptyString]
           | t :: ts => String c t :: ts
           end
  end.

(** The characters [int()] skips around a literal: 0x09-0x0D, 0x1C-0x20. *)
Definition is_space (c : ascii) : bool :=
  let n := nat_of_ascii c in
  ((9 <=? n)%nat && (n <=? 13)%nat) || ((28 <=? n)%nat && (n <=? 32)%nat).

Definition digit_of (c : ascii) : option Z :=
  let n := Z.of_nat (nat_of_ascii c) in
  if (48 <=? n) && (n <=? 57) then Some (n - 48) else None.

Fixpoint all_space (s : string) : bool :=
  match s with
  | EmptyString => true
  | String c s' => is_space c && all_space s'
  end.

Fixpoint lstrip (s : string) : string :=
  match s with
  | EmptyString => EmptyString
  | String c s' => if is_space c then lstrip s' else s
  end.

(** Decimal digits, single underscores allowed between two digits, trailing
    white space allowed. [after_digit] says the previous character was a
    digit. *)
Fixpoint int_digits (acc : Z) (after_digit : bool) (s : string) : option Z :=
  match s with
  | EmptyString => if after_digit then Some acc else None
  | String c s' =>
      match digit_of c with
      | Some d => int_digits (10 * acc + d) true s'
      | None =>
          if after_digit then
            if Ascii.eqb c "_" then
              match s' with
              | String c' _ =>
                  match digit_of c' with
                  | Some _ => int_digits acc false s'
                  | None => None
                  end
              | EmptyString => None
              end
            else if all_space s then Some acc else None
          else None
      end
  end.

(** [int(s)] for a [str] in base 10: optional white space, optional sign,
    digits. (ASCII only; the interpreter's limit on the number of digits is
    not modelled.) *)
Definition int_of_str (s : string) : option Z :=
  match lstrip s with
  | String "-" s' => Z.opp <$> int_digits 0 false s'
  | String "+" s' => int_digits 0 false s'
  | s' => int_digits 0 false s'
  end.

(** The two kinds of value [int()] is applied to: an [int], and a [str]. *)
Inductive pyval : Type :=
  | VInt (z : Z)
  | VStr (s : string).

Definition py_int (v : pyval) : result Z :=
  match v with
  | VInt z => Ok z
  | VStr s => match int_of_str s with
              | Some z => Ok z
              | None => Raise ValueError
              end
  end.

(** [str(n)] for an [int]. *)
Definition py_str (n : Z) : string := pretty n.

(** [min(l)] for a list of [int]: [ValueError] on the empty list. *)
Definition py_min (l : list Z) : result Z :=
  match l with
  | [] => Raise ValueError
  | x :: l' => Ok (foldl Z.min x l')
  end.

(** [l[i]]. *)
Definition py_index {A} (l : list A) (i : nat) : result A :=
  match l !! i with
  | Some a => Ok a
  | None => Raise IndexError
  end.

(** [x in l] for a list of [str]. *)
Definition py_in (x : string) (l : list string) : bool := bool_decide (x ∈ l).

(** [any([f(i) for i in l])]. *)
Definition py_any {A} (f : A → bool) (l : list A) : bool := existsb f l.

(** [all(f(i) for i in l)]. *)
Definition py_all {A} (f : A → bool) (l : list A) : bool := forallb f l.

(** *** True division of two [int]s followed by [int()]

    [a / b] is the quotient rounded to the nearest binary64 value, ties to
    even; [int()] then drops the fraction. The rounding is done here on the
    53-bit significand, in integer arithmetic. *)

(** [n / d] rounded to the nearest integer, ties to even ([0 <= n], [0 < d]). *)
Definition round_half_even (n d : Z) : Z :=
  let q := n / d in
  let r := n mod d in
  if 2 * r <? d then q
  else if d <? 2 * r then q + 1
  else if Z.even q then q else q + 1.

(** [int(a / b)] for [0 <= a], [0 < b]; [None] when the quotient is too
    large for a float. *)
Definition truediv_magnitude (a b : Z) : option Z :=
  let q := a / b in
  if q =? 0 then
    (* below 1: the result is 1.0 from 1 - 2^-54 on *)
    Some (if b * (2 ^ 54 - 1) <=? a * 2 ^ 54 then 1 else 0)
  else
    let e := Z.log2 q in
    if e <=? 52 then
      let k := 52 - e in
      Some (round_half_even (a * 2 ^ k) b / 2 ^ k)
    else
      let k := e - 52 in
      let v := round_half_even a (b * 2 ^ k) * 2 ^ k in
      if v <? 2 ^ 1024 then Some v else None.

(** [int(a / b)]. *)
Definition py_int_truediv (a b : Z) : result Z :=
  if b =? 0 then Raise ZeroDivisionError
  else match truediv_magnitude (Z.abs a) (Z.abs b) with
       | Some m => Ok (Z.sgn a * Z.sgn b * m)
       | None => Raise OverflowError
       end.

(** [a % b]. *)
Definition py_mod (a b : Z) : result Z :=
  if b =? 0 then Raise ZeroDivisionError else Ok (a mod b).

(** ** Intervals (the [intervaltree] package, version 3) *)

(** [Interval(begin, end, data=None)]. *)
Record Interval : Type := mkInterval {
  i_begin : Z;
  i_end : Z;
  i_data : option Z;
}.

(** [Interval] applied to an unpacked argument list: two or three arguments. *)
Definition Interval_of_args (args : list Z) : result Interval :=
  match args with
  | [b; e] => Ok (mkInterval b e None)
  | [b; e; d] => Ok (mkInterval b e (Some d))
  | _ => Raise TypeError
  end.

(** [Interval.overlaps(other)]: the half-open ranges share a point. *)
Definition Interval_overlaps (self other : Interval) : bool :=
  (i_begin other <? i_end self) && (i_begin self <? i_end other).

(** [Interval.distance_to(other)]. *)
Definition Interval_distance_to (self other : Interval) : Z :=
  if Interval_overlaps self other then 0
  else if i_begin self <? i_begin other then i_begin other - i_end self
  else i_begin self - i_end other.

(** [Interval.length()]. *)
Definition Interval_length (self : Interval) : Z :=
  if i_end self <=? i_begin self then 0 else i_end self - i_begin self.

(** ** The interval and distance primitives of the script *)

Definition intervals_overlap (i1 i2 : Interval) : bool :=
  negb ((i_end i1 <? i_begin i2) || (i_end i2 <? i_begin i1)).

Definition compute_min_distance_mendelian
    (proband_allele : pyval) (parent_alleles : list pyval) : result Z :=
  ds ← mapM (λ pa, x ← py_int proband_allele;
                    y ← py_int pa;
                    mret (Z.abs (x - y))) parent_alleles;
  py_min ds.

Definition compute_min_distance_mendelian_ci
    (proband_CI : Interval) (parent_CIs : list Interval) : result Z :=
  py_min (map (λ parent_CI, Z.abs (Interval_distance_to proband_CI parent_CI))
              parent_CIs).

(** ** Tables *)

(** A cell that may be missing: text, pandas' [NaN], or Python's [None]. *)
Inductive cell : Type :=
  | Str (s : string)
  | NaN
  | PyNone.

#[global] Instance cell_eq_dec : EqDecision cell.
Proof. solve_decision. Defined.

(** [Series.isna()] on one cell. *)
Definition isna (c : cell) : bool :=
  match c with
  | Str _ => false
  | NaN | PyNone => true
  end.

(** The columns of [EXTRA_INPUT_COLUMNS]. The three per-allele support
    columns are read with [int()]: [None] is a value on which it raises. *)
Record ExtraColumns : Type := mkExtra {
  NumSpanningReads : string;
  NumFlankingReads : string;
  NumInrepeatReads : string;
  NumAllelesSupportedBySpanningReads : option Z;
  NumAllelesSupportedByFlankingReads : option Z;
  NumAllelesSupportedByInrepeatReads : option Z;
}.

(** A row of the genotype-calls table, restricted to the expected columns:
    [BASIC_INPUT_COLUMNS], and [EXTRA_INPUT_COLUMNS] when the table has all
    of them. Only [Genotype] is tested for being missing by the script; the
    other columns are taken to hold text. *)
Record Call : Type := mkCall {
  SampleId : string;
  LocusId : string;
  VariantId : string;
  Filename : string;
  Genotype : cell;
  GenotypeConfidenceInterval : string;
  ReferenceRegion : string;
  RepeatUnit : string;
  Sex : string;
  NumRepeatsAllele2 : string;
  Coverage : string;
  Extra : option ExtraColumns;
}.

(** A row of the pedigree file: six columns, all read as text. *)
Record FamRow : Type := mkFamRow {
  fam_family_id : cell;
  fam_individual_id : cell;
  fam_father_id : cell;
  fam_mother_id : cell;
  fam_sex : cell;
  fam_phenotype : cell;
}.

(** The three columns [parse_fam_file] keeps. *)
Record Pedigree : Type := mkPedigree {
  individual_id : cell;
  ped_father_id : cell;
  ped_mother_id : cell;
}.

#[global] Instance Pedigree_eq_dec : EqDecision Pedigree.
Proof. solve_decision. Defined.

#[global] Instance FamRow_eq_dec : EqDecision FamRow.
Proof. solve_decision. Defined.

(** A row of the calls table joined with the pedigree. *)
Record Row : Type := mkRow {
  call :> Call;
  father_id : cell;
  mother_id : cell;
}.

(** [Index.duplicated()]: position by position, whether the key occurred
    earlier ([seen] holds the earlier keys). *)
Fixpoint duplicated `{EqDecision K} (seen : list K) (index : list K) : list bool :=
  match index with
  | [] => []
  | k :: index' => bool_decide (k ∈ seen) :: duplicated (k :: seen) index'
  end.

(** [DataFrame.drop_duplicates()]: the first occurrence of each row is kept. *)
Fixpoint drop_duplicates_from `{EqDecision A} (seen : list A) (rows : list A) : list A :=
  match rows with
  | [] => []
  | r :: rows' =>
      if bool_decide (r ∈ seen) then drop_duplicates_from seen rows'
      else r :: drop_duplicates_from (r :: seen) rows'
  end.

Definition drop_duplicates `{EqDecision A} (rows : list A) : list A :=
  drop_duplicates_from [] rows.

(** [sum(flags)] for a list of [bool]. *)
Definition py_sum_bool (flags : list bool) : Z :=
  foldl (λ acc (b : bool), if b then acc + 1 else acc) 0 flags.

(** [df] is given by its index. *)
Definition check_for_duplicate_keys `{EqDecision K} (index : list K) : result unit :=
  let num_duplicate_keys := py_sum_bool (duplicated [] index) in
  if 0 <? num_duplicate_keys then Raise ValueError else Ok tt.

(** The argument is the table [pd.read_table] returns, restricted to the
    expected columns. *)
Definition parse_combined_str_calls_tsv_path
    (combined_str_calls_df : list Call) : result (list Call) :=
  _ ← check_for_duplicate_keys
        (map (λ r, (Filename r, SampleId r, LocusId r, VariantId r))
             combined_str_calls_df);
  mret combined_str_calls_df.

(** The argument is the table [pd.read_table] returns. *)
Definition parse_fam_file (fam_file_df : list FamRow) : result (list Pedigree) :=
  let fam_file_df :=
    map (λ r, mkPedigree (fam_individual_id r) (fam_father_id r) (fam_mother_id r))
        fam_file_df in
  let fam_file_df := drop_duplicates fam_file_df in
  _ ← check_for_duplicate_keys (map individual_id fam_file_df);
  mret fam_file_df.

(** ** Trio grouping *)

Abbreviation row_key := (string * string * string)%type.

(** The first loop of [group_rows_by_trio]: each row with a genotype is
    stored under its sample id and under its file name. *)
Definition cache_rows (combined_str_calls_df : list Row) : gmap row_key Row :=
  foldl (λ all_rows (row : Row),
           match Genotype row with
           | PyNone => all_rows
           | _ => <[(Filename row, LocusId row, VariantId row) := row]>
                    (<[(SampleId row, LocusId row, VariantId row) := row]> all_rows)
           end)
        ∅ combined_str_calls_df.

(** [all_rows.get((parent_id, row.LocusId, row.VariantId))]. *)
Definition get_parent (all_rows : gmap row_key Row) (parent_id : cell) (row : Row)
    : option Row :=
  match parent_id with
  | Str s => all_rows !! (s, LocusId row, VariantId row)
  | NaN | PyNone => None
  end.

(** The rows of a complete trio: proband, father, mother. *)
Abbreviation Trio := (Row * Row * Row)%type.

(** The second loop: one candidate row, and the two lists built so far. *)
Definition group_step (all_rows : gmap row_key Row)
    (acc : list Trio * list Row) (row : Row) : list Trio * list Row :=
  let '(trio_rows, other_rows) := acc in
  match get_parent all_rows (father_id row) row,
        get_parent all_rows (mother_id row) row with
  | Some father_row, Some mother_row =>
      (trio_rows ++ [(row, father_row, mother_row)], other_rows)
  | _, _ => (trio_rows, other_rows ++ [row])
  end.

(** The printed counts ([calls_counter], [trio_ids]) are left out. *)
Definition group_rows_by_trio (combined_str_calls_df : list Row)
    : list Trio * list Row :=
  let all_rows := cache_rows combined_str_calls_df in
  let combined_str_calls_df :=
    filter (λ row : Row, negb (isna (father_id row)) && negb (isna (mother_id row)) = true)
           combined_str_calls_df in
  foldl (group_step all_rows) ([], []) combined_str_calls_df.

(** ** Violation scoring *)

(** One row of the result table. The fields are the keys of [results_row]
    (the read-support keys are in [ExtraResults]). [MinCoverage], a float, is
    left out: [Coverage] is taken to be a numeric column, on which [float()]
    does not raise. *)
Module ViolationRow.
Record ExtraResults : Type := mkExtraResults {
  ProbandNumSpanningReads : string;
  ProbandNumFlankingReads : string;
  ProbandNumInrepeatReads : string;
  FatherNumSpanningReads : string;
  FatherNumFlankingReads : string;
  FatherNumInrepeatReads : string;
  MotherNumSpanningReads : string;
  MotherNumFlankingReads : string;
  MotherNumInrepeatReads : string;
  ProbandNumAllelesSupportedBySpanningReads : Z;
  FatherNumAllelesSupportedByFlankingReads : Z;
  MotherNumAllelesSupportedByInrepeatReads : Z;
}.

Record t : Type := mk {
  LocusId : string;
  ReferenceRegion : string;
  VariantId : string;
  RepeatUnit : string;
  RepeatUnitLength : Z;
  IsMendelianViolation : bool;
  IsMendelianViolationCI : bool;
  MendelianViolationDistance : Z;
  MendelianViolationDistanceCI : Z;
  MendelianViolationSummary : string;
  ProbandGenotype : string;
  ProbandGenotypeCI : string;
  ProbandGenotypeCI_size : Z;
  FatherGenotype : string;
  FatherGenotypeCI : string;
  MotherGenotype : string;
  MotherGenotypeCI : string;
  AllGenotypesAreTheSame : bool;
  AllGenotypesAreHomozygousReference : bool;
  ProbandSampleId : string;
  FatherSampleId : string;
  MotherSampleId : string;
  ProbandSex : string;
  ProbandNumRepeatsAllele2 : string;
  FatherNumRepeatsAllele2 : string;
  MotherNumRepeatsAllele2 : string;
  ProbandCoverage : string;
  FatherCoverage : string;
  MotherCoverage : string;
  mendelian_results_string : string;
  mendelian_ci_results_string : string;
  extra_results : option ExtraResults;
}.
End ViolationRow.

(** The local variables of [compute_mendelian_violations] that the loop
    updates, and the warnings printed so far. *)
Record State : Type := mkState {
  counters : gmap string Z;
  counters_ci : gmap string Z;
  results : list string;
  results_ci : list string;
  results_rows : list ViolationRow.t;
  warnings : list string;
}.

Definition initial_state : State := mkState ∅ ∅ [] [] [] [].

(** [counters[key] += 1] on a [defaultdict(int)]. *)
Definition increment (key : string) (counters : gmap string Z) : gmap string Z :=
  <[key := default 0 (counters !! key) + 1]> counters.

(** [row.Genotype.split("/")]. *)
Definition split_genotype (genotype : cell) : result (string * list string) :=
  match genotype with
  | Str s => Ok (s, py_split "/" s)
  | NaN | PyNone => Raise AttributeError
  end.

(** [len(alleles) in [1, 2]]. *)
Definition one_or_two {A} (alleles : list A) : bool :=
  bool_decide (length alleles = 1%nat ∨ length alleles = 2%nat).

(** Source lines 228-230: each [ci] of [s.split("/")] is split at "-", its
    parts are read with [int], and [Interval] is applied to them. *)
Definition parse_CIs (s : string) : result (list Interval) :=
  mapM (λ ci, args ← mapM (λ i, py_int (VStr i)) (py_split "-" ci);
               Interval_of_args args)
       (py_split "/" s).

(** [any([intervals_overlap(proband_CIs[n], i) for i in parent_CIs])]: the
    index is evaluated once per element. *)
Definition any_overlap (proband_CIs : list Interval) (n : nat)
    (parent_CIs : list Interval) : result bool :=
  flags ← mapM (λ i, c ← py_index proband_CIs n; mret (intervals_overlap c i))
               parent_CIs;
  mret (py_any id flags).

(** [compute_min_distance_mendelian_ci(proband_CIs[n], parent_CIs)]. *)
Definition min_distance_ci_at (proband_CIs : list Interval) (n : nat)
    (parent_CIs : list Interval) : result Z :=
  c ← py_index proband_CIs n;
  compute_min_distance_mendelian_ci c parent_CIs.

(** [a and b], [a or b]: the right operand is evaluated only when needed. *)
Definition py_and (a b : result bool) : result bool :=
  x ← a; if x : bool then b else mret false.
Definition py_or (a b : result bool) : result bool :=
  x ← a; if x : bool then mret true else b.

(** Source lines 232-262: the exact flag and distance, then the
    confidence-interval flag and distance. *)
Definition mendelian_consistency
    (proband_alleles father_alleles mother_alleles : list string)
    (proband_CIs father_CIs mother_CIs : list Interval)
    : result (bool * Z * bool * Z) :=
  match proband_alleles with
  | [p0] =>
      let ok_mendelian := py_in p0 father_alleles || py_in p0 mother_alleles in
      d_f ← compute_min_distance_mendelian (VStr p0) (VStr <$> father_alleles);
      d_m ← compute_min_distance_mendelian (VStr p0) (VStr <$> mother_alleles);
      let distance_mendelian := Z.min d_f d_m in
      ok_mendelian_ci ← py_or (any_overlap proband_CIs 0 father_CIs)
                              (any_overlap proband_CIs 0 mother_CIs);
      c_f ← min_distance_ci_at proband_CIs 0 father_CIs;
      c_m ← min_distance_ci_at proband_CIs 0 mother_CIs;
      let distance_mendelian_ci := Z.min c_f c_m in
      mret (ok_mendelian, distance_mendelian, ok_mendelian_ci, distance_mendelian_ci)
  | [p0; p1] =>
      let ok_mendelian :=
        (py_in p0 father_alleles && py_in p1 mother_alleles) ||
        (py_in p1 father_alleles && py_in p0 mother_alleles) in
      d0_f ← compute_min_distance_mendelian (VStr p0) (VStr <$> father_alleles);
      d1_m ← compute_min_distance_mendelian (VStr p1) (VStr <$> mother_alleles);
      d1_f ← compute_min_distance_mendelian (VStr p1) (VStr <$> father_alleles);
      d0_m ← compute_min_distance_mendelian (VStr p0) (VStr <$> mother_alleles);
      let distance_mendelian := Z.min (d0_f + d1_m) (d1_f + d0_m) in
      ok_mendelian_ci ←
        py_or (py_and (any_overlap proband_CIs 0 father_CIs)
                      (any_overlap proband_CIs 1 mother_CIs))
              (py_and (any_overlap proband_CIs 1 father_CIs)
                      (any_overlap proband_CIs 0 mother_CIs));
      c0_f ← min_distance_ci_at proband_CIs 0 father_CIs;
      c1_m ← min_distance_ci_at proband_CIs 1 mother_CIs;
      c1_f ← min_distance_ci_at proband_CIs 1 father_CIs;
      c0_m ← min_distance_ci_at proband_CIs 0 mother_CIs;
      let distance_mendelian_ci := Z.min (c0_f + c1_m) (c1_f + c0_m) in
      mret (ok_mendelian, distance_mendelian, ok_mendelian_ci, distance_mendelian_ci)
  | _ => Raise ValueError
  end.

(** [int(a) + int(b) + int(c)] on the three per-allele support columns. *)
Definition support_sum (x : ExtraColumns) : result Z :=
  let int_cell (c : option Z) : result Z :=
    match c with Some z => Ok z | None => Raise ValueError end in
  a ← int_cell (NumAllelesSupportedBySpanningReads x);
  b ← int_cell (NumAllelesSupportedByFlankingReads x);
  c ← int_cell (NumAllelesSupportedByInrepeatReads x);
  mret (a + b + c).

(** Source lines 334-350. *)
Definition extra_results_of (proband_row father_row mother_row : Row)
    : result (option ViolationRow.ExtraResults) :=
  match Extra proband_row, Extra father_row, Extra mother_row with
  | Some p, Some f, Some m =>
      sp ← support_sum p;
      sf ← support_sum f;
      sm ← support_sum m;
      mret (Some (ViolationRow.mkExtraResults
                    (NumSpanningReads p) (NumFlankingReads p) (NumInrepeatReads p)
                    (NumSpanningReads f) (NumFlankingReads f) (NumInrepeatReads f)
                    (NumSpanningReads m) (NumFlankingReads m) (NumInrepeatReads m)
                    sp sf sm))
  | _, _, _ => mret None
  end.

(** The key of the per-locus counters. *)
Definition counter_key (proband_row : Row) : string :=
  LocusId proband_row +:+ " (" +:+ RepeatUnit proband_row +:+ ")".

(** The file-name patterns that end both diagnostic strings. *)
Definition svg_patterns (locus_id : string) (proband_row father_row mother_row : Row)
    : string :=
  SampleId proband_row +:+ "*_ExpansionHunter4/*" +:+ locus_id +:+ "*.svg "
  +:+ SampleId father_row +:+ "*_ExpansionHunter4/*" +:+ locus_id +:+ "*.svg "
  +:+ SampleId mother_row +:+ "*_ExpansionHunter4/*" +:+ locus_id +:+ "*.svg".

(** *** The outcome of one iteration

    The values one iteration of the loop computes, gathered in a record so
    that the properties of the loop can name them. *)

(** The alleles of a row: its genotype split at "/". *)
Definition alleles_of (row : Row) : list string :=
  match Genotype row with
  | Str s => py_split "/" s
  | NaN | PyNone => []
  end.

(** What one iteration computes for a trio: the two flags, the two
    distances, the warning printed, the reference repeat count and the row
    added to the table. *)
Record Outcome : Type := mkOutcome {
  o_ok_mendelian : bool;
  o_distance_mendelian : Z;
  o_ok_mendelian_ci : bool;
  o_distance_mendelian_ci : Z;
  o_warning : list string;
  o_repeats : Z;
  o_row : ViolationRow.t;
}.

(** The state after an iteration with outcome [o]. *)
Definition state_after (st : State) (proband_row : Row) (o : Outcome) : State :=
  mkState
    (if o_ok_mendelian o then counters st
     else increment (counter_key proband_row) (counters st))
    (if o_ok_mendelian_ci o then counters_ci st
     else increment (counter_key proband_row) (counters_ci st))
    (if o_ok_mendelian o then results st
     else results st ++ [ViolationRow.mendelian_results_string (o_row o)])
    (if o_ok_mendelian_ci o then results_ci st
     else results_ci st ++ [ViolationRow.mendelian_ci_results_string (o_row o)])
    (results_rows st ++ [o_row o])
    (warnings st ++ o_warning o).

Section Scoring.
(** [str_analysis.utils.misc_utils.parse_interval], which is not part of
    this file: it reads a region and returns chromosome, 0-based start and
    1-based end, or raises. *)
Variable parse_interval : string → result (string * Z * Z).

(** Source lines 278-282: the warning printed, if any, and
    [repeats_in_reference] before [str] is applied to it. *)
Definition repeats_in_reference (proband_row : Row) : result (list string * Z) :=
  '(_, reference_region_start_0based, reference_region_end_1based) ←
    parse_interval (ReferenceRegion proband_row);
  let n := Z.of_nat (String.length (RepeatUnit proband_row)) in
  let size := reference_region_end_1based - reference_region_start_0based in
  m ← py_mod size n;
  let warning :=
    if m =? 0 then []
    else ["WARNING: " +:+ ReferenceRegion proband_row
          +:+ " is not a multiple of the repeat unit size (" +:+ py_str n +:+ ")"] in
  q ← py_int_truediv size n;
  mret (warning, q).

(** The body of the loop of [compute_mendelian_violations]. *)
Definition score_trio (st : State) (trio : Trio) : result State :=
  let '(proband_row, father_row, mother_row) := trio in
  let locus_id := LocusId proband_row in
  '(proband_genotype, proband_alleles) ← split_genotype (Genotype proband_row);
  '(father_genotype, father_alleles) ← split_genotype (Genotype father_row);
  '(mother_genotype, mother_alleles) ← split_genotype (Genotype mother_row);
  _ ← py_assert 224 (one_or_two proband_alleles);
  _ ← py_assert 225 (one_or_two father_alleles);
  _ ← py_assert 226 (one_or_two mother_alleles);
  proband_CIs ← parse_CIs (GenotypeConfidenceInterval proband_row);
  father_CIs ← parse_CIs (GenotypeConfidenceInterval father_row);
  mother_CIs ← parse_CIs (GenotypeConfidenceInterval mother_row);
  '(ok_mendelian, distance_mendelian, ok_mendelian_ci, distance_mendelian_ci) ←
    mendelian_consistency proband_alleles father_alleles mother_alleles
                          proband_CIs father_CIs mother_CIs;
  _ ← (if ok_mendelian : bool then py_assert 265 (distance_mendelian =? 0)
       else mret tt);
  let mendelian_results_string :=
    locus_id +:+ "  d:" +:+ py_str distance_mendelian +:+ "  ("
    +:+ father_genotype +:+ " + " +:+ mother_genotype +:+ " => "
    +:+ proband_genotype +:+ ") "
    +:+ SampleId proband_row +:+ "  " +:+ SampleId father_row +:+ "  "
    +:+ SampleId mother_row +:+ "    "
    +:+ svg_patterns locus_id proband_row father_row mother_row in
  let results' :=
    if ok_mendelian : bool then results st
    else results st ++ [mendelian_results_string] in
  let counters' :=
    if ok_mendelian : bool then counters st
    else increment (counter_key proband_row) (counters st) in
  let mendelian_ci_results_string :=
    locus_id +:+ "   (" +:+ GenotypeConfidenceInterval father_row +:+ " + "
    +:+ GenotypeConfidenceInterval mother_row +:+ " => "
    +:+ GenotypeConfidenceInterval proband_row +:+ ")  "
    +:+ SampleId proband_row +:+ "  " +:+ SampleId father_row +:+ "  "
    +:+ SampleId mother_row +:+ "  "
    +:+ svg_patterns locus_id proband_row father_row mother_row in
  let results_ci' :=
    if ok_mendelian_ci : bool then results_ci st
    else results_ci st ++ [mendelian_ci_results_string] in
  let counters_ci' :=
    if ok_mendelian_ci : bool then counters_ci st
    else increment (counter_key proband_row) (counters_ci st) in
  '(warning, q) ← repeats_in_reference proband_row;
  let repeats_in_reference := py_str q in
  let proband_is_homozygous_reference :=
    py_all (String.eqb repeats_in_reference) proband_alleles in
  let mother_is_homozygous_reference :=
    py_all (String.eqb repeats_in_reference) mother_alleles in
  let father_is_homozygous_reference :=
    py_all (String.eqb repeats_in_reference) father_alleles in
  let all_genotypes_are_the_same :=
    bool_decide (list_to_set proband_alleles =@{gset string} list_to_set mother_alleles)
    && bool_decide (list_to_set proband_alleles =@{gset string} list_to_set father_alleles) in
  let all_genotypes_are_homozygous_reference :=
    proband_is_homozygous_reference && mother_is_homozygous_reference
    && father_is_homozygous_reference in
  last_CI ← match last proband_CIs with
            | Some c => Ok c
            | None => Raise IndexError
            end;
  extra ← extra_results_of proband_row father_row mother_row;
  let results_row :=
    ViolationRow.mk
      (locus_id +:+ " (" +:+ VariantId proband_row +:+ ")")
      (ReferenceRegion proband_row)
      (VariantId proband_row)
      (RepeatUnit proband_row)
      (Z.of_nat (String.length (RepeatUnit proband_row)))
      (negb ok_mendelian)
      (negb ok_mendelian_ci)
      distance_mendelian
      distance_mendelian_ci
      (if negb ok_mendelian_ci then "MV-CI!"
       else if negb ok_mendelian then "MV" else "ok")
      proband_genotype
      (GenotypeConfidenceInterval proband_row)
      (Interval_length last_CI)
      father_genotype
      (GenotypeConfidenceInterval father_row)
      mother_genotype
      (GenotypeConfidenceInterval mother_row)
      all_genotypes_are_the_same
      all_genotypes_are_homozygous_reference
      (SampleId proband_row) (SampleId father_row) (SampleId mother_row)
      (Sex proband_row)
      (NumRepeatsAllele2 proband_row) (NumRepeatsAllele2 father_row)
      (NumRepeatsAllele2 mother_row)
      (Coverage proband_row) (Coverage father_row) (Coverage mother_row)
      mendelian_results_string
      mendelian_ci_results_string
      extra in
  mret (mkState counters' counters_ci' results' results_ci'
                (results_rows st ++ [results_row])
                (warnings st ++ warning)).

(** The loop over [trio_rows]. *)
Fixpoint score_trios (st : State) (trio_rows : list Trio) : result State :=
  match trio_rows with
  | [] => Ok st
  | trio :: trio_rows' =>
      st' ← score_trio st trio;
      score_trios st' trio_rows'
  end.

(** The final state of the locals; the function itself returns the table. *)
Definition compute_mendelian_violations_state (trio_rows : list Trio) : result State :=
  score_trios initial_state trio_rows.

Definition compute_mendelian_violations (trio_rows : list Trio)
    : result (list ViolationRow.t) :=
  results_rows <$> compute_mendelian_violations_state trio_rows.

(** The facts that determine the outcome [o] of scoring a trio. *)
Definition outcome_of (p f m : Row) (o : Outcome) : Prop :=
  ∃ pcis fcis mcis,
    one_or_two (alleles_of p) = true
    ∧ one_or_two (alleles_of f) = true
    ∧ one_or_two (alleles_of m) = true
    ∧ parse_CIs (GenotypeConfidenceInterval p) = Ok pcis
    ∧ parse_CIs (GenotypeConfidenceInterval f) = Ok fcis
    ∧ parse_CIs (GenotypeConfidenceInterval m) = Ok mcis
    ∧ mendelian_consistency (alleles_of p) (alleles_of f) (alleles_of m) pcis fcis mcis
      = Ok (o_ok_mendelian o, o_distance_mendelian o,
            o_ok_mendelian_ci o, o_distance_mendelian_ci o)
    ∧ repeats_in_reference p = Ok (o_warning o, o_repeats o)
    ∧ ViolationRow.IsMendelianViolation (o_row o) = negb (o_ok_mendelian o)
    ∧ ViolationRow.IsMendelianViolationCI (o_row o) = negb (o_ok_mendelian_ci o)
    ∧ ViolationRow.MendelianViolationDistance (o_row o) = o_distance_mendelian o
    ∧ ViolationRow.MendelianViolationDistanceCI (o_row o) = o_distance_mendelian_ci o
    ∧ ViolationRow.AllGenotypesAreHomozygousReference (o_row o)
      = py_all (String.eqb (py_str (o_repeats o))) (alleles_of p)
        && py_all (String.eqb (py_str (o_repeats o))) (alleles_of m)
        && py_all (String.eqb (py_str (o_repeats o))) (alleles_of f).

End Scoring.

(** Modelled from the spec: [parse_interval] of
    [str_analysis.utils.misc_utils], which is not among the sources. The spec
    gives the format of a reference region as [chrom:start-end]; this reader
    takes the text after the last colon and reads the two numbers around the
    dash. It is used only to run the functions above on concrete rows. *)
Definition parse_interval_model (interval_string : string) : result (string * Z * Z) :=
  let tokens := py_split ":" interval_string in
  match last tokens with
  | None => Raise ValueError
  | Some range =>
      match mapM (λ i, py_int (VStr i)) (py_split "-" range) with
      | Ok [start; end_] =>
          Ok (String.concat ":" (take (length tokens - 1) tokens), start, end_)
      | _ => Raise ValueError
      end
  end.

(** ** The main function *)

(** [combined_str_calls_df.join(fam_file_df, how="left")] on
    [SampleId = individual_id], for a pedigree whose [individual_id]s are
    distinct (as [parse_fam_file] has checked): every row of the calls table is
    kept, in order, with the parents of its sample, or with two missing cells
    when the pedigree does not list the sample. *)
Definition join_fam (combined_str_calls_df : list Call) (fam_file_df : list Pedigree)
    : list Row :=
  map (λ c,
         match find (λ p, bool_decide (individual_id p = Str (SampleId c))) fam_file_df with
         | Some p => mkRow c (ped_father_id p) (ped_mother_id p)
         | None => mkRow c NaN NaN
         end)
      combined_str_calls_df.

(** The line feed. *)
Definition newline : ascii := ascii_of_nat 10.

(** Whether the pattern [.tsv$] matches the whole of [s]: any character but
    a line feed, then "tsv", then the end of the text or a last line feed. The
    result is the text after the match. *)
Definition tsv_match (s : string) : option string :=
  match s with
  | EmptyString => None
  | String c rest =>
      if Ascii.eqb c newline then None
      else if String.eqb rest "tsv" then Some EmptyString
      else if String.eqb rest ("tsv" +:+ String newline EmptyString)
           then Some (String newline EmptyString)
      else None
  end.

(** [re.sub(".tsv$", "", s)]: the match, which can only be at the end, is
    removed. *)
Fixpoint re_sub_tsv (s : string) : string :=
  match tsv_match s with
  | Some rest => rest
  | None =>
      match s with
      | EmptyString => EmptyString
      | String c s' => String c (re_sub_tsv s')
      end
  end.

Section Main.
Variable parse_interval : string → result (string * Z * Z).

(** [main], from the path of the calls table and the two tables as read, to
    the two files written: each a path and a table. Reading the command line
    and the files, and writing, are left out. *)
Definition main (combined_str_calls_tsv : string)
    (calls : list Call) (fam : list FamRow)
    : result ((string * list ViolationRow.t) * (string * list Row)) :=
  combined_str_calls_df ← parse_combined_str_calls_tsv_path calls;
  fam_file_df ← parse_fam_file fam;
  let combined_str_calls_df := join_fam combined_str_calls_df fam_file_df in
  let '(trio_rows, other_rows) := group_rows_by_trio combined_str_calls_df in
  mendelian_violations_df ← compute_mendelian_violations parse_interval trio_rows;
  let violations_path :=
    re_sub_tsv combined_str_calls_tsv +:+ ".mendelian_violations.tsv" in
  let non_trio_path :=
    re_sub_tsv combined_str_calls_tsv +:+ ".non_trio_rows.tsv" in
  mret ((violations_path, mendelian_violations_df), (non_trio_path, other_rows)).

End Main.

(** * The vocabulary of the properties *)

(** [d] is the least element of the non-empty list [l]. *)
Definition is_minimum (l : list Z) (d : Z) : Prop :=
  d ∈ l ∧ ∀ y, y ∈ l → d ≤ y.

(** [ys] are the integers that [int()] reads from [pas]. *)
Definition ints_of (pas : list pyval) (ys : list Z) : Prop :=
  Forall2 (λ v y, py_int v = Ok y) pas ys.

(** [d] is the least absolute difference between [x] and an element of [ys]. *)
Definition is_min_distance (x : Z) (ys : list Z) (d : Z) : Prop :=
  is_minimum (map (λ y, Z.abs (x - y)) ys) d.

(** The key of a row of the calls table. *)
Definition call_key (r : Call) : string * string * string * string :=
  (Filename r, SampleId r, LocusId r, VariantId r).

(** The pedigree columns of a row of the pedigree file. *)
Definition pedigree_of (r : FamRow) : Pedigree :=
  mkPedigree (fam_individual_id r) (fam_father_id r) (fam_mother_id r).

(** The pedigree condition in the words of the specification: the rows of
    the six-column table are deduplicated by exact equality, and two of the
    rows that remain have the same [individual_id]. *)
Definition fam_rows_have_duplicate_ids (fam : list FamRow) : Prop :=
  ¬ NoDup (fam_individual_id <$> drop_duplicates fam).

(** Both parent identifiers are present (source line 148). *)
Definition is_candidate (row : Row) : Prop :=
  negb (isna (father_id row)) && negb (isna (mother_id row)) = true.

(** Both parents of [row] are found in the cache. *)
Definition parents_found (all_rows : gmap row_key Row) (row : Row) : Prop :=
  is_Some (get_parent all_rows (father_id row) row)
  ∧ is_Some (get_parent all_rows (mother_id row) row).

(** The proband of a trio. *)
Definition proband (trio : Trio) : Row := trio.1.1.

(** [parent] is a genotype record for the identifier [parent_id] at the locus
    and variant of [row]: its sample id or its file name is [parent_id]. *)
Definition is_record_for (parent_id : cell) (row parent : Row) : Prop :=
  Genotype parent ≠ PyNone
  ∧ LocusId parent = LocusId row ∧ VariantId parent = VariantId row
  ∧ (parent_id = Str (SampleId parent) ∨ parent_id = Str (Filename parent)).

(** The table holds a genotype record for the identifier [parent_id] at the
    locus and variant of [row]. *)
Definition has_record (df : list Row) (parent_id : cell) (row : Row) : Prop :=
  ∃ parent, parent ∈ df ∧ is_record_for parent_id row parent.

#[global] Instance is_candidate_dec (row : Row) : Decision (is_candidate row).
Proof. unfold is_candidate. apply _. Defined.

#[global] Instance parents_found_dec (all_rows : gmap row_key Row) (row : Row) :
  Decision (parents_found all_rows row).
Proof. unfold parents_found. apply _. Defined.

(** The trio of [row], when both parents are found. *)
Definition trio_of (all_rows : gmap row_key Row) (row : Row) : option Trio :=
  match get_parent all_rows (father_id row) row,
        get_parent all_rows (mother_id row) row with
  | Some father_row, Some mother_row => Some (row, father_row, mother_row)
  | _, _ => None
  end.

(** [zs] are the integers that [int()] reads from the allele strings. *)
Definition alleles_read (alleles : list string) (zs : list Z) : Prop :=
  ints_of (VStr <$> alleles) zs.

(** The sum of the values of a counter table. *)
Definition total (counters : gmap string Z) : Z :=
  map_fold (λ _ v acc, v + acc) 0 counters.

(** The number of rows of the result table that are exact violations. *)
Definition violations (rows : list ViolationRow.t) : Z :=
  Z.of_nat (length (filter (λ row, ViolationRow.IsMendelianViolation row = true) rows)).

(** The number of evaluations, each a trio with the row it produced, that
    are exact violations counted under [key]. *)
Definition violations_for (key : string) (scored : list (Trio * ViolationRow.t)) : Z :=
  Z.of_nat (length (filter (λ tr, counter_key (proband tr.1) = key
                                  ∧ ViolationRow.IsMendelianViolation tr.2 = true)
                           scored)).

(** The warning of source line 280. *)
Definition not_a_multiple_warning (proband_row : Row) : string :=
  "WARNING: " +:+ ReferenceRegion proband_row
  +:+ " is not a multiple of the repeat unit size ("
  +:+ py_str (Z.of_nat (String.length (RepeatUnit proband_row))) +:+ ")".

(** A row of the joined table for the locus HTT, with the reference region,
    the repeat unit, the genotype and the confidence intervals given. *)
Definition example_row_at (region unit sample genotype CIs : string)
    (father mother : cell) : Row :=
  mkRow (mkCall sample "HTT" "HTT" (sample +:+ ".json") (Str genotype) CIs
                region unit "male" "20" "30.5" None)
        father mother.

(** The same at the HTT repeat, 57 bases of the unit CAG. *)
Definition example_row : string → string → string → cell → cell → Row :=
  example_row_at "chr4:3074876-3074933" "CAG".

(** [d] is the least absolute value of [distance_to] from [ci] to an
    interval of [cis]. *)
Definition is_min_distance_ci (ci : Interval) (cis : list Interval) (d : Z) : Prop :=
  is_minimum (map (λ c, Z.abs (Interval_distance_to ci c)) cis) d.

(** [ci] overlaps, by [intervals_overlap], one of the intervals of [cis]. *)
Definition overlaps_any (ci : Interval) (cis : list Interval) : Prop :=
  ∃ c, c ∈ cis ∧ intervals_overlap ci c = true.

(** Each allele reads as an integer that lies in the confidence interval at
    the same position. *)
Definition alleles_within (alleles : list string) (cis : list Interval) : Prop :=
  Forall2 (λ a c, ∃ z, int_of_str a = Some z ∧ i_begin c ≤ z ≤ i_end c) alleles cis.

(** An interval that begins before it ends. *)
Definition proper (c : Interval) : Prop := i_begin c < i_end c.

(** The confidence intervals of a record are read, and each of its alleles
    lies in the interval at its position. *)
Definition row_within (row : Row) : Prop :=
  ∃ cis, parse_CIs (GenotypeConfidenceInterval row) = Ok cis
         ∧ alleles_within (alleles_of row) cis.

(** The number of occurrences of the character [c] in [s]. *)
Fixpoint count_char (c : ascii) (s : string) : nat :=
  match s with
  | EmptyString => 0%nat
  | String c' s' => ((if Ascii.eqb c' c then 1 else 0) + count_char c s')%nat
  end.

(** The number of rows of the result table that are confidence-interval
    violations. *)
Definition violations_ci (rows : list ViolationRow.t) : Z :=
  Z.of_nat (length (filter (λ row, ViolationRow.IsMendelianViolationCI row = true) rows)).

(** The three-way summary that the two flags of a row determine. *)
Definition summary_of (row : ViolationRow.t) : string :=
  if ViolationRow.IsMendelianViolationCI row then "MV-CI!"
  else if ViolationRow.IsMendelianViolation row then "MV" else "ok".

(** [row] carries the identifiers, the genotype and confidence-interval text
    of the three individuals of [trio], and the locus of its proband. *)
Definition row_describes (trio : Trio) (row : ViolationRow.t) : Prop :=
  let '(p, f, m) := trio in
  ViolationRow.ProbandSampleId row = SampleId p
  ∧ ViolationRow.FatherSampleId row = SampleId f
  ∧ ViolationRow.MotherSampleId row = SampleId m
  ∧ Genotype p = Str (ViolationRow.ProbandGenotype row)
  ∧ Genotype f = Str (ViolationRow.FatherGenotype row)
  ∧ Genotype m = Str (ViolationRow.MotherGenotype row)
  ∧ ViolationRow.ProbandGenotypeCI row = GenotypeConfidenceInterval p
  ∧ ViolationRow.FatherGenotypeCI row = GenotypeConfidenceInterval f
  ∧ ViolationRow.MotherGenotypeCI row = GenotypeConfidenceInterval m
  ∧ ViolationRow.LocusId row = LocusId p +:+ " (" +:+ VariantId p +:+ ")"
  ∧ ViolationRow.VariantId row = VariantId p
  ∧ ViolationRow.ReferenceRegion row = ReferenceRegion p
  ∧ ViolationRow.RepeatUnit row = RepeatUnit p
  ∧ ViolationRow.RepeatUnitLength row = Z.of_nat (String.length (RepeatUnit p)).

(** The pedigree file has a row for the sample of the call [c] that names
    both a father and a mother. *)
Definition pedigree_child (fam : list FamRow) (c : Call) : Prop :=
  Exists (λ r, fam_individual_id r = Str (SampleId c)
               ∧ isna (fam_father_id r) = false ∧ isna (fam_mother_id r) = false)
         fam.

#[global] Instance pedigree_child_dec (fam : list FamRow) (c : Call) :
  Decision (pedigree_child fam c).
Proof. unfold pedigree_child. apply _. Defined.

(** The parent identifiers of [row] are those of a row of the pedigree file
    for its sample. *)
Definition pedigree_entry (fam : list FamRow) (row : Row) : Prop :=
  ∃ r, r ∈ fam ∧ fam_individual_id r = Str (SampleId row)
       ∧ father_id row = fam_father_id r ∧ mother_id row = fam_mother_id r.

(** The father and the mother of a trio are calls of the table, each a
    genotype record for the identifier the proband has for that parent. *)
Definition parents_from (calls : list Call) (trio : Trio) : Prop :=
  let '(p, f, m) := trio in
  call f ∈ calls ∧ call m ∈ calls
  ∧ is_record_for (father_id p) p f ∧ is_record_for (mother_id p) p m.

(** Two trios at the HTT repeat with the same parents: the first is
    consistent, the second is a violation by its alleles and by its
    confidence intervals. *)
Definition example_trios : list Trio :=
  [(example_row "kid" "17/20" "17-17/20-21" (Str "dad") (Str "mom"),
    example_row "dad" "17/17" "17-17/17-17" NaN NaN,
    example_row "mom" "20/22" "20-20/22-25" NaN NaN);
   (example_row "sib" "17/25" "17-17/25-25" (Str "dad") (Str "mom"),
    example_row "dad" "17/17" "17-17/17-17" NaN NaN,
    example_row "mom" "20/22" "20-20/22-25" NaN NaN)].

(** A call at the HTT repeat, as a row of the calls table. *)
Definition example_call (sample genotype CIs : string) : Call :=
  call (example_row sample genotype CIs NaN NaN).

(** A calls table: a child, its parents, a child whose father has no call,
    and a sample the pedigree does not list. *)
Definition example_calls : list Call :=
  [example_call "kid" "17/20" "17-17/20-21";
   example_call "dad" "17/17" "17-17/17-17";
   example_call "mom" "20/22" "20-20/22-25";
   example_call "half" "20/20" "20-20/20-20";
   example_call "guest" "18/18" "18-18/18-18"].

(** A pedigree file for it; the founders have "0" for their parents, and the
    mother has no father listed. *)
Definition example_fam : list FamRow :=
  [mkFamRow (Str "F1") (Str "kid") (Str "dad") (Str "mom") (Str "1") (Str "2");
   mkFamRow (Str "F1") (Str "half") (Str "ghost") (Str "mom") (Str "2") (Str "1");
   mkFamRow (Str "F1") (Str "dad") (Str "0") (Str "0") (Str "1") (Str "1");
   mkFamRow (Str "F1") (Str "mom") NaN (Str "0") (Str "2") (Str "1")].

(** * Properties *)

(** ** The error monad *)

Lemma bind_Ok {A B} (m : result A) (f : A → result B) (b : B) :
  m ≫= f = Ok b ↔ ∃ a, m = Ok a ∧ f a = Ok b.
Proof.
  destruct m as [a|e]; simpl.
  - split; [eauto | by intros (? & [= ->] & ?)].
  - split; [done | by intros (? & ? & ?)].
Qed.

Lemma bind_Raise {A B} (m : result A) (f : A → result B) (e : exn) :
  m ≫= f = Raise e ↔ m = Raise e ∨ ∃ a, m = Ok a ∧ f a = Raise e.
Proof.
  destruct m as [a|e']; simpl.
  - split; [eauto | by intros [|(? & [= ->] & ?)]].
  - split; [intros [= ->]; auto | by intros [[= ->]|(? & ? & ?)]].
Qed.

Lemma fmap_Ok {A B} (f : A → B) (m : result A) (b : B) :
  f <$> m = Ok b ↔ ∃ a, m = Ok a ∧ b = f a.
Proof.
  destruct m as [a|e]; simpl.
  - split; [intros [= <-]; eauto | by intros (? & [= ->] & ->)].
  - split; [done | by intros (? & ? & ?)].
Qed.

Lemma mapM_Ok {A B} (f : A → result B) (l : list A) (k : list B) :
  mapM f l = Ok k ↔ Forall2 (λ x y, f x = Ok y) l k.
Proof.
  revert k. induction l as [|x l IH]; intros k; simpl.
  - split; [intros [= <-]; constructor | by inversion 1].
  - rewrite bind_Ok. split.
    + intros (y & Hy & Hrest). apply bind_Ok in Hrest as (k' & Hk' & [= <-]).
      constructor; [done | by apply IH].
    + inversion 1 as [|? y ? k' Hy Hk']; subst. exists y. split; [done|].
      apply bind_Ok. exists k'. split; [by apply IH | done].
Qed.

Lemma mapM_length {A B} (f : A → result B) (l : list A) (k : list B) :
  mapM f l = Ok k → length k = length l.
Proof. rewrite mapM_Ok. intros H. symmetry. by eapply Forall2_length. Qed.

(** ** [min] *)

Lemma foldl_min_le (l : list Z) (x : Z) : foldl Z.min x l ≤ x.
Proof.
  revert x. induction l as [|y l IH]; intros x; simpl; [lia|].
  specialize (IH (Z.min x y)). lia.
Qed.

Lemma foldl_min_lower (l : list Z) (x y : Z) : y ∈ l → foldl Z.min x l ≤ y.
Proof.
  revert x. induction l as [|z l IH]; intros x; simpl.
  - by intros ?%elem_of_nil.
  - intros [->|Hy]%elem_of_cons.
    + pose proof (foldl_min_le l (Z.min x z)). lia.
    + by apply IH.
Qed.

Lemma foldl_min_elem (l : list Z) (x : Z) :
  foldl Z.min x l = x ∨ foldl Z.min x l ∈ l.
Proof.
  revert x. induction l as [|z l IH]; intros x; simpl; [by left|].
  destruct (IH (Z.min x z)) as [-> | Hin].
  - destruct (Z.min_spec x z) as [[_ ->]|[_ ->]]; [by left | right; left].
  - right. by right.
Qed.

Lemma py_min_Ok (l : list Z) (d : Z) : py_min l = Ok d ↔ is_minimum l d.
Proof.
  destruct l as [|x l]; simpl.
  - split; [done | by intros [?%elem_of_nil _]].
  - split.
    + intros [= <-]. split.
      * destruct (foldl_min_elem l x) as [-> | ?]; [left | by right].
      * intros y [->|Hy]%elem_of_cons;
          [apply foldl_min_le | by apply foldl_min_lower].
    + intros [Hin Hle]. f_equal. apply Z.le_antisymm.
      * apply elem_of_cons in Hin as [->|Hin];
          [apply foldl_min_le | by apply foldl_min_lower].
      * apply Hle. destruct (foldl_min_elem l x) as [-> | ?]; [left | by right].
Qed.

Lemma py_min_nonempty (l : list Z) : l ≠ [] → ∃ d, py_min l = Ok d.
Proof. destruct l; [done | simpl; eauto]. Qed.

Lemma py_min_empty (l : list Z) (e : exn) : py_min l = Raise e ↔ l = [] ∧ e = ValueError.
Proof.
  destruct l; simpl.
  - split; [by intros [= <-] | by intros [_ ->]].
  - split; [done | by intros [? _]].
Qed.

(** ** The distance primitives *)

Lemma is_min_distance_alt (x : Z) (ys : list Z) (d : Z) :
  is_min_distance x ys d ↔
  (∃ y, y ∈ ys ∧ d = Z.abs (x - y)) ∧ (∀ y, y ∈ ys → d ≤ Z.abs (x - y)).
Proof.
  unfold is_min_distance, is_minimum. rewrite list_elem_of_fmap. split.
  - intros [(y & -> & Hy) Hle]. split; [eauto|].
    intros y' Hy'. apply Hle, list_elem_of_fmap. eauto.
  - intros [(y & Hy & ->) Hle]. split; [eauto|].
    intros ? (y' & -> & Hy')%list_elem_of_fmap. by apply Hle.
Qed.

Lemma is_min_distance_nonneg (x : Z) (ys : list Z) (d : Z) :
  is_min_distance x ys d → 0 ≤ d.
Proof. rewrite is_min_distance_alt. intros [(y & _ & ->) _]. lia. Qed.

Lemma is_min_distance_unique (x : Z) (ys : list Z) (d d' : Z) :
  is_min_distance x ys d → is_min_distance x ys d' → d = d'.
Proof.
  intros [Hd Hle] [Hd' Hle']. apply Z.le_antisymm; [by apply Hle | by apply Hle'].
Qed.

Lemma is_min_distance_zero (x : Z) (ys : list Z) (d : Z) :
  is_min_distance x ys d → x ∈ ys → d = 0.
Proof.
  intros Hd Hx. pose proof (is_min_distance_nonneg _ _ _ Hd) as Hnn.
  apply is_min_distance_alt in Hd as [_ Hle]. specialize (Hle x Hx). lia.
Qed.


Lemma ints_of_length (pas : list pyval) (ys : list Z) :
  ints_of pas ys → length pas = length ys.
Proof. apply Forall2_length. Qed.

Lemma distances_Ok (p : pyval) (x : Z) (pas : list pyval) (ds : list Z) :
  py_int p = Ok x →
  mapM (λ pa, x ← py_int p; y ← py_int pa; mret (Z.abs (x - y))) pas = Ok ds ↔
  ∃ ys, ints_of pas ys ∧ ds = map (λ y, Z.abs (x - y)) ys.
Proof.
  intros Hp. rewrite mapM_Ok. revert ds.
  induction pas as [|pa pas IH]; intros ds.
  - split.
    + inversion 1. exists []. split; [constructor | done].
    + intros (ys & Hys & ->). inversion Hys. constructor.
  - split.
    + inversion 1 as [|? d ? ds' Hd Hds']; subst.
      rewrite Hp in Hd. simpl in Hd.
      apply bind_Ok in Hd as (y & Hy & [= <-]).
      apply IH in Hds' as (ys & Hys & ->).
      exists (y :: ys). split; [by constructor | done].
    + intros (ys & Hys & ->). inversion Hys as [|? y ? ys' Hy Hys']; subst.
      simpl. constructor.
      * rewrite Hp. simpl. by rewrite Hy.
      * apply IH. eauto.
Qed.

(** What [compute_min_distance_mendelian] returns, when it returns. *)
Lemma compute_min_distance_mendelian_Ok (p : pyval) (pas : list pyval) (d : Z) :
  compute_min_distance_mendelian p pas = Ok d ↔
  ∃ x ys, py_int p = Ok x ∧ ints_of pas ys ∧ is_min_distance x ys d.
Proof.
  unfold compute_min_distance_mendelian. rewrite bind_Ok. split.
  - intros (ds & Hds & Hmin).
    assert ((∃ x, py_int p = Ok x) ∨ (∃ e, py_int p = Raise e)) as [[x Hp]|[e Hp]]
      by (destruct (py_int p); eauto).
    + apply (distances_Ok p x) in Hds as (ys & Hys & ->); [|done].
      exists x, ys. split_and!; [done..|]. by apply py_min_Ok.
    + apply mapM_Ok in Hds. destruct Hds as [|pa d' pas' ds' Hd _].
      * done.
      * by rewrite Hp in Hd.
  - intros (x & ys & Hp & Hys & Hmin).
    exists (map (λ y, Z.abs (x - y)) ys). split.
    + apply (distances_Ok p x); eauto.
    + by apply py_min_Ok.
Qed.

(** It returns whenever every value reads as an integer and there is at
    least one parental allele. *)
Lemma compute_min_distance_mendelian_total
    (p : pyval) (pas : list pyval) (x : Z) (ys : list Z) :
  py_int p = Ok x → ints_of pas ys → ys ≠ [] →
  ∃ d, compute_min_distance_mendelian p pas = Ok d ∧ is_min_distance x ys d.
Proof.
  intros Hp Hys Hne.
  destruct (py_min_nonempty (map (λ y, Z.abs (x - y)) ys)) as [d Hd].
  { by destruct ys. }
  exists d. split; [|by apply py_min_Ok].
  apply compute_min_distance_mendelian_Ok. exists x, ys.
  split_and!; [done..|]. by apply py_min_Ok.
Qed.

Lemma compute_min_distance_mendelian_ci_Ok (ci : Interval) (cis : list Interval) (d : Z) :
  compute_min_distance_mendelian_ci ci cis = Ok d ↔
  is_minimum (map (λ c, Z.abs (Interval_distance_to ci c)) cis) d.
Proof. apply py_min_Ok. Qed.

Lemma compute_min_distance_mendelian_ci_total (ci : Interval) (cis : list Interval) :
  cis ≠ [] → ∃ d, compute_min_distance_mendelian_ci ci cis = Ok d.
Proof. intros Hne. apply py_min_nonempty. by destruct cis. Qed.

(** For intervals with [begin < end] that do not overlap, [distance_to] is
    the size of the gap between them. *)
Lemma Interval_distance_to_gap (a b : Interval) :
  i_begin a < i_end a → i_begin b < i_end b → Interval_overlaps a b = false →
  (i_end a ≤ i_begin b ∧ Interval_distance_to a b = i_begin b - i_end a) ∨
  (i_end b ≤ i_begin a ∧ Interval_distance_to a b = i_begin a - i_end b).
Proof.
  unfold Interval_distance_to, Interval_overlaps. intros Ha Hb Hov. rewrite Hov.
  apply andb_false_iff in Hov.
  destruct (Z.ltb_spec (i_begin a) (i_begin b)); [left | right];
    (split; [|done]); destruct Hov as [?%Z.ltb_ge | ?%Z.ltb_ge]; lia.
Qed.

(** Two proper intervals that [intervals_overlap] accepts are at distance 0. *)
Lemma proper_overlap_distance (a b : Interval) :
  proper a → proper b → intervals_overlap a b = true → Interval_distance_to a b = 0.
Proof.
  unfold proper, intervals_overlap. intros Ha Hb Hov.
  apply negb_true_iff, orb_false_iff in Hov as [?%Z.ltb_ge ?%Z.ltb_ge].
  destruct (Interval_overlaps a b) eqn:Hlib.
  - unfold Interval_distance_to. by rewrite Hlib.
  - destruct (Interval_distance_to_gap a b Ha Hb Hlib) as [[? ->]|[? ->]]; lia.
Qed.




(** ** Interval overlap *)

(** C5. [intervals_overlap] is true exactly when neither interval ends
    before the other begins; it is symmetric; the intervals are closed, so
    two intervals with [begin <= end] overlap exactly when they share a point,
    and [Interval(10, 20)] overlaps [Interval(20, 30)]. *)
Theorem intervals_overlap_closed :
  (∀ a b : Interval,
     intervals_overlap a b = true ↔ ¬ (i_end a < i_begin b ∨ i_end b < i_begin a))
  ∧ (∀ a b : Interval, intervals_overlap a b = intervals_overlap b a)
  ∧ (∀ a b : Interval, i_begin a ≤ i_end a → i_begin b ≤ i_end b →
       intervals_overlap a b = true ↔
       ∃ x, (i_begin a ≤ x ≤ i_end a) ∧ (i_begin b ≤ x ≤ i_end b))
  ∧ intervals_overlap (mkInterval 10 20 None) (mkInterval 20 30 None) = true.
Proof.
  assert (Hiff : ∀ a b : Interval,
    intervals_overlap a b = true ↔ ¬ (i_end a < i_begin b ∨ i_end b < i_begin a)).
  { intros a b. unfold intervals_overlap.
    rewrite negb_true_iff, orb_false_iff, !Z.ltb_ge. lia. }
  split_and!; [exact Hiff | | | reflexivity].
  - intros a b. unfold intervals_overlap. by rewrite orb_comm.
  - intros a b Ha Hb. rewrite Hiff. split.
    + intros Hno. exists (Z.max (i_begin a) (i_begin b)). lia.
    + intros (x & ? & ?). lia.
Qed.

(** The closed-interval reading of [intervals_overlap_closed] at the
    touching intervals [10-20] and [20-30], which share the point 20. *)
Lemma intervals_overlap_closed_witness :
  intervals_overlap (mkInterval 10 20 None) (mkInterval 20 30 None) = true ↔
  ∃ x, (10 ≤ x ≤ 20) ∧ (20 ≤ x ≤ 30).
Proof.
  apply (proj1 (proj2 (proj2 intervals_overlap_closed))
           (mkInterval 10 20 None) (mkInterval 20 30 None)); simpl; lia.
Defined.

(** ** Duplicate keys *)

Lemma py_sum_bool_from (flags : list bool) (acc : Z) :
  foldl (λ acc (b : bool), if b then acc + 1 else acc) acc flags
  = acc + py_sum_bool flags.
Proof.
  unfold py_sum_bool. revert acc.
  induction flags as [|b flags IH]; intros acc; simpl; [lia|].
  destruct b; [|apply IH]. rewrite IH, (IH (0 + 1)). lia.
Qed.

Lemma py_sum_bool_cons (b : bool) (flags : list bool) :
  py_sum_bool (b :: flags) = (if b then 1 else 0) + py_sum_bool flags.
Proof.
  unfold py_sum_bool at 1. simpl. destruct b; [|apply (py_sum_bool_from _ 0)].
  apply py_sum_bool_from.
Qed.

Lemma py_sum_bool_nonneg (flags : list bool) : 0 ≤ py_sum_bool flags.
Proof.
  induction flags as [|b flags IH]; [done|].
  rewrite py_sum_bool_cons. destruct b; lia.
Qed.

(** No flag of [duplicated] is set exactly when the keys are distinct and
    none was seen before. *)
Lemma duplicated_none `{EqDecision K} (seen index : list K) :
  py_sum_bool (duplicated seen index) = 0 ↔
  NoDup index ∧ ∀ k, k ∈ index → k ∉ seen.
Proof.
  revert seen. induction index as [|k index IH]; intros seen; simpl.
  - split; [|done]. intros _. split; [constructor|]. by intros ? ?%elem_of_nil.
  - rewrite py_sum_bool_cons. pose proof (py_sum_bool_nonneg (duplicated (k :: seen) index)).
    rewrite NoDup_cons. case_bool_decide as Hk.
    + split; [lia|]. intros [_ Hseen]. destruct (Hseen k); [left | done].
    + rewrite Z.add_0_l, IH. split.
      * intros [Hnd Hseen]. split_and!; [|done|].
        -- intros Hin. apply (Hseen k Hin). left.
        -- intros k' [->|Hin]%elem_of_cons; [done|].
           intros Hs. apply (Hseen k' Hin). by right.
      * intros [[Hnin Hnd] Hseen]. split; [done|].
        intros k' Hin [->|Hs]%elem_of_cons; [done|].
        apply (Hseen k'); [by right | done].
Qed.

Lemma check_for_duplicate_keys_Ok `{EqDecision K} (index : list K) :
  check_for_duplicate_keys index = Ok tt ↔ NoDup index.
Proof.
  unfold check_for_duplicate_keys.
  pose proof (py_sum_bool_nonneg (duplicated [] index)) as Hnn.
  pose proof (duplicated_none [] index) as Hnone.
  destruct (Z.ltb_spec 0 (py_sum_bool (duplicated [] index))) as [Hpos|Hle].
  - split; [done|]. intros Hnd. assert (py_sum_bool (duplicated [] index) = 0); [|lia].
    apply Hnone. split; [done|]. by intros ? _ ?%elem_of_nil.
  - split; [|done]. intros _. apply Hnone. lia.
Qed.

Lemma check_for_duplicate_keys_Raise `{EqDecision K} (index : list K) (e : exn) :
  check_for_duplicate_keys index = Raise e ↔ e = ValueError ∧ ¬ NoDup index.
Proof.
  rewrite <- check_for_duplicate_keys_Ok. unfold check_for_duplicate_keys.
  destruct (0 <? _); split; try done.
  - by intros [= <-].
  - by intros [-> _].
  - by intros [_ []].
Qed.

Lemma drop_duplicates_from_elem `{EqDecision A} (seen rows : list A) (x : A) :
  x ∈ drop_duplicates_from seen rows ↔ x ∈ rows ∧ x ∉ seen.
Proof.
  revert seen. induction rows as [|r rows IH]; intros seen; simpl.
  - split; [by intros ?%elem_of_nil | by intros [?%elem_of_nil _]].
  - case_bool_decide as Hr.
    + rewrite IH, elem_of_cons. split.
      * intros [? ?]. split; [by right | done].
      * intros [[->|?] ?]; [done | by split].
    + rewrite !elem_of_cons, IH, elem_of_cons. split.
      * intros [->|[? ?]]; [by split; [left|] | split; [by right | tauto]].
      * intros [[->|?] ?]; [by left|].
        destruct (decide (x = r)) as [->|]; [by left | right; tauto].
Qed.

Lemma drop_duplicates_from_NoDup `{EqDecision A} (seen rows : list A) :
  NoDup (drop_duplicates_from seen rows).
Proof.
  revert seen. induction rows as [|r rows IH]; intros seen; simpl; [constructor|].
  case_bool_decide; [apply IH|]. constructor; [|apply IH].
  rewrite drop_duplicates_from_elem, elem_of_cons. intros [_ []]. by left.
Qed.

Lemma drop_duplicates_elem `{EqDecision A} (rows : list A) (x : A) :
  x ∈ drop_duplicates rows ↔ x ∈ rows.
Proof.
  unfold drop_duplicates. rewrite drop_duplicates_from_elem. split; [tauto|].
  intros ?. split; [done | by intros ?%elem_of_nil].
Qed.

Lemma drop_duplicates_NoDup `{EqDecision A} (rows : list A) : NoDup (drop_duplicates rows).
Proof. apply drop_duplicates_from_NoDup. Qed.

(** Among distinct rows, a key is repeated exactly when two different rows
    carry it. *)
Lemma repeated_key `{EqDecision A} `{EqDecision K} (f : A → K) (l : list A) :
  NoDup l →
  ¬ NoDup (f <$> l) ↔ ∃ x y, x ∈ l ∧ y ∈ l ∧ x ≠ y ∧ f x = f y.
Proof.
  induction l as [|a l IH]; intros Hnd.
  - split; [intros []; constructor | by intros (? & ? & ?%elem_of_nil & _)].
  - apply NoDup_cons in Hnd as [Ha Hnd]. rewrite fmap_cons, NoDup_cons. split.
    + intros Hno. destruct (decide (f a ∈ f <$> l)) as [Hin|Hnin].
      * apply list_elem_of_fmap in Hin as (y & Hy & Hin).
        exists a, y. split_and!; [left | by right | by intros -> | done].
      * destruct (IH Hnd) as [Hex _].
        destruct Hex as (x & y & ? & ? & ? & ?); [tauto|].
        exists x, y. split_and!; [by right | by right | done..].
    + intros (x & y & Hx & Hy & Hne & Heq) [Hnin Hnd'].
      apply elem_of_cons in Hx as [->|Hx]; apply elem_of_cons in Hy as [->|Hy].
      * done.
      * apply Hnin, list_elem_of_fmap. eauto.
      * apply Hnin, list_elem_of_fmap. eauto.
      * apply (IH Hnd); [|done]. eauto 10.
Qed.

Lemma parse_combined_str_calls_tsv_path_Raise (df : list Call) (e : exn) :
  parse_combined_str_calls_tsv_path df = Raise e ↔
  e = ValueError ∧ ¬ NoDup (call_key <$> df).
Proof.
  unfold parse_combined_str_calls_tsv_path. rewrite bind_Raise.
  rewrite check_for_duplicate_keys_Raise. split; [|by left].
  by intros [?|(? & _ & ?)].
Qed.

Lemma parse_combined_str_calls_tsv_path_Ok (df : list Call) :
  NoDup (call_key <$> df) → parse_combined_str_calls_tsv_path df = Ok df.
Proof.
  intros Hnd. unfold parse_combined_str_calls_tsv_path.
  apply bind_Ok. exists tt. split; [|done].
  by apply check_for_duplicate_keys_Ok.
Qed.

Lemma parse_fam_file_Raise (fam : list FamRow) (e : exn) :
  parse_fam_file fam = Raise e ↔
  e = ValueError ∧ ¬ NoDup (individual_id <$> drop_duplicates (pedigree_of <$> fam)).
Proof.
  unfold parse_fam_file. rewrite bind_Raise.
  rewrite check_for_duplicate_keys_Raise. split; [|by left].
  by intros [?|(? & _ & ?)].
Qed.

Lemma parse_fam_file_Ok (fam : list FamRow) :
  NoDup (individual_id <$> drop_duplicates (pedigree_of <$> fam)) →
  parse_fam_file fam = Ok (drop_duplicates (pedigree_of <$> fam)).
Proof.
  intros Hnd. unfold parse_fam_file.
  apply bind_Ok. exists tt. split; [|done].
  by apply check_for_duplicate_keys_Ok.
Qed.

(** C8, the claim as written fails on the pedigree: two rows for the same
    individual and the same parents that differ in the phenotype column are
    different rows of the six-column table, so a repeated [individual_id]
    remains after exact-row deduplication; [parse_fam_file] keeps three
    columns before it deduplicates, merges the two rows and returns. *)
Lemma parse_fam_file_projects_before_deduplicating :
  let fam :=
    [mkFamRow (Str "F1") (Str "kid") (Str "dad") (Str "mom") (Str "1") (Str "1");
     mkFamRow (Str "F1") (Str "kid") (Str "dad") (Str "mom") (Str "1") (Str "2")] in
  fam_rows_have_duplicate_ids fam
  ∧ parse_fam_file fam = Ok [mkPedigree (Str "kid") (Str "dad") (Str "mom")].
Proof.
  split; [|reflexivity].
  unfold fam_rows_have_duplicate_ids. intros Hnd.
  assert (Hdd : fam_individual_id <$> drop_duplicates
            [mkFamRow (Str "F1") (Str "kid") (Str "dad") (Str "mom") (Str "1") (Str "1");
             mkFamRow (Str "F1") (Str "kid") (Str "dad") (Str "mom") (Str "1") (Str "2")]
          = [Str "kid"; Str "kid"]) by reflexivity.
  rewrite Hdd in Hnd. apply NoDup_cons in Hnd as [Hnin _]. apply Hnin. left.
Qed.

(** C8, amended. Parsing the calls table raises, and then [ValueError],
    exactly when two rows have the same (Filename, SampleId, LocusId,
    VariantId), and returns the table otherwise. Parsing the pedigree raises,
    and then [ValueError], exactly when a repeated [individual_id] remains
    after the rows, reduced to (individual_id, father_id, mother_id), have been
    deduplicated, that is when two rows name the same individual with a
    different father or mother; otherwise it returns the deduplicated
    three-column table. *)
Theorem duplicate_keys_are_fatal :
  (∀ df : list Call,
     (∀ e, parse_combined_str_calls_tsv_path df = Raise e ↔
           e = ValueError ∧ ¬ NoDup (call_key <$> df))
     ∧ (NoDup (call_key <$> df) → parse_combined_str_calls_tsv_path df = Ok df))
  ∧ (∀ fam : list FamRow,
       let ped := drop_duplicates (pedigree_of <$> fam) in
       (∀ e, parse_fam_file fam = Raise e ↔
             e = ValueError ∧ ¬ NoDup (individual_id <$> ped))
       ∧ (NoDup (individual_id <$> ped) → parse_fam_file fam = Ok ped)
       ∧ (¬ NoDup (individual_id <$> ped) ↔
          ∃ r1 r2, r1 ∈ fam ∧ r2 ∈ fam
                   ∧ fam_individual_id r1 = fam_individual_id r2
                   ∧ (fam_father_id r1 ≠ fam_father_id r2
                      ∨ fam_mother_id r1 ≠ fam_mother_id r2))).
Proof.
  split.
  - intros df. split.
    + intros e. apply parse_combined_str_calls_tsv_path_Raise.
    + apply parse_combined_str_calls_tsv_path_Ok.
  - intros fam ped. split_and!.
    + intros e. apply parse_fam_file_Raise.
    + apply parse_fam_file_Ok.
    + unfold ped. rewrite repeated_key by apply drop_duplicates_NoDup. split.
      * intros (x & y & Hx & Hy & Hne & Heq).
        apply drop_duplicates_elem, list_elem_of_fmap in Hx as (r1 & -> & Hr1).
        apply drop_duplicates_elem, list_elem_of_fmap in Hy as (r2 & -> & Hr2).
        exists r1, r2. split_and!; [done..|].
        destruct (decide (fam_father_id r1 = fam_father_id r2)) as [Hf|]; [|by left].
        right. intros Hm. apply Hne. unfold pedigree_of.
        simpl in Heq. by rewrite Heq, Hf, Hm.
      * intros (r1 & r2 & Hr1 & Hr2 & Hid & Hdiff).
        exists (pedigree_of r1), (pedigree_of r2). split_and!.
        -- apply drop_duplicates_elem, list_elem_of_fmap. eauto.
        -- apply drop_duplicates_elem, list_elem_of_fmap. eauto.
        -- intros [= _ Hf Hm]. tauto.
        -- done.
Qed.

(** The two directions of [duplicate_keys_are_fatal] on a calls table with
    distinct keys: it is returned. *)
Lemma duplicate_keys_are_fatal_witness :
  let row (sample : string) :=
    mkCall sample "HTT" "HTT" (sample +:+ ".json") (Str "17/20") "17-17/20-21"
           "chr4:3074876-3074933" "CAG" "male" "20" "30.5" None in
  parse_combined_str_calls_tsv_path [row "kid"; row "dad"] = Ok [row "kid"; row "dad"].
Proof.
  intros row.
  apply (proj2 (proj1 duplicate_keys_are_fatal [row "kid"; row "dad"])).
  apply (bool_decide_unpack _). vm_compute. reflexivity.
Defined.

(** ** Trio grouping *)

Lemma cache_step_lookup (all_rows : gmap row_key Row) (row : Row) (k : row_key) :
  Genotype row ≠ PyNone →
  (<[(Filename row, LocusId row, VariantId row) := row]>
     (<[(SampleId row, LocusId row, VariantId row) := row]> all_rows)) !! k
  = if decide (k = (Filename row, LocusId row, VariantId row)
               ∨ k = (SampleId row, LocusId row, VariantId row))
    then Some row else all_rows !! k.
Proof.
  intros _. rewrite !lookup_insert. repeat case_decide; intuition congruence.
Qed.

Lemma cache_from_Some (df : list Row) (all_rows : gmap row_key Row) (k : row_key) (r : Row) :
  foldl (λ all_rows (row : Row),
           match Genotype row with
           | PyNone => all_rows
           | _ => <[(Filename row, LocusId row, VariantId row) := row]>
                    (<[(SampleId row, LocusId row, VariantId row) := row]> all_rows)
           end) all_rows df !! k = Some r →
  all_rows !! k = Some r
  ∨ (r ∈ df ∧ Genotype r ≠ PyNone
     ∧ (k = (SampleId r, LocusId r, VariantId r)
        ∨ k = (Filename r, LocusId r, VariantId r))).
Proof.
  revert all_rows. induction df as [|row df IH]; intros all_rows; simpl; [by left|].
  intros [Hk|(Hin & Hg & Hkey)]%IH.
  - destruct (Genotype row) eqn:Hrow; [| |by left].
    all: rewrite cache_step_lookup in Hk by congruence.
    all: case_decide as Hd; [|by left].
    all: injection Hk as <-; right; split_and!; [left | congruence | tauto].
  - right. split_and!; [by right | done..].
Qed.

Lemma cache_from_None (df : list Row) (all_rows : gmap row_key Row) (k : row_key) :
  foldl (λ all_rows (row : Row),
           match Genotype row with
           | PyNone => all_rows
           | _ => <[(Filename row, LocusId row, VariantId row) := row]>
                    (<[(SampleId row, LocusId row, VariantId row) := row]> all_rows)
           end) all_rows df !! k = None ↔
  all_rows !! k = None
  ∧ ∀ r : Row, r ∈ df → Genotype r ≠ PyNone →
         k ≠ (SampleId r, LocusId r, VariantId r)
         ∧ k ≠ (Filename r, LocusId r, VariantId r).
Proof.
  revert all_rows. induction df as [|row df IH]; intros all_rows; simpl.
  - split; [|tauto]. intros ?. split; [done|]. by intros ? ?%elem_of_nil.
  - rewrite IH. clear IH. split.
    + intros [Hk Hdf]. destruct (Genotype row) eqn:Hrow.
      1,2: rewrite cache_step_lookup in Hk by congruence.
      1,2: case_decide as Hd; [done|]; split; [done|].
      1,2: intros r [->|Hr]%elem_of_cons Hg; [tauto | by apply Hdf].
      split; [done|]. intros r [->|Hr]%elem_of_cons Hg; [done | by apply Hdf].
    + intros [Hk Hdf]. split; [|intros r Hr; apply Hdf; by right].
      destruct (Genotype row) eqn:Hrow; [| |done].
      all: rewrite cache_step_lookup by congruence.
      all: case_decide as Hd; [|done].
      all: destruct (Hdf row) as [? ?]; [left | congruence | tauto].
Qed.

(** A hit in the cache is a genotype record for the identifier looked up. *)
Lemma get_parent_Some (df : list Row) (parent_id : cell) (row parent : Row) :
  get_parent (cache_rows df) parent_id row = Some parent →
  parent ∈ df ∧ is_record_for parent_id row parent.
Proof.
  unfold get_parent, cache_rows, is_record_for.
  destruct parent_id as [s| |]; [|done..].
  intros [Hk|(Hin & Hg & Hkey)]%cache_from_Some; [by rewrite lookup_empty in Hk|].
  split; [done|]. split; [done|].
  destruct Hkey as [[= -> -> ->]|[= -> -> ->]]; auto.
Qed.

(** A miss means that the table has no genotype record for the identifier. *)
Lemma get_parent_None (df : list Row) (parent_id : cell) (row : Row) :
  get_parent (cache_rows df) parent_id row = None ↔
  ∀ parent, parent ∈ df → ¬ is_record_for parent_id row parent.
Proof.
  unfold get_parent, cache_rows, is_record_for.
  destruct parent_id as [s| |].
  - rewrite cache_from_None. split.
    + intros [_ Hdf] parent Hin (Hg & Hl & Hv & Hid).
      destruct (Hdf parent Hin Hg) as [Hs Hf].
      destruct Hid as [[= ->]|[= ->]]; [apply Hs | apply Hf]; by rewrite Hl, Hv.
    + intros Hno. split; [apply lookup_empty|].
      intros r Hr Hg. split; intros [= -> Hl Hv]; apply (Hno r Hr); auto.
  - split; [|done]. intros _ parent _ (_ & _ & _ & [?|?]); done.
  - split; [|done]. intros _ parent _ (_ & _ & _ & [?|?]); done.
Qed.

Lemma trio_of_Some (all_rows : gmap row_key Row) (row : Row) (trio : Trio) :
  trio_of all_rows row = Some trio ↔
  ∃ f m, trio = (row, f, m)
         ∧ get_parent all_rows (father_id row) row = Some f
         ∧ get_parent all_rows (mother_id row) row = Some m.
Proof.
  unfold trio_of.
  destruct (get_parent all_rows (father_id row) row) as [f|],
           (get_parent all_rows (mother_id row) row) as [m|]; split;
    try done; try by intros (? & ? & _ & ? & ?).
  - intros [= <-]. eauto.
  - by intros (? & ? & -> & [= <-] & [= <-]).
Qed.

Lemma trio_of_is_Some (all_rows : gmap row_key Row) (row : Row) :
  is_Some (trio_of all_rows row) ↔ parents_found all_rows row.
Proof.
  unfold trio_of, parents_found.
  destruct (get_parent all_rows (father_id row) row),
           (get_parent all_rows (mother_id row) row); split;
    try (intros [? ?]; done); try (intros [[? ?] [? ?]]; done); eauto.
Qed.

Lemma group_step_trio_of (all_rows : gmap row_key Row)
    (acc : list Trio * list Row) (row : Row) :
  group_step all_rows acc row
  = match trio_of all_rows row with
    | Some trio => (acc.1 ++ [trio], acc.2)
    | None => (acc.1, acc.2 ++ [row])
    end.
Proof.
  destruct acc as [trios others]. unfold group_step, trio_of.
  by destruct (get_parent all_rows (father_id row) row),
              (get_parent all_rows (mother_id row) row).
Qed.

(** The second loop, from any pair of lists built so far. *)
Lemma group_from (all_rows : gmap row_key Row) (rows : list Row)
    (acc : list Trio * list Row) :
  foldl (group_step all_rows) acc rows
  = (acc.1 ++ omap (trio_of all_rows) rows,
     acc.2 ++ filter (λ row, ¬ parents_found all_rows row) rows).
Proof.
  revert acc. induction rows as [|row rows IH]; intros acc.
  - simpl. rewrite !app_nil_r. by destruct acc.
  - cbn [foldl]. rewrite IH, group_step_trio_of, filter_cons. clear IH.
    pose proof (trio_of_is_Some all_rows row) as Hsome.
    cbn [omap list_omap]. destruct (trio_of all_rows row) as [trio|]; simpl.
    + rewrite decide_False by (intros Hn; apply Hn, Hsome; eauto).
      by rewrite <- app_assoc.
    + rewrite decide_True by (intros Hpf; apply Hsome in Hpf as [? ?]; done).
      by rewrite <- app_assoc.
Qed.

Lemma group_rows_by_trio_eq (df : list Row) :
  group_rows_by_trio df
  = (omap (trio_of (cache_rows df)) (filter is_candidate df),
     filter (λ row, ¬ parents_found (cache_rows df) row) (filter is_candidate df)).
Proof. unfold group_rows_by_trio. by rewrite group_from. Qed.

Lemma proband_omap_trio_of (all_rows : gmap row_key Row) (rows : list Row) :
  proband <$> omap (trio_of all_rows) rows = filter (parents_found all_rows) rows.
Proof.
  induction rows as [|row rows IH]; [done|]. rewrite filter_cons.
  cbn [omap list_omap].
  pose proof (trio_of_is_Some all_rows row) as Hsome.
  destruct (trio_of all_rows row) as [trio|] eqn:Htrio.
  - rewrite decide_True by (apply Hsome; eauto).
    apply trio_of_Some in Htrio as (f & m & -> & _).
    rewrite fmap_cons. f_equal. apply IH.
  - rewrite decide_False by (intros Hpf; apply Hsome in Hpf as [? ?]; done).
    apply IH.
Qed.

(** C4, the claim as written fails: the record of a parent has no parent
    identifiers of its own, so the filter of source line 148 removes it before
    the loop; in a table that holds one complete trio the father's record is
    neither the proband of a trio nor among the non-trio rows. *)
Lemma parent_records_are_in_neither_list :
  let kid := example_row "kid" "17/20" "17-17/20-21" (Str "dad") (Str "mom") in
  let dad := example_row "dad" "17/17" "17-17/17-17" NaN NaN in
  let mom := example_row "mom" "20/22" "20-20/22-25" NaN NaN in
  let df := [kid; dad; mom] in
  group_rows_by_trio df = ([(kid, dad, mom)], [])
  ∧ dad ∈ df
  ∧ (dad ∉ proband <$> fst (group_rows_by_trio df))
  ∧ (dad ∉ snd (group_rows_by_trio df)).
Proof.
  intros kid dad mom df.
  assert (Hout : group_rows_by_trio df = ([(kid, dad, mom)], []))
    by (vm_compute; reflexivity).
  rewrite Hout. split_and!; [done | right; left | | by intros ?%elem_of_nil].
  simpl. intros [Heq|Hin]%elem_of_cons; [discriminate Heq | by apply elem_of_nil in Hin].
Qed.

(** The cache answers for a parent exactly when the table holds a genotype
    record for its identifier at the locus and variant of the row. *)
Lemma get_parent_is_Some (df : list Row) (parent_id : cell) (row : Row) :
  is_Some (get_parent (cache_rows df) parent_id row) ↔ has_record df parent_id row.
Proof.
  split.
  - intros [parent Hp]. exists parent. by apply get_parent_Some.
  - intros (parent & Hin & Hrec).
    destruct (get_parent (cache_rows df) parent_id row) as [r|] eqn:Hget; [by eexists|].
    exfalso. by apply (proj1 (get_parent_None df parent_id row) Hget parent).
Qed.

Lemma parents_found_records (df : list Row) (row : Row) :
  parents_found (cache_rows df) row
  ↔ has_record df (father_id row) row ∧ has_record df (mother_id row) row.
Proof. unfold parents_found. by rewrite !get_parent_is_Some. Qed.

(** C4, amended. Among the records that have both a father and a mother
    identifier, trio grouping emits a record as the proband of a trio exactly
    when the table holds a genotype record for each of its parents at its
    locus and variant, and places it among the non-trio rows otherwise, keeping
    the table order; the parents of an emitted trio are genotype records of the
    table for the two identifiers. A candidate whose father identifier has no
    genotype record at its locus is therefore a non-trio row and not a
    proband. *)
Theorem trio_grouping_splits_candidates (df : list Row) :
  let all_rows := cache_rows df in
  let trio_rows := fst (group_rows_by_trio df) in
  let other_rows := snd (group_rows_by_trio df) in
  proband <$> trio_rows = filter (parents_found all_rows) (filter is_candidate df)
  ∧ other_rows = filter (λ row, ¬ parents_found all_rows row) (filter is_candidate df)
  ∧ (∀ row : Row, row ∈ df → is_candidate row →
       (row ∈ (proband <$> trio_rows)
        ↔ has_record df (father_id row) row ∧ has_record df (mother_id row) row)
       ∧ (row ∈ other_rows
          ↔ ¬ (has_record df (father_id row) row ∧ has_record df (mother_id row) row)))
  ∧ (∀ row f m, (row, f, m) ∈ trio_rows →
       row ∈ df ∧ is_candidate row ∧ f ∈ df ∧ m ∈ df
       ∧ is_record_for (father_id row) row f
       ∧ is_record_for (mother_id row) row m)
  ∧ (∀ row : Row, row ∈ df → is_candidate row →
       (∀ parent, parent ∈ df → ¬ is_record_for (father_id row) row parent) →
       row ∈ other_rows ∧ row ∉ (proband <$> trio_rows))
  ∧ (∀ row : Row, ¬ is_candidate row →
       (row ∉ other_rows) ∧ (row ∉ proband <$> trio_rows))
  ∧ (∀ row : Row,
       parents_found all_rows row
       ↔ has_record df (father_id row) row ∧ has_record df (mother_id row) row).
Proof.
  intros all_rows trio_rows other_rows.
  assert (Hp : proband <$> trio_rows
               = filter (parents_found all_rows) (filter is_candidate df)).
  { unfold trio_rows. rewrite group_rows_by_trio_eq. simpl.
    apply proband_omap_trio_of. }
  assert (Ho : other_rows
               = filter (λ row, ¬ parents_found all_rows row) (filter is_candidate df)).
  { unfold other_rows. by rewrite group_rows_by_trio_eq. }
  assert (Hsplit : ∀ row : Row, row ∈ df → is_candidate row →
            (row ∈ (proband <$> trio_rows) ↔ parents_found all_rows row)
            ∧ (row ∈ other_rows ↔ ¬ parents_found all_rows row)).
  { intros row Hin Hc. rewrite Hp, Ho, !list_elem_of_filter. tauto. }
  split_and!; [done | done | | | | |].
  - intros row Hin Hc. destruct (Hsplit row Hin Hc) as [Hyes Hnot].
    unfold all_rows in Hyes, Hnot. rewrite parents_found_records in Hyes, Hnot.
    done.
  - intros row f m Hin. unfold trio_rows in Hin.
    rewrite group_rows_by_trio_eq in Hin. simpl in Hin.
    apply list_elem_of_omap in Hin as (row' & Hrow' & Htrio).
    apply trio_of_Some in Htrio as (f' & m' & [= -> -> ->] & Hf & Hm).
    apply list_elem_of_filter in Hrow' as [Hc Hin].
    apply get_parent_Some in Hf as [? ?]. apply get_parent_Some in Hm as [? ?].
    done.
  - intros row Hin Hc Hno. destruct (Hsplit row Hin Hc) as [Hyes Hnot].
    assert (¬ parents_found all_rows row) as Hnf.
    { intros [[f Hf] _]. apply get_parent_Some in Hf as [Hfin Hrec].
      by apply (Hno f). }
    split; [by apply Hnot | by rewrite Hyes].
  - intros row Hc. rewrite Hp, Ho, !list_elem_of_filter. tauto.
  - intros row. apply parents_found_records.
Qed.

(** [trio_grouping_splits_candidates] on two tables: in the first the
    child has both parent identifiers but only the mother has a genotype
    record, so the child is a non-trio row; in the second the father has a
    record too, so the child is the proband of a trio. *)
Lemma trio_grouping_splits_candidates_witness :
  let row (sample : string) (father mother : cell) :=
    mkRow (mkCall sample "HTT" "HTT" (sample +:+ ".json") (Str "17/20")
                  "17-17/20-21" "chr4:3074876-3074933" "CAG" "male" "20" "30.5" None)
          father mother in
  let kid := row "kid" (Str "dad") (Str "mom") in
  let df := [kid; row "mom" NaN NaN] in
  let df' := [kid; row "dad" NaN NaN; row "mom" NaN NaN] in
  (kid ∈ snd (group_rows_by_trio df)
   ∧ kid ∉ (proband <$> fst (group_rows_by_trio df)))
  ∧ kid ∈ (proband <$> fst (group_rows_by_trio df')).
Proof.
  intros row kid df df'. split.
  - apply (proj1 (proj2 (proj2 (proj2 (proj2 (trio_grouping_splits_candidates df)))))).
    + left.
    + reflexivity.
    + intros parent Hin (_ & _ & _ & Hid). revert Hid.
      apply elem_of_cons in Hin as [->|Hin]; [|apply elem_of_cons in Hin as [->|Hin]].
      * intros [[=]|[=]].
      * intros [[=]|[=]].
      * by apply elem_of_nil in Hin.
  - apply (proj1 (proj2 (proj2 (trio_grouping_splits_candidates df'))) kid).
    + left.
    + reflexivity.
    + split.
      * exists (row "dad" NaN NaN). split; [right; left|].
        split_and!; [discriminate | reflexivity | reflexivity | by left].
      * exists (row "mom" NaN NaN). split; [right; right; left|].
        split_and!; [discriminate | reflexivity | reflexivity | by left].
Defined.

(** ** Exact and confidence-interval consistency *)

Lemma py_in_true (x : string) (l : list string) : py_in x l = true ↔ x ∈ l.
Proof. unfold py_in. apply bool_decide_eq_true. Qed.

Lemma alleles_read_elem (alleles : list string) (zs : list Z) (a : string) (z : Z) :
  alleles_read alleles zs → a ∈ alleles → int_of_str a = Some z → z ∈ zs.
Proof.
  unfold alleles_read, ints_of. revert zs.
  induction alleles as [|b alleles IH]; intros zs Hread Hin Ha.
  - by apply elem_of_nil in Hin.
  - rewrite fmap_cons in Hread.
    inversion Hread as [|? y ? ys Hy Hys]; subst.
    apply elem_of_cons in Hin as [->|Hin].
    + simpl in Hy. rewrite Ha in Hy. injection Hy as <-. left.
    + right. by apply IH.
Qed.

Lemma alleles_read_nonempty (alleles : list string) (zs : list Z) :
  alleles_read alleles zs → alleles ≠ [] → zs ≠ [].
Proof.
  intros Hread Hne ->. apply ints_of_length in Hread.
  rewrite length_fmap in Hread. by destruct alleles.
Qed.

Lemma py_int_VStr (s : string) (z : Z) : py_int (VStr s) = Ok z ↔ int_of_str s = Some z.
Proof. simpl. destruct (int_of_str s); split; congruence. Qed.

(** An allele that occurs verbatim among the parental alleles is at
    distance 0 from them. *)
Lemma compute_min_distance_mendelian_member (p : string) (alleles : list string) (d : Z) :
  compute_min_distance_mendelian (VStr p) (VStr <$> alleles) = Ok d →
  p ∈ alleles → d = 0.
Proof.
  intros (x & ys & Hx & Hys & Hmin)%compute_min_distance_mendelian_Ok Hin.
  apply (is_min_distance_zero x ys); [done|].
  apply (alleles_read_elem alleles ys p); [done..|]. by apply py_int_VStr.
Qed.

Lemma compute_min_distance_mendelian_alleles
    (p : string) (alleles : list string) (z : Z) (zs : list Z) :
  int_of_str p = Some z → alleles_read alleles zs → alleles ≠ [] →
  ∃ d, compute_min_distance_mendelian (VStr p) (VStr <$> alleles) = Ok d
       ∧ is_min_distance z zs d.
Proof.
  intros Hp Hread Hne. apply compute_min_distance_mendelian_total; [|done|].
  - by apply py_int_VStr.
  - by eapply alleles_read_nonempty.
Qed.

Lemma ints_of_functional (l : list pyval) (ys zs : list Z) :
  ints_of l ys → ints_of l zs → ys = zs.
Proof.
  unfold ints_of. revert ys zs. induction l as [|v l IH]; intros ys zs Hys Hzs.
  - by inversion Hzs; inversion Hys.
  - inversion Hzs as [|? z' ? zs' Hz' Hzs']; inversion Hys as [|? y' ? ys' Hy' Hys']; subst.
    rewrite Hz' in Hy'. injection Hy' as <-. f_equal. by apply IH.
Qed.

Lemma compute_min_distance_mendelian_read
    (p : string) (alleles : list string) (z : Z) (zs : list Z) (d : Z) :
  int_of_str p = Some z → alleles_read alleles zs →
  compute_min_distance_mendelian (VStr p) (VStr <$> alleles) = Ok d →
  is_min_distance z zs d.
Proof.
  intros Hp Hread (x & ys & Hx & Hys & Hmin)%compute_min_distance_mendelian_Ok.
  apply py_int_VStr in Hx. rewrite Hp in Hx. injection Hx as <-.
  by rewrite <- (ints_of_functional _ _ _ Hys Hread).
Qed.

Lemma mapM_pure {A B} (g : A → B) (l : list A) :
  mapM (λ x, Ok (g x)) l = Ok (map g l).
Proof. apply mapM_Ok. induction l; constructor; done. Qed.

Lemma any_overlap_Ok (proband_CIs : list Interval) (n : nat) (c : Interval)
    (parent_CIs : list Interval) :
  proband_CIs !! n = Some c →
  any_overlap proband_CIs n parent_CIs = Ok (existsb (intervals_overlap c) parent_CIs).
Proof.
  intros Hc. unfold any_overlap, py_index. rewrite Hc. simpl.
  change (mapM (λ i, Ok (intervals_overlap c i)) parent_CIs
          ≫= (λ flags, mret (py_any id flags))
          = Ok (existsb (intervals_overlap c) parent_CIs)).
  rewrite mapM_pure. simpl. f_equal. unfold py_any.
  induction parent_CIs as [|i l IH]; [done|]. simpl. by rewrite IH.
Qed.

Lemma min_distance_ci_at_Ok (proband_CIs : list Interval) (n : nat) (c : Interval)
    (parent_CIs : list Interval) :
  proband_CIs !! n = Some c → parent_CIs ≠ [] →
  ∃ d, min_distance_ci_at proband_CIs n parent_CIs = Ok d.
Proof.
  intros Hc Hne. unfold min_distance_ci_at, py_index. rewrite Hc. simpl.
  by apply compute_min_distance_mendelian_ci_total.
Qed.

(** What the two-allele branch returns, when it returns. *)
Lemma mendelian_consistency_two (p0 p1 : string) (fa ma : list string)
    (pcis fcis mcis : list Interval) (ok : bool) (d : Z) (okci : bool) (dci : Z) :
  mendelian_consistency [p0; p1] fa ma pcis fcis mcis = Ok (ok, d, okci, dci) →
  ok = (py_in p0 fa && py_in p1 ma) || (py_in p1 fa && py_in p0 ma)
  ∧ ∃ d0_f d1_m d1_f d0_m,
      compute_min_distance_mendelian (VStr p0) (VStr <$> fa) = Ok d0_f
      ∧ compute_min_distance_mendelian (VStr p1) (VStr <$> ma) = Ok d1_m
      ∧ compute_min_distance_mendelian (VStr p1) (VStr <$> fa) = Ok d1_f
      ∧ compute_min_distance_mendelian (VStr p0) (VStr <$> ma) = Ok d0_m
      ∧ d = Z.min (d0_f + d1_m) (d1_f + d0_m).
Proof.
  unfold mendelian_consistency. intros H.
  apply bind_Ok in H as (d0_f & H0f & H). apply bind_Ok in H as (d1_m & H1m & H).
  apply bind_Ok in H as (d1_f & H1f & H). apply bind_Ok in H as (d0_m & H0m & H).
  apply bind_Ok in H as (? & _ & H). apply bind_Ok in H as (? & _ & H).
  apply bind_Ok in H as (? & _ & H). apply bind_Ok in H as (? & _ & H).
  apply bind_Ok in H as (? & _ & H). injection H as <- <- <- <-.
  split; [done|]. exists d0_f, d1_m, d1_f, d0_m. done.
Qed.

(** What the one-allele branch returns, when it returns. *)
Lemma mendelian_consistency_one (p0 : string) (fa ma : list string)
    (pcis fcis mcis : list Interval) (ok : bool) (d : Z) (okci : bool) (dci : Z) :
  mendelian_consistency [p0] fa ma pcis fcis mcis = Ok (ok, d, okci, dci) →
  ok = py_in p0 fa || py_in p0 ma
  ∧ ∃ d_f d_m,
      compute_min_distance_mendelian (VStr p0) (VStr <$> fa) = Ok d_f
      ∧ compute_min_distance_mendelian (VStr p0) (VStr <$> ma) = Ok d_m
      ∧ d = Z.min d_f d_m.
Proof.
  unfold mendelian_consistency. intros H.
  apply bind_Ok in H as (d_f & Hf & H). apply bind_Ok in H as (d_m & Hm & H).
  apply bind_Ok in H as (? & _ & H). apply bind_Ok in H as (? & _ & H).
  apply bind_Ok in H as (? & _ & H). injection H as <- <- <- <-.
  split; [done|]. exists d_f, d_m. done.
Qed.

Lemma compute_min_distance_mendelian_nonneg (p : pyval) (pas : list pyval) (d : Z) :
  compute_min_distance_mendelian p pas = Ok d → 0 ≤ d.
Proof.
  intros (x & ys & _ & _ & Hmin)%compute_min_distance_mendelian_Ok.
  by eapply is_min_distance_nonneg.
Qed.

(** The invariant behind the assertion of source line 265. *)
Lemma consistent_distance_zero (pa fa ma : list string)
    (pcis fcis mcis : list Interval) (ok : bool) (d : Z) (okci : bool) (dci : Z) :
  mendelian_consistency pa fa ma pcis fcis mcis = Ok (ok, d, okci, dci) →
  ok = true → d = 0.
Proof.
  intros H Hok. destruct pa as [|p0 [|p1 [|p2 pa]]]; [done| | |done].
  - apply mendelian_consistency_one in H as (Hdef & d_f & d_m & Hf & Hm & ->).
    rewrite Hok in Hdef. symmetry in Hdef.
    pose proof (compute_min_distance_mendelian_nonneg _ _ _ Hf).
    pose proof (compute_min_distance_mendelian_nonneg _ _ _ Hm).
    apply orb_true_iff in Hdef as [Hin%py_in_true | Hin%py_in_true].
    + pose proof (compute_min_distance_mendelian_member _ _ _ Hf Hin). lia.
    + pose proof (compute_min_distance_mendelian_member _ _ _ Hm Hin). lia.
  - apply mendelian_consistency_two in H
      as (Hdef & d0_f & d1_m & d1_f & d0_m & H0f & H1m & H1f & H0m & ->).
    rewrite Hok in Hdef. symmetry in Hdef.
    pose proof (compute_min_distance_mendelian_nonneg _ _ _ H0f).
    pose proof (compute_min_distance_mendelian_nonneg _ _ _ H1m).
    pose proof (compute_min_distance_mendelian_nonneg _ _ _ H1f).
    pose proof (compute_min_distance_mendelian_nonneg _ _ _ H0m).
    apply orb_true_iff in Hdef as [Hin | Hin];
      apply andb_true_iff in Hin as [Hin1%py_in_true Hin2%py_in_true].
    + pose proof (compute_min_distance_mendelian_member _ _ _ H0f Hin1).
      pose proof (compute_min_distance_mendelian_member _ _ _ H1m Hin2). lia.
    + pose proof (compute_min_distance_mendelian_member _ _ _ H1f Hin1).
      pose proof (compute_min_distance_mendelian_member _ _ _ H0m Hin2). lia.
Qed.

(** What the two-allele branch computes, in terms of the integers read from
    the alleles. *)
Lemma mendelian_consistency_two_spec (p0 p1 : string) (fa ma : list string)
    (pcis fcis mcis : list Interval) (ok : bool) (d : Z) (okci : bool) (dci : Z) :
  mendelian_consistency [p0; p1] fa ma pcis fcis mcis = Ok (ok, d, okci, dci) →
  ∃ z0 z1 zf zm d0_f d1_m d1_f d0_m,
    int_of_str p0 = Some z0 ∧ int_of_str p1 = Some z1
    ∧ alleles_read fa zf ∧ alleles_read ma zm
    ∧ (ok = true ↔ (p0 ∈ fa ∧ p1 ∈ ma) ∨ (p1 ∈ fa ∧ p0 ∈ ma))
    ∧ is_min_distance z0 zf d0_f ∧ is_min_distance z1 zm d1_m
    ∧ is_min_distance z1 zf d1_f ∧ is_min_distance z0 zm d0_m
    ∧ d = Z.min (d0_f + d1_m) (d1_f + d0_m).
Proof.
  intros (Hok & d0_f & d1_m & d1_f & d0_m & H0f & H1m & H1f & H0m & Hd)
    %mendelian_consistency_two.
  pose proof H0f as (z0 & zf & Hz0%py_int_VStr & Hzf & _)%compute_min_distance_mendelian_Ok.
  pose proof H1m as (z1 & zm & Hz1%py_int_VStr & Hzm & _)%compute_min_distance_mendelian_Ok.
  exists z0, z1, zf, zm, d0_f, d1_m, d1_f, d0_m. split_and!; [done..| | | | | |done].
  - rewrite Hok, orb_true_iff, !andb_true_iff, !py_in_true. done.
  - by eapply compute_min_distance_mendelian_read.
  - by eapply compute_min_distance_mendelian_read.
  - by eapply compute_min_distance_mendelian_read.
  - by eapply compute_min_distance_mendelian_read.
Qed.

(** What the one-allele branch computes, in terms of the integers read from
    the alleles. *)
Lemma mendelian_consistency_one_spec (p0 : string) (fa ma : list string)
    (pcis fcis mcis : list Interval) (ok : bool) (d : Z) (okci : bool) (dci : Z) :
  mendelian_consistency [p0] fa ma pcis fcis mcis = Ok (ok, d, okci, dci) →
  ∃ z0 zf zm d_f d_m,
    int_of_str p0 = Some z0 ∧ alleles_read fa zf ∧ alleles_read ma zm
    ∧ (ok = true ↔ p0 ∈ fa ∨ p0 ∈ ma)
    ∧ is_min_distance z0 zf d_f ∧ is_min_distance z0 zm d_m
    ∧ d = Z.min d_f d_m.
Proof.
  intros (Hok & d_f & d_m & Hf & Hm & Hd)%mendelian_consistency_one.
  pose proof Hf as (z0 & zf & Hz0%py_int_VStr & Hzf & _)%compute_min_distance_mendelian_Ok.
  pose proof Hm as (z0' & zm & _ & Hzm & _)%compute_min_distance_mendelian_Ok.
  exists z0, zf, zm, d_f, d_m. split_and!; [done..| | | |done].
  - rewrite Hok, orb_true_iff, !py_in_true. done.
  - by eapply compute_min_distance_mendelian_read.
  - by eapply compute_min_distance_mendelian_read.
Qed.

(** The two-allele branch returns when the alleles read as integers, each
    parent has an allele and a confidence interval, and the proband has two
    confidence intervals. *)
Lemma mendelian_consistency_two_total (p0 p1 : string) (fa ma : list string)
    (z0 z1 : Z) (zf zm : list Z) (pcis fcis mcis : list Interval) :
  int_of_str p0 = Some z0 → int_of_str p1 = Some z1 →
  alleles_read fa zf → alleles_read ma zm → fa ≠ [] → ma ≠ [] →
  (2 ≤ length pcis)%nat → fcis ≠ [] → mcis ≠ [] →
  ∃ ok d okci dci,
    mendelian_consistency [p0; p1] fa ma pcis fcis mcis = Ok (ok, d, okci, dci).
Proof.
  intros Hz0 Hz1 Hzf Hzm Hfa Hma Hp Hf Hm.
  destruct (compute_min_distance_mendelian_alleles p0 fa z0 zf) as (d0_f & H0f & _); [done..|].
  destruct (compute_min_distance_mendelian_alleles p1 ma z1 zm) as (d1_m & H1m & _); [done..|].
  destruct (compute_min_distance_mendelian_alleles p1 fa z1 zf) as (d1_f & H1f & _); [done..|].
  destruct (compute_min_distance_mendelian_alleles p0 ma z0 zm) as (d0_m & H0m & _); [done..|].
  destruct pcis as [|c0 [|c1 pcis]]; [simpl in Hp; lia..|].
  destruct (min_distance_ci_at_Ok (c0 :: c1 :: pcis) 0 c0 fcis) as [c0_f Hc0f]; [done..|].
  destruct (min_distance_ci_at_Ok (c0 :: c1 :: pcis) 1 c1 mcis) as [c1_m Hc1m]; [done..|].
  destruct (min_distance_ci_at_Ok (c0 :: c1 :: pcis) 1 c1 fcis) as [c1_f Hc1f]; [done..|].
  destruct (min_distance_ci_at_Ok (c0 :: c1 :: pcis) 0 c0 mcis) as [c0_m Hc0m]; [done..|].
  unfold mendelian_consistency. rewrite H0f, H1m, H1f, H0m. simpl.
  rewrite (any_overlap_Ok _ 0 c0), (any_overlap_Ok _ 1 c1) by done.
  rewrite (any_overlap_Ok _ 1 c1), (any_overlap_Ok _ 0 c0) by done.
  rewrite Hc0f, Hc1m, Hc1f, Hc0m. simpl.
  destruct (existsb (intervals_overlap c0) fcis), (existsb (intervals_overlap c1) mcis),
    (existsb (intervals_overlap c1) fcis), (existsb (intervals_overlap c0) mcis);
    simpl; eauto.
Qed.

(** The one-allele branch returns when the alleles read as integers, each
    parent has an allele and a confidence interval, and the proband has a
    confidence interval. *)
Lemma mendelian_consistency_one_total (p0 : string) (fa ma : list string)
    (z0 : Z) (zf zm : list Z) (pcis fcis mcis : list Interval) :
  int_of_str p0 = Some z0 →
  alleles_read fa zf → alleles_read ma zm → fa ≠ [] → ma ≠ [] →
  pcis ≠ [] → fcis ≠ [] → mcis ≠ [] →
  ∃ ok d okci dci,
    mendelian_consistency [p0] fa ma pcis fcis mcis = Ok (ok, d, okci, dci).
Proof.
  intros Hz0 Hzf Hzm Hfa Hma Hp Hf Hm.
  destruct (compute_min_distance_mendelian_alleles p0 fa z0 zf) as (d_f & Hdf & _); [done..|].
  destruct (compute_min_distance_mendelian_alleles p0 ma z0 zm) as (d_m & Hdm & _); [done..|].
  destruct pcis as [|c0 pcis]; [done|].
  destruct (min_distance_ci_at_Ok (c0 :: pcis) 0 c0 fcis) as [c_f Hcf]; [done..|].
  destruct (min_distance_ci_at_Ok (c0 :: pcis) 0 c0 mcis) as [c_m Hcm]; [done..|].
  unfold mendelian_consistency. rewrite Hdf, Hdm. simpl.
  rewrite !(any_overlap_Ok _ 0 c0) by done. rewrite Hcf, Hcm. simpl.
  destruct (existsb (intervals_overlap c0) fcis), (existsb (intervals_overlap c0) mcis);
    simpl; eauto.
Qed.

(** ** One iteration of the scoring loop *)

Ltac inv_bind H :=
  repeat first
    [ apply bind_Ok in H as (? & ? & H); cbv beta in H
    | match type of H with
      | context [match ?x with pair _ _ => _ end] => is_var x; destruct x
      end ].

Section ScoringProperties.
Variable parse_interval : string → result (string * Z * Z).

Lemma split_genotype_Ok (row : Row) (s : string) (l : list string) :
  split_genotype (Genotype row) = Ok (s, l) →
  Genotype row = Str s ∧ l = alleles_of row.
Proof.
  unfold split_genotype, alleles_of.
  destruct (Genotype row); [|done..]. by intros [= <- <-].
Qed.

Lemma py_assert_Ok (line : nat) (cond : bool) (u : unit) :
  py_assert line cond = Ok u → cond = true.
Proof. by destruct cond. Qed.

(** An iteration that returns has an outcome, and updates the state by it. *)
Lemma score_trio_Ok (st st' : State) (p f m : Row) :
  score_trio parse_interval st (p, f, m) = Ok st' →
  ∃ o, outcome_of parse_interval p f m o ∧ st' = state_after st p o.
Proof.
  unfold score_trio. intros H. inv_bind H. injection H as <-.
  repeat match goal with
         | H : split_genotype _ = Ok _ |- _ => apply split_genotype_Ok in H as [? ->]
         | H : py_assert _ (one_or_two _) = Ok _ |- _ => apply py_assert_Ok in H
         end.
  match goal with
  | Hc : mendelian_consistency _ _ _ _ _ _ = Ok (?ok, ?d, ?okci, ?dci),
    Hr : repeats_in_reference _ _ = Ok (?w, ?q) |- ∃ _, _ ∧ _ = state_after _ _ _ =>
      match goal with
      | |- context [results_rows st ++ [?row]] =>
          exists (mkOutcome ok d okci dci w q row)
      end
  end.
  split; [|reflexivity].
  eexists _, _, _. simpl. split_and!; try eassumption; reflexivity.
Qed.

(** Whether an iteration returns does not depend on the state. *)
Lemma score_trio_any_state (st1 st2 st1' : State) (trio : Trio) :
  score_trio parse_interval st1 trio = Ok st1' →
  ∃ st2', score_trio parse_interval st2 trio = Ok st2'.
Proof.
  destruct trio as [[p f] m]. unfold score_trio. intros H. inv_bind H.
  repeat match goal with
         | H : _ = Ok _ |- _ => rewrite H; clear H; simpl
         end.
  eauto.
Qed.

(** C1. When the proband has two alleles, the exact flag is true exactly
    when one of the two assignments of the alleles to the parents matches in
    full, and the exact distance is the smaller, over the two assignments, of
    the sums of the least distances of each allele to the alleles of the parent
    it is assigned to. This is what [mendelian_consistency] returns, and it
    returns whenever the alleles read as integers and the confidence intervals
    are there; it is what every row added by [score_trio] for such a trio
    carries; and on proband ["17", "20"], father ["17", "17"], mother
    ["20", "22"] the flag is true and the distance 0. *)
Theorem two_allele_consistency :
  (∀ (p0 p1 : string) (fa ma : list string) (z0 z1 : Z) (zf zm : list Z)
     (pcis fcis mcis : list Interval),
     int_of_str p0 = Some z0 → int_of_str p1 = Some z1 →
     alleles_read fa zf → alleles_read ma zm → fa ≠ [] → ma ≠ [] →
     (2 ≤ length pcis)%nat → fcis ≠ [] → mcis ≠ [] →
     ∃ ok d okci dci d0_f d1_m d1_f d0_m,
       mendelian_consistency [p0; p1] fa ma pcis fcis mcis = Ok (ok, d, okci, dci)
       ∧ (ok = true ↔ (p0 ∈ fa ∧ p1 ∈ ma) ∨ (p1 ∈ fa ∧ p0 ∈ ma))
       ∧ is_min_distance z0 zf d0_f ∧ is_min_distance z1 zm d1_m
       ∧ is_min_distance z1 zf d1_f ∧ is_min_distance z0 zm d0_m
       ∧ d = Z.min (d0_f + d1_m) (d1_f + d0_m))
  ∧ (∀ (st st' : State) (p f m : Row) (p0 p1 : string),
       score_trio parse_interval st (p, f, m) = Ok st' →
       alleles_of p = [p0; p1] →
       ∃ row z0 z1 zf zm d0_f d1_m d1_f d0_m,
         results_rows st' = results_rows st ++ [row]
         ∧ int_of_str p0 = Some z0 ∧ int_of_str p1 = Some z1
         ∧ alleles_read (alleles_of f) zf ∧ alleles_read (alleles_of m) zm
         ∧ (ViolationRow.IsMendelianViolation row = false ↔
            (p0 ∈ alleles_of f ∧ p1 ∈ alleles_of m)
            ∨ (p1 ∈ alleles_of f ∧ p0 ∈ alleles_of m))
         ∧ is_min_distance z0 zf d0_f ∧ is_min_distance z1 zm d1_m
         ∧ is_min_distance z1 zf d1_f ∧ is_min_distance z0 zm d0_m
         ∧ ViolationRow.MendelianViolationDistance row
           = Z.min (d0_f + d1_m) (d1_f + d0_m))
  ∧ (∀ (pcis fcis mcis : list Interval) (ok : bool) (d : Z) (okci : bool) (dci : Z),
       mendelian_consistency ["17"; "20"] ["17"; "17"] ["20"; "22"] pcis fcis mcis
       = Ok (ok, d, okci, dci) →
       ok = true ∧ d = 0)
  ∧ mendelian_consistency ["17"; "20"] ["17"; "17"] ["20"; "22"]
      [mkInterval 17 17 None; mkInterval 20 20 None]
      [mkInterval 17 17 None; mkInterval 17 17 None]
      [mkInterval 20 20 None; mkInterval 22 22 None]
    = Ok (true, 0, true, 0).
Proof.
  split_and!.
  - intros p0 p1 fa ma z0 z1 zf zm pcis fcis mcis Hz0 Hz1 Hzf Hzm Hfa Hma Hp Hf Hm.
    destruct (mendelian_consistency_two_total p0 p1 fa ma z0 z1 zf zm pcis fcis mcis)
      as (ok & d & okci & dci & Hret); [done..|].
    pose proof Hret as (Hok & d0_f & d1_m & d1_f & d0_m & H0f & H1m & H1f & H0m & Hd)
      %mendelian_consistency_two.
    exists ok, d, okci, dci, d0_f, d1_m, d1_f, d0_m. split_and!; [done| | | | | |done].
    + rewrite Hok, orb_true_iff, !andb_true_iff, !py_in_true. done.
    + by eapply compute_min_distance_mendelian_read.
    + by eapply compute_min_distance_mendelian_read.
    + by eapply compute_min_distance_mendelian_read.
    + by eapply compute_min_distance_mendelian_read.
  - intros st st' p f m p0 p1 (o & Ho & ->)%score_trio_Ok Hp.
    destruct Ho as (pcis & fcis & mcis & _ & _ & _ & _ & _ & _ & Hc & _ & Hv & _ & Hd & _).
    rewrite Hp in Hc.
    apply mendelian_consistency_two_spec in Hc
      as (z0 & z1 & zf & zm & d0_f & d1_m & d1_f & d0_m
          & ? & ? & ? & ? & Hok & ? & ? & ? & ? & Hmin).
    exists (o_row o), z0, z1, zf, zm, d0_f, d1_m, d1_f, d0_m.
    split_and!; [done..| | | | | |].
    + rewrite Hv, negb_false_iff. done.
    + done.
    + done.
    + done.
    + done.
    + by rewrite Hd.
  - intros pcis fcis mcis ok d okci dci Hret.
    assert (ok = true) as ->.
    { by apply mendelian_consistency_two in Hret as [-> _]. }
    split; [done|]. by eapply consistent_distance_zero.
  - reflexivity.
Qed.

(** C2. When the proband has one allele, the exact flag is true exactly
    when the allele equals an allele of the father or an allele of the mother,
    and the exact distance is the smaller of its least distances to the alleles
    of the father and to those of the mother. This is what
    [mendelian_consistency] returns, and it returns whenever the alleles read
    as integers and the confidence intervals are there; it is what every row
    added by [score_trio] for such a trio carries; and on proband ["15"],
    father ["10", "10"], mother ["15", "18"] the flag is true and the distance
    0. *)
Theorem one_allele_consistency :
  (∀ (p0 : string) (fa ma : list string) (z0 : Z) (zf zm : list Z)
     (pcis fcis mcis : list Interval),
     int_of_str p0 = Some z0 →
     alleles_read fa zf → alleles_read ma zm → fa ≠ [] → ma ≠ [] →
     pcis ≠ [] → fcis ≠ [] → mcis ≠ [] →
     ∃ ok d okci dci d_f d_m,
       mendelian_consistency [p0] fa ma pcis fcis mcis = Ok (ok, d, okci, dci)
       ∧ (ok = true ↔ p0 ∈ fa ∨ p0 ∈ ma)
       ∧ is_min_distance z0 zf d_f ∧ is_min_distance z0 zm d_m
       ∧ d = Z.min d_f d_m)
  ∧ (∀ (st st' : State) (p f m : Row) (p0 : string),
       score_trio parse_interval st (p, f, m) = Ok st' →
       alleles_of p = [p0] →
       ∃ row z0 zf zm d_f d_m,
         results_rows st' = results_rows st ++ [row]
         ∧ int_of_str p0 = Some z0
         ∧ alleles_read (alleles_of f) zf ∧ alleles_read (alleles_of m) zm
         ∧ (ViolationRow.IsMendelianViolation row = false ↔
            p0 ∈ alleles_of f ∨ p0 ∈ alleles_of m)
         ∧ is_min_distance z0 zf d_f ∧ is_min_distance z0 zm d_m
         ∧ ViolationRow.MendelianViolationDistance row = Z.min d_f d_m)
  ∧ (∀ (pcis fcis mcis : list Interval) (ok : bool) (d : Z) (okci : bool) (dci : Z),
       mendelian_consistency ["15"] ["10"; "10"] ["15"; "18"] pcis fcis mcis
       = Ok (ok, d, okci, dci) →
       ok = true ∧ d = 0)
  ∧ mendelian_consistency ["15"] ["10"; "10"] ["15"; "18"]
      [mkInterval 15 15 None]
      [mkInterval 10 10 None; mkInterval 10 10 None]
      [mkInterval 15 15 None; mkInterval 18 18 None]
    = Ok (true, 0, true, 0).
Proof.
  split_and!.
  - intros p0 fa ma z0 zf zm pcis fcis mcis Hz0 Hzf Hzm Hfa Hma Hp Hf Hm.
    destruct (mendelian_consistency_one_total p0 fa ma z0 zf zm pcis fcis mcis)
      as (ok & d & okci & dci & Hret); [done..|].
    pose proof Hret as (Hok & d_f & d_m & Hdf & Hdm & Hd)%mendelian_consistency_one.
    exists ok, d, okci, dci, d_f, d_m. split_and!; [done| | | |done].
    + rewrite Hok, orb_true_iff, !py_in_true. done.
    + by eapply compute_min_distance_mendelian_read.
    + by eapply compute_min_distance_mendelian_read.
  - intros st st' p f m p0 (o & Ho & ->)%score_trio_Ok Hp.
    destruct Ho as (pcis & fcis & mcis & _ & _ & _ & _ & _ & _ & Hc & _ & Hv & _ & Hd & _).
    rewrite Hp in Hc.
    apply mendelian_consistency_one_spec in Hc
      as (z0 & zf & zm & d_f & d_m & ? & ? & ? & Hok & ? & ? & Hmin).
    exists (o_row o), z0, zf, zm, d_f, d_m.
    split_and!; [done..| | | |].
    + rewrite Hv, negb_false_iff. done.
    + done.
    + done.
    + by rewrite Hd.
  - intros pcis fcis mcis ok d okci dci Hret.
    assert (ok = true) as ->.
    { by apply mendelian_consistency_one in Hret as [-> _]. }
    split; [done|]. by eapply consistent_distance_zero.
  - reflexivity.
Qed.

(** ** True division below 2^53 *)

Lemma round_half_even_bounds (n d : Z) :
  0 < d →
  (round_half_even n d = n / d ∧ 2 * (n mod d) ≤ d)
  ∨ (round_half_even n d = n / d + 1 ∧ d ≤ 2 * (n mod d)).
Proof.
  intros Hd. unfold round_half_even.
  destruct (Z.ltb_spec (2 * (n mod d)) d); [left; lia|].
  destruct (Z.ltb_spec d (2 * (n mod d))); [right; lia|].
  destruct (Z.even (n / d)); [left | right]; lia.
Qed.

(** Below 2^53 the rounded quotient has the integer part of the exact one. *)
Lemma truediv_magnitude_exact (a b : Z) :
  0 ≤ a < 2 ^ 53 → 0 < b → truediv_magnitude a b = Some (a / b).
Proof.
  intros [Ha0 Ha] Hb. unfold truediv_magnitude.
  pose proof (Z.div_pos a b Ha0 Hb) as Hq0.
  pose proof (Z.div_mod a b ltac:(lia)) as Hdm.
  pose proof (Z.mod_pos_bound a b Hb) as Hr.
  destruct (Z.eqb_spec (a / b) 0) as [Hq|Hq].
  - rewrite Hq. f_equal.
    change (2 ^ 54) with 18014398509481984. change (2 ^ 53) with 9007199254740992 in Ha.
    destruct (Z.leb_spec (b * (18014398509481984 - 1)) (a * 18014398509481984)); [|done].
    rewrite Hq in Hdm. lia.
  - set (q := a / b) in *. assert (0 < q) as Hqpos by lia.
    pose proof (Z.log2_spec q Hqpos) as [HP _].
    pose proof (Z.log2_nonneg q) as He0.
    assert (q ≤ a) as Hqa by nia.
    assert (Z.log2 q < 53) as He by (apply Z.log2_lt_pow2; lia).
    destruct (Z.leb_spec (Z.log2 q) 52) as [_|]; [|lia].
    f_equal. set (e := Z.log2 q) in *. set (M := 2 ^ (52 - e)).
    assert (0 < M) as HM by (apply Z.pow_pos_nonneg; lia).
    assert (2 ^ e * M = 2 ^ 52) as HPM.
    { unfold M. rewrite <- Z.pow_add_r by lia. f_equal. lia. }
    pose proof (Z.div_mod (a * M) b ltac:(lia)) as HdmM.
    pose proof (Z.mod_pos_bound (a * M) b Hb) as HrM.
    set (Q := a * M / b) in *. set (R := (a * M) mod b) in *.
    assert (a * M = b * (q * M) + (a mod b) * M) as HaM by (rewrite Hdm at 1; ring).
    assert (0 ≤ (a mod b) * M < b * M) as HrMb.
    { split; [apply Z.mul_nonneg_nonneg; lia | apply Z.mul_lt_mono_pos_r; lia]. }
    assert (q * M ≤ Q) as HQlo.
    { assert (b * (q * M) < b * (Q + 1)) as Hlt by lia.
      apply Z.mul_lt_mono_pos_l in Hlt; lia. }
    assert (Q < (q + 1) * M) as HQhi.
    { assert (b * Q < b * ((q + 1) * M)) as Hlt by lia.
      apply Z.mul_lt_mono_pos_l in Hlt; lia. }
    destruct (round_half_even_bounds (a * M) b Hb) as [[-> _]|[-> Hup]].
    + fold Q. symmetry. apply Z.div_unique with (r := Q - q * M); lia.
    + fold Q. fold R in Hup.
      assert (Q + 1 < (q + 1) * M) as Hlt.
      { destruct (Z.lt_ge_cases (Q + 1) ((q + 1) * M)) as [|Hge]; [done|].
        exfalso. assert (Q = (q + 1) * M - 1) as HQ by lia.
        assert (2 * M ≤ b) as HbM by nia.
        assert (2 ^ e * (2 * M) ≤ q * b) as Hprod.
        { apply Z.mul_le_mono_nonneg; lia. }
        change (2 ^ 53) with (2 * 2 ^ 52) in Ha. nia. }
      symmetry. apply Z.div_unique with (r := Q + 1 - q * M); lia.
Qed.

Lemma py_int_truediv_exact (a b : Z) :
  Z.abs a < 2 ^ 53 → 0 < b → py_int_truediv a b = Ok (Z.quot a b).
Proof.
  intros Ha Hb. unfold py_int_truediv.
  destruct (Z.eqb_spec b 0); [lia|].
  rewrite truediv_magnitude_exact by lia.
  f_equal. symmetry. apply Z.quot_div. lia.
Qed.

(** ** The invariant of the exact flag *)

Lemma alleles_read_cons (a : string) (alleles : list string) (zs : list Z) :
  alleles_read (a :: alleles) zs →
  ∃ z zs', zs = z :: zs' ∧ int_of_str a = Some z ∧ alleles_read alleles zs'.
Proof.
  unfold alleles_read, ints_of. rewrite fmap_cons.
  inversion 1 as [|? z ? zs' Hz Hzs']; subst.
  exists z, zs'. split_and!; [done | by apply py_int_VStr | done].
Qed.

(** C3. Whenever the two flags and distances are computed, an exact flag
    that is true comes with an exact distance of 0, so the guarded assertion of
    source line 265 passes; they are computed for every trio whose individuals
    have one or two alleles that read as integers (and whose confidence
    intervals are there); and a row added by [score_trio] that is not an exact
    violation has distance 0. *)
Theorem consistent_trio_has_zero_distance :
  (∀ (pa fa ma : list string) (pcis fcis mcis : list Interval)
     (ok : bool) (d : Z) (okci : bool) (dci : Z),
     mendelian_consistency pa fa ma pcis fcis mcis = Ok (ok, d, okci, dci) →
     (ok = true → d = 0)
     ∧ (if ok then py_assert 265 (d =? 0) else mret tt) = Ok tt)
  ∧ (∀ (pa fa ma : list string) (zp zf zm : list Z) (pcis fcis mcis : list Interval),
       one_or_two pa = true → one_or_two fa = true → one_or_two ma = true →
       alleles_read pa zp → alleles_read fa zf → alleles_read ma zm →
       (length pa ≤ length pcis)%nat → fcis ≠ [] → mcis ≠ [] →
       ∃ ok d okci dci,
         mendelian_consistency pa fa ma pcis fcis mcis = Ok (ok, d, okci, dci)
         ∧ (ok = true → d = 0)
         ∧ (if ok then py_assert 265 (d =? 0) else mret tt) = Ok tt)
  ∧ (∀ (st st' : State) (trio : Trio),
       score_trio parse_interval st trio = Ok st' →
       ∃ row, results_rows st' = results_rows st ++ [row]
              ∧ (ViolationRow.IsMendelianViolation row = false →
                 ViolationRow.MendelianViolationDistance row = 0)).
Proof.
  assert (Hinv : ∀ pa fa ma pcis fcis mcis ok d okci dci,
            mendelian_consistency pa fa ma pcis fcis mcis = Ok (ok, d, okci, dci) →
            (ok = true → d = 0)
            ∧ (if ok then py_assert 265 (d =? 0) else mret tt) = Ok tt).
  { intros pa fa ma pcis fcis mcis ok d okci dci Hret.
    pose proof (consistent_distance_zero _ _ _ _ _ _ _ _ _ _ Hret) as Hzero.
    split; [done|]. destruct ok; [|done]. by rewrite Hzero. }
  split_and!; [exact Hinv | |].
  - intros pa fa ma zp zf zm pcis fcis mcis Hpa Hfa Hma Hzp Hzf Hzm Hp Hf Hm.
    assert (fa ≠ []) as Hfa' by (by destruct fa).
    assert (ma ≠ []) as Hma' by (by destruct ma).
    assert (∃ ok d okci dci,
              mendelian_consistency pa fa ma pcis fcis mcis = Ok (ok, d, okci, dci))
      as (ok & d & okci & dci & Hret).
    { destruct pa as [|p0 [|p1 [|p2 pa]]]; [done| | |done].
      - apply alleles_read_cons in Hzp as (z0 & ? & _ & Hz0 & _).
        apply (mendelian_consistency_one_total p0 fa ma z0 zf zm); try done.
        intros ->. simpl in Hp. lia.
      - apply alleles_read_cons in Hzp as (z0 & ? & _ & Hz0 & Hrest).
        apply alleles_read_cons in Hrest as (z1 & ? & _ & Hz1 & _).
        by apply (mendelian_consistency_two_total p0 p1 fa ma z0 z1 zf zm). }
    exists ok, d, okci, dci. split; [done|]. by eapply Hinv.
  - intros st st' [[p f] m] (o & Ho & ->)%score_trio_Ok.
    destruct Ho as (pcis & fcis & mcis & _ & _ & _ & _ & _ & _ & Hc & _ & Hv & _ & Hd & _).
    exists (o_row o). split; [done|].
    rewrite Hv, Hd, negb_false_iff. by eapply Hinv.
Qed.

(** ** Text equality against integer distance *)

(** C10. The exact flag compares the alleles as text, the exact distance
    compares the integers read from them: an allele that reads as the same
    integer as a parental allele is at distance 0 from it, and matches it only
    if the two texts are equal. So for the hemizygous proband "17" with father
    "017" and mother "30" the row added has [IsMendelianViolation] true and
    [MendelianViolationDistance] 0, and the violation is counted. *)
Theorem text_mismatch_with_zero_distance :
  (∀ (p0 a : string) (z : Z) (fa ma : list string) (pcis fcis mcis : list Interval)
     (ok : bool) (d : Z) (okci : bool) (dci : Z),
     mendelian_consistency [p0] fa ma pcis fcis mcis = Ok (ok, d, okci, dci) →
     int_of_str p0 = Some z → int_of_str a = Some z → a ∈ fa →
     d = 0 ∧ (ok = true ↔ p0 ∈ fa ∨ p0 ∈ ma))
  ∧ (parse_interval "chr4:3074876-3074933" = Ok ("chr4", 3074876, 3074933) →
     ∃ st row,
       score_trio parse_interval initial_state
         (example_row "kid" "17" "17-17" (Str "dad") (Str "mom"),
          example_row "dad" "017" "17-17" NaN NaN,
          example_row "mom" "30" "30-30" NaN NaN) = Ok st
       ∧ results_rows st = [row]
       ∧ ViolationRow.IsMendelianViolation row = true
       ∧ ViolationRow.MendelianViolationDistance row = 0
       ∧ counters st !! "HTT (CAG)" = Some 1).
Proof.
  split.
  - intros p0 a z fa ma pcis fcis mcis ok d okci dci Hret Hp0 Ha Hin.
    apply mendelian_consistency_one_spec in Hret
      as (z0 & zf & zm & d_f & d_m & Hz0 & Hzf & Hzm & Hok & Hdf & Hdm & ->).
    split; [|done].
    rewrite Hp0 in Hz0. injection Hz0 as <-.
    pose proof (is_min_distance_nonneg _ _ _ Hdf).
    pose proof (is_min_distance_nonneg _ _ _ Hdm).
    assert (d_f = 0); [|lia].
    apply (is_min_distance_zero z zf); [done|].
    by apply (alleles_read_elem fa zf a).
  - intros Hregion. unfold score_trio, repeats_in_reference.
    cbn [example_row example_row_at call ReferenceRegion]. rewrite Hregion.
    eexists _, _. split_and!; [vm_compute; reflexivity | reflexivity..].
Qed.

(** ** The per-locus counters *)

Lemma total_insert_fresh (counters : gmap string Z) (key : string) (v : Z) :
  counters !! key = None → total (<[key := v]> counters) = v + total counters.
Proof.
  intros Hfresh. unfold total.
  rewrite map_fold_insert_L; [done | | done]. intros. lia.
Qed.

Lemma total_increment (counters : gmap string Z) (key : string) :
  total (increment key counters) = total counters + 1.
Proof.
  unfold increment. destruct (counters !! key) as [v|] eqn:Hkey; simpl.
  - rewrite <- insert_delete_eq.
    rewrite total_insert_fresh by apply lookup_delete_eq.
    rewrite <- (insert_delete_id counters key v Hkey) at 2.
    rewrite total_insert_fresh by apply lookup_delete_eq. lia.
  - rewrite total_insert_fresh by done. lia.
Qed.

Lemma increment_lookup (counters : gmap string Z) (key key' : string) :
  default 0 (increment key counters !! key')
  = default 0 (counters !! key') + (if decide (key = key') then 1 else 0).
Proof.
  unfold increment. rewrite lookup_insert. case_decide as Hk.
  - subst. simpl. lia.
  - lia.
Qed.

(** The loop, from any state: one row per trio, and every counter grows by
    the number of violations counted under its key. *)
Lemma score_trios_Ok (trios : list Trio) (st st' : State) :
  score_trios parse_interval st trios = Ok st' →
  ∃ rows,
    results_rows st' = results_rows st ++ rows
    ∧ length rows = length trios
    ∧ total (counters st') = total (counters st) + violations rows
    ∧ ∀ key, default 0 (counters st' !! key)
             = default 0 (counters st !! key) + violations_for key (zip trios rows).
Proof.
  revert st. induction trios as [|[[p f] m] trios IH]; intros st; simpl.
  - intros [= <-]. exists []. rewrite app_nil_r.
    split_and!; [done | done | unfold violations; simpl; lia |].
    intros key. unfold violations_for. simpl. lia.
  - intros (st1 & Hstep & Hrest)%bind_Ok.
    apply score_trio_Ok in Hstep as (o & Ho & ->).
    destruct Ho as (_ & _ & _ & _ & _ & _ & _ & _ & _ & _ & _ & Hv & _).
    apply IH in Hrest as (rows & Hrows & Hlen & Htotal & Hkeys).
    exists (o_row o :: rows). simpl in *. split_and!.
    + by rewrite Hrows, <- app_assoc.
    + by rewrite Hlen.
    + rewrite Htotal. unfold violations. rewrite filter_cons, Hv.
      destruct (o_ok_mendelian o); simpl.
      * lia.
      * rewrite total_increment. lia.
    + intros key. rewrite Hkeys. unfold violations_for.
      rewrite filter_cons. simpl. rewrite Hv. unfold proband. simpl.
      destruct (o_ok_mendelian o); simpl.
      * rewrite decide_False by (by intros [_ ?]). lia.
      * rewrite increment_lookup. case_decide as Hk.
        -- rewrite decide_True by done. simpl length. lia.
        -- rewrite decide_False by (by intros [? _]). lia.
Qed.

(** The loop returns when every iteration does. *)
Lemma score_trios_total (trios : list Trio) (st : State) :
  Forall (λ trio, is_Ok (score_trio parse_interval initial_state trio)) trios →
  is_Ok (score_trios parse_interval st trios).
Proof.
  revert st. induction trios as [|trio trios IH]; intros st Hall; simpl.
  - by exists st.
  - apply Forall_cons in Hall as [[st0 Htrio] Hall].
    destruct (score_trio_any_state initial_state st st0 trio Htrio) as [st1 Hst1].
    rewrite Hst1. simpl. by apply IH.
Qed.

(** C7. When [compute_mendelian_violations] has processed a list of trios,
    the result table has one row per trio; the counter of each key equals the
    number of evaluations counted under that key whose row is an exact
    violation; and the counters sum to the number of rows whose
    [IsMendelianViolation] is true. Each iteration adds one row and increments
    the counter of its key once exactly when that row is a violation, and the
    function returns whenever every trio can be scored. *)
Theorem counters_sum_to_violation_rows :
  (∀ (trio_rows : list Trio) (st : State),
     compute_mendelian_violations_state parse_interval trio_rows = Ok st →
     compute_mendelian_violations parse_interval trio_rows = Ok (results_rows st)
     ∧ length (results_rows st) = length trio_rows
     ∧ (∀ key, default 0 (counters st !! key)
               = violations_for key (zip trio_rows (results_rows st)))
     ∧ total (counters st) = violations (results_rows st))
  ∧ (∀ (st st' : State) (p f m : Row),
       score_trio parse_interval st (p, f, m) = Ok st' →
       ∃ row, results_rows st' = results_rows st ++ [row]
              ∧ counters st'
                = if ViolationRow.IsMendelianViolation row
                  then increment (counter_key p) (counters st)
                  else counters st)
  ∧ (∀ trio_rows : list Trio,
       Forall (λ trio, is_Ok (score_trio parse_interval initial_state trio)) trio_rows →
       is_Ok (compute_mendelian_violations_state parse_interval trio_rows)).
Proof.
  split_and!.
  - intros trio_rows st Hret. unfold compute_mendelian_violations. rewrite Hret.
    split; [done|]. unfold compute_mendelian_violations_state in Hret.
    apply score_trios_Ok in Hret as (rows & Hrows & Hlen & Htotal & Hkeys).
    simpl in Hrows. subst rows. split_and!; [done | | ].
    + intros key. rewrite Hkeys. simpl. by rewrite lookup_empty.
    + rewrite Htotal. simpl. unfold total. by rewrite map_fold_empty.
  - intros st st' p f m (o & Ho & ->)%score_trio_Ok.
    destruct Ho as (_ & _ & _ & _ & _ & _ & _ & _ & _ & _ & _ & Hv & _).
    exists (o_row o). split; [done|]. rewrite Hv. simpl.
    by destruct (o_ok_mendelian o).
  - intros trio_rows Hall. by apply score_trios_total.
Qed.

(** ** The reference repeat count *)

(** C9. For an evaluated trio whose reference region, read as [start] and
    [end], is shorter than 2^53 bases -- as every region of a genome is -- the
    reference repeat count is [(end - start)] divided by the length of the
    repeat unit and truncated towards zero; the warning is printed exactly when
    the length is not a multiple of the unit length, the state records it, and
    the row added compares the alleles with the text of that count. Whether the
    length is a multiple plays no part in whether the count is computed: with
    the region read, the computation fails only on an empty repeat unit. *)
Theorem reference_repeat_count :
  (∀ (st st' : State) (p f m : Row) (chrom : string)
     (reference_region_start reference_region_end : Z),
     score_trio parse_interval st (p, f, m) = Ok st' →
     parse_interval (ReferenceRegion p)
     = Ok (chrom, reference_region_start, reference_region_end) →
     Z.abs (reference_region_end - reference_region_start) < 2 ^ 53 →
     let n := Z.of_nat (String.length (RepeatUnit p)) in
     let size := reference_region_end - reference_region_start in
     let warning := if size mod n =? 0 then [] else [not_a_multiple_warning p] in
     repeats_in_reference parse_interval p = Ok (warning, Z.quot size n)
     ∧ (warning = [] ↔ size mod n = 0)
     ∧ ∃ row, results_rows st' = results_rows st ++ [row]
              ∧ warnings st' = warnings st ++ warning
              ∧ ViolationRow.AllGenotypesAreHomozygousReference row
                = py_all (String.eqb (py_str (Z.quot size n))) (alleles_of p)
                  && py_all (String.eqb (py_str (Z.quot size n))) (alleles_of m)
                  && py_all (String.eqb (py_str (Z.quot size n))) (alleles_of f))
  ∧ (∀ (p : Row) (chrom : string) (reference_region_start reference_region_end : Z),
       parse_interval (ReferenceRegion p)
       = Ok (chrom, reference_region_start, reference_region_end) →
       Z.abs (reference_region_end - reference_region_start) < 2 ^ 53 →
       let n := Z.of_nat (String.length (RepeatUnit p)) in
       let size := reference_region_end - reference_region_start in
       let warning := if size mod n =? 0 then [] else [not_a_multiple_warning p] in
       (RepeatUnit p = ""
        ∧ repeats_in_reference parse_interval p = Raise ZeroDivisionError)
       ∨ (RepeatUnit p ≠ ""
          ∧ repeats_in_reference parse_interval p = Ok (warning, Z.quot size n))).
Proof.
  assert (Hcases : ∀ (p : Row) chrom reference_region_start reference_region_end,
            parse_interval (ReferenceRegion p)
            = Ok (chrom, reference_region_start, reference_region_end) →
            Z.abs (reference_region_end - reference_region_start) < 2 ^ 53 →
            let n := Z.of_nat (String.length (RepeatUnit p)) in
            let size := reference_region_end - reference_region_start in
            let warning := if size mod n =? 0 then [] else [not_a_multiple_warning p] in
            (RepeatUnit p = ""
             ∧ repeats_in_reference parse_interval p = Raise ZeroDivisionError)
            ∨ (RepeatUnit p ≠ ""
               ∧ repeats_in_reference parse_interval p = Ok (warning, Z.quot size n))).
  { intros p chrom reference_region_start reference_region_end Hregion Hsize n size warning.
    destruct (decide (RepeatUnit p = "")) as [Hunit|Hunit].
    - left. split; [done|]. unfold repeats_in_reference. rewrite Hregion, Hunit. done.
    - right. split; [done|].
      assert (0 < n) as Hn.
      { unfold n. destruct (RepeatUnit p); [done | simpl; lia]. }
      unfold repeats_in_reference. rewrite Hregion. simpl. fold n. fold size.
      unfold py_mod. destruct (Z.eqb_spec n 0) as [|_]; [lia|]. simpl.
      rewrite py_int_truediv_exact by done. simpl. done. }
  split; [|exact Hcases].
  intros st st' p f m chrom reference_region_start reference_region_end
         Hscore Hregion Hsize n size warning.
  apply score_trio_Ok in Hscore as (o & Ho & ->).
  destruct Ho as (_ & _ & _ & _ & _ & _ & _ & _ & _ & _ & Hr & _ & _ & _ & _ & Hall).
  assert (Hret : repeats_in_reference parse_interval p = Ok (warning, Z.quot size n)).
  { destruct (Hcases p chrom reference_region_start reference_region_end Hregion Hsize)
      as [[_ Hraise]|[_ Hret]]; [|exact Hret].
    rewrite Hraise in Hr. discriminate Hr. }
  split_and!; [done | |].
  - unfold warning. destruct (Z.eqb_spec (size mod n) 0); split; done.
  - rewrite Hret in Hr. injection Hr as Hw Hq.
    exists (o_row o). split_and!; [done | by rewrite Hw | by rewrite Hall, <- Hq].
Qed.

End ScoringProperties.

(** ** The statements above on concrete trios *)

(** [two_allele_consistency] at the trio of the specification, with the
    point intervals of its alleles as confidence intervals. *)
Lemma two_allele_consistency_witness :
  ∃ ok d okci dci d0_f d1_m d1_f d0_m,
    mendelian_consistency ["17"; "20"] ["17"; "17"] ["20"; "22"]
      [mkInterval 17 17 None; mkInterval 20 20 None]
      [mkInterval 17 17 None; mkInterval 17 17 None]
      [mkInterval 20 20 None; mkInterval 22 22 None]
    = Ok (ok, d, okci, dci)
    ∧ (ok = true ↔
       ("17" ∈ ["17"; "17"] ∧ "20" ∈ ["20"; "22"])
       ∨ ("20" ∈ ["17"; "17"] ∧ "17" ∈ ["20"; "22"]))
    ∧ is_min_distance 17 [17; 17] d0_f ∧ is_min_distance 20 [20; 22] d1_m
    ∧ is_min_distance 20 [17; 17] d1_f ∧ is_min_distance 17 [20; 22] d0_m
    ∧ d = Z.min (d0_f + d1_m) (d1_f + d0_m).
Proof.
  apply (proj1 (two_allele_consistency parse_interval_model) "17" "20" ["17"; "17"] ["20"; "22"]
           17 20 [17; 17] [20; 22]).
  - reflexivity.
  - reflexivity.
  - repeat constructor.
  - repeat constructor.
  - discriminate.
  - discriminate.
  - simpl. lia.
  - discriminate.
  - discriminate.
Defined.

(** [one_allele_consistency] at the hemizygous trio of the specification,
    with the point intervals of its alleles as confidence intervals. *)
Lemma one_allele_consistency_witness :
  ∃ ok d okci dci d_f d_m,
    mendelian_consistency ["15"] ["10"; "10"] ["15"; "18"]
      [mkInterval 15 15 None]
      [mkInterval 10 10 None; mkInterval 10 10 None]
      [mkInterval 15 15 None; mkInterval 18 18 None]
    = Ok (ok, d, okci, dci)
    ∧ (ok = true ↔ "15" ∈ ["10"; "10"] ∨ "15" ∈ ["15"; "18"])
    ∧ is_min_distance 15 [10; 10] d_f ∧ is_min_distance 15 [15; 18] d_m
    ∧ d = Z.min d_f d_m.
Proof.
  apply (proj1 (one_allele_consistency parse_interval_model) "15" ["10"; "10"] ["15"; "18"]
           15 [10; 10] [15; 18]).
  - reflexivity.
  - repeat constructor.
  - repeat constructor.
  - discriminate.
  - discriminate.
  - discriminate.
  - discriminate.
  - discriminate.
Defined.

(** [consistent_trio_has_zero_distance] at the trio of the specification. *)
Lemma consistent_trio_has_zero_distance_witness :
  ∃ ok d okci dci,
    mendelian_consistency ["17"; "20"] ["17"; "17"] ["20"; "22"]
      [mkInterval 17 17 None; mkInterval 20 20 None]
      [mkInterval 17 17 None; mkInterval 17 17 None]
      [mkInterval 20 20 None; mkInterval 22 22 None]
    = Ok (ok, d, okci, dci)
    ∧ (ok = true → d = 0)
    ∧ (if ok then py_assert 265 (d =? 0) else mret tt) = Ok tt.
Proof.
  apply (proj1 (proj2 (consistent_trio_has_zero_distance parse_interval_model))
           ["17"; "20"] ["17"; "17"] ["20"; "22"] [17; 20] [17; 17] [20; 22]).
  - reflexivity.
  - reflexivity.
  - reflexivity.
  - repeat constructor.
  - repeat constructor.
  - repeat constructor.
  - simpl. lia.
  - discriminate.
  - discriminate.
Defined.

(** [text_mismatch_with_zero_distance] with the reader of regions above. *)
Lemma text_mismatch_with_zero_distance_witness :
  ∃ st row,
    score_trio parse_interval_model initial_state
      (example_row "kid" "17" "17-17" (Str "dad") (Str "mom"),
       example_row "dad" "017" "17-17" NaN NaN,
       example_row "mom" "30" "30-30" NaN NaN) = Ok st
    ∧ results_rows st = [row]
    ∧ ViolationRow.IsMendelianViolation row = true
    ∧ ViolationRow.MendelianViolationDistance row = 0
    ∧ counters st !! "HTT (CAG)" = Some 1.
Proof.
  apply (proj2 (text_mismatch_with_zero_distance parse_interval_model)).
  reflexivity.
Defined.

(** [counters_sum_to_violation_rows] on two trios, the first consistent and
    the second an exact violation. *)
Lemma counters_sum_to_violation_rows_witness :
  let trio_rows :=
    [(example_row "kid" "17/20" "17-17/20-21" (Str "dad") (Str "mom"),
      example_row "dad" "17/17" "17-17/17-17" NaN NaN,
      example_row "mom" "20/22" "20-20/22-25" NaN NaN);
     (example_row "sib" "17/25" "17-17/25-25" (Str "dad") (Str "mom"),
      example_row "dad" "17/17" "17-17/17-17" NaN NaN,
      example_row "mom" "20/22" "20-20/22-25" NaN NaN)] in
  ∃ st, compute_mendelian_violations_state parse_interval_model trio_rows = Ok st
        ∧ length (results_rows st) = length trio_rows
        ∧ total (counters st) = violations (results_rows st).
Proof.
  intros trio_rows.
  destruct (proj2 (proj2 (counters_sum_to_violation_rows parse_interval_model)) trio_rows)
    as [st Hst].
  { repeat constructor; eexists; vm_compute; reflexivity. }
  exists st. split; [exact Hst|].
  destruct (proj1 (counters_sum_to_violation_rows parse_interval_model) trio_rows st Hst)
    as (_ & Hlen & _ & Htotal).
  split; [exact Hlen | exact Htotal].
Defined.

(** [reference_repeat_count] on a trio whose region has 58 bases, with a
    unit of 3: the trio is scored, the warning is recorded and the count is
    19. *)
Lemma reference_repeat_count_witness :
  let row := example_row_at "chr4:3074876-3074934" "CAG" in
  let p := row "kid" "19/20" "19-19/20-21" (Str "dad") (Str "mom") in
  let f := row "dad" "19/19" "19-19/19-19" NaN NaN in
  let m := row "mom" "20/22" "20-20/22-25" NaN NaN in
  ∃ st',
    score_trio parse_interval_model initial_state (p, f, m) = Ok st'
    ∧ repeats_in_reference parse_interval_model p = Ok ([not_a_multiple_warning p], 19)
    ∧ warnings st' = [not_a_multiple_warning p]
    ∧ ∃ result_row, results_rows st' = [result_row].
Proof.
  intros row p f m. eexists. split; [vm_compute; reflexivity|].
  match goal with
  | |- _ ∧ warnings ?st' = _ ∧ _ =>
      destruct (proj1 (reference_repeat_count parse_interval_model)
                  initial_state st' p f m "chr4" 3074876 3074934
                  ltac:(vm_compute; reflexivity) eq_refl ltac:(reflexivity))
        as (Hret & _ & result_row & Hrows & Hw & _)
  end.
  split; [exact Hret|]. split; [exact Hw|]. exists result_row. exact Hrows.
Defined.

(** The bound on the region is needed: beyond 2^53 the quotient, computed in
    floating point, is rounded before the fraction is dropped, and
    [18014398509481983 / 2] becomes 2^53, one more than the truncated
    quotient. The trio is scored all the same, and its row reports the three
    individuals as homozygous for the reference allele [9007199254740992]. *)
Lemma repeat_count_is_rounded_beyond_2_53 :
  let row (sample : string) (father mother : cell) :=
    example_row_at "chr1:0-18014398509481983" "AC" sample
                   "9007199254740992/9007199254740992" "1-2/1-2" father mother in
  let p := row "kid" (Str "dad") (Str "mom") in
  repeats_in_reference parse_interval_model p
  = Ok ([not_a_multiple_warning p], 9007199254740992)
  ∧ Z.quot (18014398509481983 - 0) (Z.of_nat (String.length (RepeatUnit p)))
    = 9007199254740991
  ∧ ∃ st result_row,
      score_trio parse_interval_model initial_state
        (p, row "dad" NaN NaN, row "mom" NaN NaN) = Ok st
      ∧ results_rows st = [result_row]
      ∧ ViolationRow.AllGenotypesAreHomozygousReference result_row = true.
Proof.
  intros row p. split_and!.
  - vm_compute. reflexivity.
  - reflexivity.
  - eexists _, _. split_and!; [vm_compute; reflexivity | reflexivity..].
Qed.

(** * Further properties *)

(** ** Confidence-interval consistency *)

Lemma existsb_overlaps_any (ci : Interval) (cis : list Interval) :
  existsb (intervals_overlap ci) cis = true ↔ overlaps_any ci cis.
Proof.
  unfold overlaps_any. induction cis as [|c cis IH]; simpl.
  - split; [done | by intros (? & ?%elem_of_nil & _)].
  - rewrite orb_true_iff, IH. split.
    + intros [Hc|(c' & Hin & Hc')]; [exists c; split; [left | done]|].
      exists c'. split; [by right | done].
    + intros (c' & [->|Hin]%elem_of_cons & Hc'); [by left | right; eauto].
Qed.

Lemma min_distance_ci_at_inv (proband_CIs : list Interval) (n : nat)
    (parent_CIs : list Interval) (d : Z) :
  min_distance_ci_at proband_CIs n parent_CIs = Ok d →
  ∃ c, proband_CIs !! n = Some c ∧ is_min_distance_ci c parent_CIs d.
Proof.
  unfold min_distance_ci_at, py_index. intros (c & Hc & Hd)%bind_Ok.
  destruct (proband_CIs !! n) as [c'|]; [|done]. injection Hc as ->.
  exists c. split; [done|]. by apply compute_min_distance_mendelian_ci_Ok.
Qed.

Lemma is_min_distance_ci_nonneg (ci : Interval) (cis : list Interval) (d : Z) :
  is_min_distance_ci ci cis d → 0 ≤ d.
Proof. intros [(c & -> & _)%list_elem_of_fmap _]. lia. Qed.

(** The confidence-interval half of the two-allele branch, when it returns. *)
Lemma mendelian_consistency_two_ci (p0 p1 : string) (fa ma : list string)
    (pcis fcis mcis : list Interval) (ok : bool) (d : Z) (okci : bool) (dci : Z) :
  mendelian_consistency [p0; p1] fa ma pcis fcis mcis = Ok (ok, d, okci, dci) →
  ∃ c0 c1 c0_f c1_m c1_f c0_m,
    pcis !! 0%nat = Some c0 ∧ pcis !! 1%nat = Some c1
    ∧ okci = (existsb (intervals_overlap c0) fcis && existsb (intervals_overlap c1) mcis)
             || (existsb (intervals_overlap c1) fcis && existsb (intervals_overlap c0) mcis)
    ∧ is_min_distance_ci c0 fcis c0_f ∧ is_min_distance_ci c1 mcis c1_m
    ∧ is_min_distance_ci c1 fcis c1_f ∧ is_min_distance_ci c0 mcis c0_m
    ∧ dci = Z.min (c0_f + c1_m) (c1_f + c0_m).
Proof.
  unfold mendelian_consistency. intros H.
  apply bind_Ok in H as (? & _ & H). apply bind_Ok in H as (? & _ & H).
  apply bind_Ok in H as (? & _ & H). apply bind_Ok in H as (? & _ & H).
  apply bind_Ok in H as (okci' & Hor & H).
  apply bind_Ok in H as (c0_f & H0f & H). apply bind_Ok in H as (c1_m & H1m & H).
  apply bind_Ok in H as (c1_f & H1f & H). apply bind_Ok in H as (c0_m & H0m & H).
  injection H as <- <- <- <-.
  apply min_distance_ci_at_inv in H0f as (c0 & Hc0 & H0f).
  apply min_distance_ci_at_inv in H1m as (c1 & Hc1 & H1m).
  apply min_distance_ci_at_inv in H1f as (c1' & Hc1' & H1f).
  apply min_distance_ci_at_inv in H0m as (c0' & Hc0' & H0m).
  rewrite Hc1 in Hc1'. injection Hc1' as <-. rewrite Hc0 in Hc0'. injection Hc0' as <-.
  exists c0, c1, c0_f, c1_m, c1_f, c0_m. split_and!; [done | done | | done..].
  rewrite !(any_overlap_Ok _ 0 c0), !(any_overlap_Ok _ 1 c1) in Hor by done.
  unfold py_or, py_and in Hor. simpl in Hor.
  destruct (existsb (intervals_overlap c0) fcis), (existsb (intervals_overlap c1) mcis),
    (existsb (intervals_overlap c1) fcis), (existsb (intervals_overlap c0) mcis);
    simpl in *; by injection Hor as <-.
Qed.

(** The confidence-interval half of the one-allele branch, when it returns. *)
Lemma mendelian_consistency_one_ci (p0 : string) (fa ma : list string)
    (pcis fcis mcis : list Interval) (ok : bool) (d : Z) (okci : bool) (dci : Z) :
  mendelian_consistency [p0] fa ma pcis fcis mcis = Ok (ok, d, okci, dci) →
  ∃ c0 c_f c_m,
    pcis !! 0%nat = Some c0
    ∧ okci = existsb (intervals_overlap c0) fcis || existsb (intervals_overlap c0) mcis
    ∧ is_min_distance_ci c0 fcis c_f ∧ is_min_distance_ci c0 mcis c_m
    ∧ dci = Z.min c_f c_m.
Proof.
  unfold mendelian_consistency. intros H.
  apply bind_Ok in H as (? & _ & H). apply bind_Ok in H as (? & _ & H).
  apply bind_Ok in H as (okci' & Hor & H).
  apply bind_Ok in H as (c_f & Hf & H). apply bind_Ok in H as (c_m & Hm & H).
  injection H as <- <- <- <-.
  apply min_distance_ci_at_inv in Hf as (c0 & Hc0 & Hf).
  apply min_distance_ci_at_inv in Hm as (c0' & Hc0' & Hm).
  rewrite Hc0 in Hc0'. injection Hc0' as <-.
  exists c0, c_f, c_m. split_and!; [done | | done..].
  rewrite !(any_overlap_Ok _ 0 c0) in Hor by done.
  unfold py_or in Hor. simpl in Hor.
  destruct (existsb (intervals_overlap c0) fcis), (existsb (intervals_overlap c0) mcis);
    simpl in *; by injection Hor as <-.
Qed.

Lemma is_min_distance_ci_overlap (ci : Interval) (cis : list Interval) (d : Z) :
  is_min_distance_ci ci cis d →
  (∃ c, c ∈ cis ∧ Interval_distance_to ci c = 0) → d = 0.
Proof.
  intros Hmin (c & Hc & Hzero). pose proof (is_min_distance_ci_nonneg _ _ _ Hmin).
  destruct Hmin as [_ Hle].
  assert (d ≤ Z.abs (Interval_distance_to ci c)); [|lia].
  apply Hle, list_elem_of_fmap. eauto.
Qed.

Lemma is_min_distance_ci_proper (ci : Interval) (cis : list Interval) (d : Z) :
  proper ci → Forall proper cis → overlaps_any ci cis →
  is_min_distance_ci ci cis d → d = 0.
Proof.
  intros Hci Hcis (c & Hc & Hov) Hmin.
  apply (is_min_distance_ci_overlap ci cis); [done|].
  exists c. split; [done|]. apply proper_overlap_distance; [done | | done].
  by eapply Forall_forall in Hcis.
Qed.

Lemma is_min_distance_zero_iff (x : Z) (ys : list Z) (d : Z) :
  is_min_distance x ys d → d = 0 ↔ x ∈ ys.
Proof.
  intros Hmin. split; [|by apply is_min_distance_zero].
  intros ->. apply is_min_distance_alt in Hmin as [(y & Hy & Habs) _].
  by replace x with y by lia.
Qed.

Lemma alleles_within_elem (alleles : list string) (cis : list Interval) (a : string) :
  alleles_within alleles cis → a ∈ alleles →
  ∃ c z, c ∈ cis ∧ int_of_str a = Some z ∧ i_begin c ≤ z ≤ i_end c.
Proof.
  unfold alleles_within. induction 1 as [|b c l k (z & Hz & Hc) _ IH].
  - by intros ?%elem_of_nil.
  - intros [->|Hin]%elem_of_cons.
    + exists c, z. split; [left | done].
    + destruct (IH Hin) as (c' & z' & ? & ?). exists c', z'. split; [by right | done].
Qed.

(** An allele inside its interval that occurs among the alleles of a
    parent, each inside its interval, overlaps an interval of that parent. *)
Lemma within_overlaps_any (p : string) (z : Z) (c : Interval)
    (alleles : list string) (cis : list Interval) :
  int_of_str p = Some z → i_begin c ≤ z ≤ i_end c →
  alleles_within alleles cis → p ∈ alleles → overlaps_any c cis.
Proof.
  intros Hz Hc Hwithin Hin.
  destruct (alleles_within_elem alleles cis p Hwithin Hin) as (c' & z' & Hc' & Hz' & Hb).
  rewrite Hz in Hz'. injection Hz' as <-.
  exists c'. split; [done|]. unfold intervals_overlap.
  apply negb_true_iff, orb_false_iff. rewrite !Z.ltb_ge. lia.
Qed.

Lemma compute_min_distance_mendelian_ValueError (p : pyval) (pas : list pyval) (e : exn) :
  compute_min_distance_mendelian p pas = Raise e → e = ValueError.
Proof.
  unfold compute_min_distance_mendelian. intros [Hmap|(ds & _ & Hmin)]%bind_Raise.
  - induction pas as [|pa pas IH]; [done|]. simpl in Hmap.
    apply bind_Raise in Hmap as [Hhead|(? & _ & Htail)].
    + destruct p as [z|s0], pa as [y|t]; simpl in Hhead; try done.
      * by destruct (int_of_str t); [|injection Hhead as <-].
      * destruct (int_of_str s0); [done | by injection Hhead as <-].
      * destruct (int_of_str s0); simpl in Hhead; [|by injection Hhead as <-].
        by destruct (int_of_str t); [|injection Hhead as <-].
    + apply bind_Raise in Htail as [Htail|(? & _ & ?)]; [by apply IH | done].
  - by apply py_min_empty in Hmin as [_ ->].
Qed.

Section FurtherScoring.
Variable parse_interval : string → result (string * Z * Z).

(** X1. For a proband with two alleles the confidence-interval flag and
    distance use the first two intervals of the proband, paired with the
    alleles by position: the flag is true exactly when one of the two
    assignments has each interval overlap an interval of the parent it is
    assigned to, and the distance is the smaller of the two sums of least
    absolute [distance_to] values. The function returns these whenever the
    alleles read as integers, the proband has two intervals and each parent has
    an allele and an interval, and every row added for such a trio carries
    them. *)
Theorem two_allele_ci_consistency :
  (∀ (p0 p1 : string) (fa ma : list string) (z0 z1 : Z) (zf zm : list Z)
     (c0 c1 : Interval) (pcis fcis mcis : list Interval),
     int_of_str p0 = Some z0 → int_of_str p1 = Some z1 →
     alleles_read fa zf → alleles_read ma zm → fa ≠ [] → ma ≠ [] →
     fcis ≠ [] → mcis ≠ [] →
     ∃ ok d okci dci c0_f c1_m c1_f c0_m,
       mendelian_consistency [p0; p1] fa ma (c0 :: c1 :: pcis) fcis mcis
       = Ok (ok, d, okci, dci)
       ∧ (okci = true ↔
          (overlaps_any c0 fcis ∧ overlaps_any c1 mcis)
          ∨ (overlaps_any c1 fcis ∧ overlaps_any c0 mcis))
       ∧ is_min_distance_ci c0 fcis c0_f ∧ is_min_distance_ci c1 mcis c1_m
       ∧ is_min_distance_ci c1 fcis c1_f ∧ is_min_distance_ci c0 mcis c0_m
       ∧ dci = Z.min (c0_f + c1_m) (c1_f + c0_m))
  ∧ (∀ (st st' : State) (p f m : Row) (p0 p1 : string),
       score_trio parse_interval st (p, f, m) = Ok st' →
       alleles_of p = [p0; p1] →
       ∃ row c0 c1 pcis fcis mcis c0_f c1_m c1_f c0_m,
         results_rows st' = results_rows st ++ [row]
         ∧ parse_CIs (GenotypeConfidenceInterval p) = Ok (c0 :: c1 :: pcis)
         ∧ parse_CIs (GenotypeConfidenceInterval f) = Ok fcis
         ∧ parse_CIs (GenotypeConfidenceInterval m) = Ok mcis
         ∧ (ViolationRow.IsMendelianViolationCI row = false ↔
            (overlaps_any c0 fcis ∧ overlaps_any c1 mcis)
            ∨ (overlaps_any c1 fcis ∧ overlaps_any c0 mcis))
         ∧ is_min_distance_ci c0 fcis c0_f ∧ is_min_distance_ci c1 mcis c1_m
         ∧ is_min_distance_ci c1 fcis c1_f ∧ is_min_distance_ci c0 mcis c0_m
         ∧ ViolationRow.MendelianViolationDistanceCI row
           = Z.min (c0_f + c1_m) (c1_f + c0_m)).
Proof.
  assert (Hflag : ∀ c0 c1 fcis mcis okci,
    okci = (existsb (intervals_overlap c0) fcis && existsb (intervals_overlap c1) mcis)
           || (existsb (intervals_overlap c1) fcis && existsb (intervals_overlap c0) mcis) →
    okci = true ↔
    (overlaps_any c0 fcis ∧ overlaps_any c1 mcis)
    ∨ (overlaps_any c1 fcis ∧ overlaps_any c0 mcis)).
  { intros c0 c1 fcis mcis okci ->.
    by rewrite orb_true_iff, !andb_true_iff, !existsb_overlaps_any. }
  split.
  - intros p0 p1 fa ma z0 z1 zf zm c0 c1 pcis fcis mcis Hz0 Hz1 Hzf Hzm Hfa Hma Hf Hm.
    destruct (mendelian_consistency_two_total p0 p1 fa ma z0 z1 zf zm
                (c0 :: c1 :: pcis) fcis mcis)
      as (ok & d & okci & dci & Hret); [done..|simpl; lia|done|done|].
    pose proof Hret as (c0' & c1' & c0_f & c1_m & c1_f & c0_m & [= <-] & [= <-]
                        & Hokci & ? & ? & ? & ? & ?)%mendelian_consistency_two_ci.
    exists ok, d, okci, dci, c0_f, c1_m, c1_f, c0_m.
    split_and!; [done | by apply Hflag | done..].
  - intros st st' p f m p0 p1 (o & Ho & ->)%score_trio_Ok Hp.
    destruct Ho as (pcis & fcis & mcis & _ & _ & _ & Hpc & Hfc & Hmc & Hc
                    & _ & _ & Hv & _ & Hd & _).
    rewrite Hp in Hc.
    apply mendelian_consistency_two_ci in Hc
      as (c0 & c1 & c0_f & c1_m & c1_f & c0_m & Hc0 & Hc1 & Hokci & ? & ? & ? & ? & Hmin).
    destruct pcis as [|c0' [|c1' pcis]]; [done..|].
    injection Hc0 as ->. injection Hc1 as ->.
    exists (o_row o), c0, c1, pcis, fcis, mcis, c0_f, c1_m, c1_f, c0_m.
    split_and!; [done..| | done | done | done | done | by rewrite Hd].
    rewrite Hv, negb_false_iff. by apply Hflag.
Qed.

(** X2. For a proband with one allele the confidence-interval flag is true
    exactly when the first interval of the proband overlaps an interval of the
    father or one of the mother, and the distance is the smaller of its least
    absolute [distance_to] values to the two parents. *)
Theorem one_allele_ci_consistency :
  (∀ (p0 : string) (fa ma : list string) (z0 : Z) (zf zm : list Z)
     (c0 : Interval) (pcis fcis mcis : list Interval),
     int_of_str p0 = Some z0 →
     alleles_read fa zf → alleles_read ma zm → fa ≠ [] → ma ≠ [] →
     fcis ≠ [] → mcis ≠ [] →
     ∃ ok d okci dci c_f c_m,
       mendelian_consistency [p0] fa ma (c0 :: pcis) fcis mcis = Ok (ok, d, okci, dci)
       ∧ (okci = true ↔ overlaps_any c0 fcis ∨ overlaps_any c0 mcis)
       ∧ is_min_distance_ci c0 fcis c_f ∧ is_min_distance_ci c0 mcis c_m
       ∧ dci = Z.min c_f c_m)
  ∧ (∀ (st st' : State) (p f m : Row) (p0 : string),
       score_trio parse_interval st (p, f, m) = Ok st' →
       alleles_of p = [p0] →
       ∃ row c0 pcis fcis mcis c_f c_m,
         results_rows st' = results_rows st ++ [row]
         ∧ parse_CIs (GenotypeConfidenceInterval p) = Ok (c0 :: pcis)
         ∧ parse_CIs (GenotypeConfidenceInterval f) = Ok fcis
         ∧ parse_CIs (GenotypeConfidenceInterval m) = Ok mcis
         ∧ (ViolationRow.IsMendelianViolationCI row = false ↔
            overlaps_any c0 fcis ∨ overlaps_any c0 mcis)
         ∧ is_min_distance_ci c0 fcis c_f ∧ is_min_distance_ci c0 mcis c_m
         ∧ ViolationRow.MendelianViolationDistanceCI row = Z.min c_f c_m).
Proof.
  split.
  - intros p0 fa ma z0 zf zm c0 pcis fcis mcis Hz0 Hzf Hzm Hfa Hma Hf Hm.
    destruct (mendelian_consistency_one_total p0 fa ma z0 zf zm (c0 :: pcis) fcis mcis)
      as (ok & d & okci & dci & Hret); [done..|].
    pose proof Hret as (c0' & c_f & c_m & [= <-] & Hokci & ? & ? & ?)
      %mendelian_consistency_one_ci.
    exists ok, d, okci, dci, c_f, c_m. split_and!; [done | | done..].
    by rewrite Hokci, orb_true_iff, !existsb_overlaps_any.
  - intros st st' p f m p0 (o & Ho & ->)%score_trio_Ok Hp.
    destruct Ho as (pcis & fcis & mcis & _ & _ & _ & Hpc & Hfc & Hmc & Hc
                    & _ & _ & Hv & _ & Hd & _).
    rewrite Hp in Hc.
    apply mendelian_consistency_one_ci in Hc
      as (c0 & c_f & c_m & Hc0 & Hokci & ? & ? & Hmin).
    destruct pcis as [|c0' pcis]; [done|]. injection Hc0 as ->.
    exists (o_row o), c0, pcis, fcis, mcis, c_f, c_m.
    split_and!; [done..| | done | done | by rewrite Hd].
    by rewrite Hv, negb_false_iff, Hokci, orb_true_iff, !existsb_overlaps_any.
Qed.

(** X3. When every allele of the three individuals lies inside the
    confidence interval at its position, a trio that is consistent on the exact
    genotypes is consistent on the confidence intervals: the row of such a trio
    is a confidence-interval violation only if it is an exact violation. (This
    is the assertion that source line 277 leaves commented out.) *)
Theorem exact_consistency_implies_ci_consistency :
  (∀ (pa fa ma : list string) (pcis fcis mcis : list Interval)
     (ok : bool) (d : Z) (okci : bool) (dci : Z),
     alleles_within pa pcis → alleles_within fa fcis → alleles_within ma mcis →
     mendelian_consistency pa fa ma pcis fcis mcis = Ok (ok, d, okci, dci) →
     ok = true → okci = true)
  ∧ (∀ (st st' : State) (p f m : Row),
       row_within p → row_within f → row_within m →
       score_trio parse_interval st (p, f, m) = Ok st' →
       ∃ row, results_rows st' = results_rows st ++ [row]
              ∧ (ViolationRow.IsMendelianViolationCI row = true →
                 ViolationRow.IsMendelianViolation row = true)).
Proof.
  assert (Hmain : ∀ pa fa ma pcis fcis mcis ok d okci dci,
            alleles_within pa pcis → alleles_within fa fcis → alleles_within ma mcis →
            mendelian_consistency pa fa ma pcis fcis mcis = Ok (ok, d, okci, dci) →
            ok = true → okci = true).
  { intros pa fa ma pcis fcis mcis ok d okci dci Hp Hf Hm Hret ->.
    destruct pa as [|p0 [|p1 [|p2 pa]]]; [done| | |done].
    - pose proof Hret as (Hdef & _)%mendelian_consistency_one.
      apply mendelian_consistency_one_ci in Hret as (c0 & _ & _ & Hc0 & -> & _).
      inversion Hp as [|? c0' ? ? (z0 & Hz0 & Hb0) _]; subst.
      injection Hc0 as <-. symmetry in Hdef.
      rewrite orb_true_iff, !existsb_overlaps_any.
      apply orb_true_iff in Hdef as [Hin%py_in_true|Hin%py_in_true];
        [left | right]; by eapply within_overlaps_any.
    - pose proof Hret as (Hdef & _)%mendelian_consistency_two.
      apply mendelian_consistency_two_ci in Hret
        as (c0 & c1 & _ & _ & _ & _ & Hc0 & Hc1 & -> & _).
      inversion Hp as [|? c0' ? ? (z0 & Hz0 & Hb0) Hrest]; subst.
      inversion Hrest as [|? c1' ? ? (z1 & Hz1 & Hb1) _]; subst.
      injection Hc0 as <-. injection Hc1 as <-. symmetry in Hdef.
      rewrite orb_true_iff, !andb_true_iff, !existsb_overlaps_any.
      apply orb_true_iff in Hdef as [Hin|Hin];
        apply andb_true_iff in Hin as [Hin1%py_in_true Hin2%py_in_true];
        [left | right]; split.
      * by apply (within_overlaps_any p0 z0 _ fa).
      * by apply (within_overlaps_any p1 z1 _ ma).
      * by apply (within_overlaps_any p1 z1 _ fa).
      * by apply (within_overlaps_any p0 z0 _ ma). }
  split; [exact Hmain|].
  intros st st' p f m (pc & Hpc & Hpw) (fc & Hfc & Hfw) (mc & Hmc & Hmw)
    (o & Ho & ->)%score_trio_Ok.
  destruct Ho as (pcis & fcis & mcis & _ & _ & _ & Hpc' & Hfc' & Hmc' & Hc
                  & _ & Hv & Hvci & _).
  rewrite Hpc in Hpc'. injection Hpc' as <-.
  rewrite Hfc in Hfc'. injection Hfc' as <-.
  rewrite Hmc in Hmc'. injection Hmc' as <-.
  exists (o_row o). split; [done|]. rewrite Hv, Hvci, !negb_true_iff.
  intros Hci. destruct (o_ok_mendelian o) eqn:Hok; [|done].
  rewrite (Hmain _ _ _ _ _ _ _ _ _ _ Hpw Hfw Hmw Hc eq_refl) in Hci. done.
Qed.

(** X4. When every confidence interval begins before it ends, a trio that
    is consistent on the confidence intervals has confidence-interval distance
    0. The condition matters: a point interval that sits at the beginning of a
    longer parental interval overlaps it for [intervals_overlap], and is at
    distance the length of that interval from it. *)
Theorem ci_consistent_proper_distance_zero :
  (∀ (pa fa ma : list string) (pcis fcis mcis : list Interval)
     (ok : bool) (d : Z) (okci : bool) (dci : Z),
     Forall proper pcis → Forall proper fcis → Forall proper mcis →
     mendelian_consistency pa fa ma pcis fcis mcis = Ok (ok, d, okci, dci) →
     okci = true → dci = 0)
  ∧ (∀ b e : Z, b < e →
       intervals_overlap (mkInterval b b None) (mkInterval b e None) = true
       ∧ compute_min_distance_mendelian_ci (mkInterval b b None) [mkInterval b e None]
         = Ok (e - b)).
Proof.
  split.
  - intros pa fa ma pcis fcis mcis ok d okci dci Hp Hf Hm Hret Hokci.
    destruct pa as [|p0 [|p1 [|p2 pa]]]; [done| | |done].
    + apply mendelian_consistency_one_ci in Hret
        as (c0 & c_f & c_m & Hc0 & Hdef & Hcf & Hcm & ->).
      assert (proper c0) as Hc0p.
      { eapply Forall_forall in Hp; [done|]. by eapply list_elem_of_lookup_2. }
      pose proof (is_min_distance_ci_nonneg _ _ _ Hcf).
      pose proof (is_min_distance_ci_nonneg _ _ _ Hcm).
      rewrite Hokci in Hdef. symmetry in Hdef.
      apply orb_true_iff in Hdef as [Hov%existsb_overlaps_any|Hov%existsb_overlaps_any].
      * pose proof (is_min_distance_ci_proper _ _ _ Hc0p Hf Hov Hcf). lia.
      * pose proof (is_min_distance_ci_proper _ _ _ Hc0p Hm Hov Hcm). lia.
    + apply mendelian_consistency_two_ci in Hret
        as (c0 & c1 & c0_f & c1_m & c1_f & c0_m & Hc0 & Hc1 & Hdef
            & H0f & H1m & H1f & H0m & ->).
      assert (proper c0) as Hc0p.
      { eapply Forall_forall in Hp; [done|]. by eapply list_elem_of_lookup_2. }
      assert (proper c1) as Hc1p.
      { eapply Forall_forall in Hp; [done|]. by eapply list_elem_of_lookup_2. }
      pose proof (is_min_distance_ci_nonneg _ _ _ H0f).
      pose proof (is_min_distance_ci_nonneg _ _ _ H1m).
      pose proof (is_min_distance_ci_nonneg _ _ _ H1f).
      pose proof (is_min_distance_ci_nonneg _ _ _ H0m).
      rewrite Hokci in Hdef. symmetry in Hdef.
      apply orb_true_iff in Hdef as [Hov|Hov];
        apply andb_true_iff in Hov
          as [Hov1%existsb_overlaps_any Hov2%existsb_overlaps_any].
      * pose proof (is_min_distance_ci_proper _ _ _ Hc0p Hf Hov1 H0f).
        pose proof (is_min_distance_ci_proper _ _ _ Hc1p Hm Hov2 H1m). lia.
      * pose proof (is_min_distance_ci_proper _ _ _ Hc1p Hf Hov1 H1f).
        pose proof (is_min_distance_ci_proper _ _ _ Hc0p Hm Hov2 H0m). lia.
  - intros b e Hbe. split.
    + unfold intervals_overlap. simpl.
      apply negb_true_iff, orb_false_iff. rewrite !Z.ltb_ge. lia.
    + unfold compute_min_distance_mendelian_ci, Interval_distance_to, Interval_overlaps.
      simpl. rewrite (Z.ltb_irrefl b). simpl. f_equal. lia.
Qed.

(** X5. The exact distance is 0 exactly when the trio is consistent on the
    integers read from the alleles: for two alleles, when one assignment has
    each integer among the integers of the parent it is assigned to; for one
    allele, when its integer is among those of a parent. *)
Theorem zero_distance_iff_integers_consistent :
  (∀ (p0 p1 : string) (fa ma : list string) (pcis fcis mcis : list Interval)
     (ok : bool) (d : Z) (okci : bool) (dci : Z),
     mendelian_consistency [p0; p1] fa ma pcis fcis mcis = Ok (ok, d, okci, dci) →
     ∃ z0 z1 zf zm,
       int_of_str p0 = Some z0 ∧ int_of_str p1 = Some z1
       ∧ alleles_read fa zf ∧ alleles_read ma zm
       ∧ (d = 0 ↔ (z0 ∈ zf ∧ z1 ∈ zm) ∨ (z1 ∈ zf ∧ z0 ∈ zm)))
  ∧ (∀ (p0 : string) (fa ma : list string) (pcis fcis mcis : list Interval)
       (ok : bool) (d : Z) (okci : bool) (dci : Z),
       mendelian_consistency [p0] fa ma pcis fcis mcis = Ok (ok, d, okci, dci) →
       ∃ z0 zf zm,
         int_of_str p0 = Some z0 ∧ alleles_read fa zf ∧ alleles_read ma zm
         ∧ (d = 0 ↔ z0 ∈ zf ∨ z0 ∈ zm))
  ∧ (∀ (p0 p1 : string) (fa ma : list string) (z0 z1 : Z) (zf zm : list Z)
       (pcis fcis mcis : list Interval),
       int_of_str p0 = Some z0 → int_of_str p1 = Some z1 →
       alleles_read fa zf → alleles_read ma zm →
       (2 ≤ length pcis)%nat → fcis ≠ [] → mcis ≠ [] →
       z0 ∈ zf → z1 ∈ zm →
       ∃ ok okci dci,
         mendelian_consistency [p0; p1] fa ma pcis fcis mcis = Ok (ok, 0, okci, dci)).
Proof.
  split_and!.
  - intros p0 p1 fa ma pcis fcis mcis ok d okci dci Hret.
    apply mendelian_consistency_two_spec in Hret
      as (z0 & z1 & zf & zm & d0_f & d1_m & d1_f & d0_m
          & ? & ? & ? & ? & _ & H0f & H1m & H1f & H0m & ->).
    exists z0, z1, zf, zm. split_and!; [done..|].
    pose proof (is_min_distance_nonneg _ _ _ H0f).
    pose proof (is_min_distance_nonneg _ _ _ H1m).
    pose proof (is_min_distance_nonneg _ _ _ H1f).
    pose proof (is_min_distance_nonneg _ _ _ H0m).
    rewrite <- (is_min_distance_zero_iff _ _ _ H0f), <- (is_min_distance_zero_iff _ _ _ H1m),
      <- (is_min_distance_zero_iff _ _ _ H1f), <- (is_min_distance_zero_iff _ _ _ H0m).
    lia.
  - intros p0 fa ma pcis fcis mcis ok d okci dci Hret.
    apply mendelian_consistency_one_spec in Hret
      as (z0 & zf & zm & d_f & d_m & ? & ? & ? & _ & Hdf & Hdm & ->).
    exists z0, zf, zm. split_and!; [done..|].
    pose proof (is_min_distance_nonneg _ _ _ Hdf).
    pose proof (is_min_distance_nonneg _ _ _ Hdm).
    rewrite <- (is_min_distance_zero_iff _ _ _ Hdf), <- (is_min_distance_zero_iff _ _ _ Hdm).
    lia.
  - intros p0 p1 fa ma z0 z1 zf zm pcis fcis mcis Hz0 Hz1 Hzf Hzm Hp Hf Hm Hin0 Hin1.
    assert (fa ≠ []) as Hfa.
    { intros ->. apply ints_of_length in Hzf. destruct zf; [by apply elem_of_nil in Hin0|done]. }
    assert (ma ≠ []) as Hma.
    { intros ->. apply ints_of_length in Hzm. destruct zm; [by apply elem_of_nil in Hin1|done]. }
    destruct (mendelian_consistency_two_total p0 p1 fa ma z0 z1 zf zm pcis fcis mcis)
      as (ok & d & okci & dci & Hret); [done..|].
    exists ok, okci, dci. rewrite Hret. do 2 f_equal.
    pose proof Hret as (_ & d0_f & d1_m & d1_f & d0_m & H0f & H1m & H1f & H0m & ->)
      %mendelian_consistency_two.
    pose proof (compute_min_distance_mendelian_nonneg _ _ _ H1f).
    pose proof (compute_min_distance_mendelian_nonneg _ _ _ H0m).
    apply (compute_min_distance_mendelian_read p0 fa z0 zf) in H0f; [|done..].
    apply (compute_min_distance_mendelian_read p1 ma z1 zm) in H1m; [|done..].
    apply is_min_distance_zero in H0f; [|done]. apply is_min_distance_zero in H1m; [|done].
    f_equal. f_equal. lia.
Qed.

Lemma any_overlap_IndexError (proband_CIs : list Interval) (n : nat)
    (parent_CIs : list Interval) :
  proband_CIs !! n = None → parent_CIs ≠ [] →
  any_overlap proband_CIs n parent_CIs = Raise IndexError.
Proof.
  intros Hn Hne. destruct parent_CIs as [|c cs]; [done|].
  unfold any_overlap, py_index. simpl. by rewrite Hn.
Qed.

Lemma compute_min_distance_mendelian_is_Ok (p : string) (alleles : list string) (d : Z) :
  compute_min_distance_mendelian (VStr p) (VStr <$> alleles) = Ok d →
  ∃ z zs, int_of_str p = Some z ∧ alleles_read alleles zs ∧ alleles ≠ [].
Proof.
  intros (z & zs & Hz%py_int_VStr & Hzs & [Hin _])%compute_min_distance_mendelian_Ok.
  exists z, zs. split_and!; [done..|]. intros ->.
  inversion Hzs; subst. by apply elem_of_nil in Hin.
Qed.

(** X6. With confidence intervals present for the three individuals, the
    flags and distances fail with [IndexError] in exactly one situation: the
    proband has two alleles, which read as integers like those of the parents,
    but a single confidence interval. *)
Theorem one_interval_for_two_alleles_raises_IndexError
    (pa fa ma : list string) (pcis fcis mcis : list Interval) :
  pcis ≠ [] → fcis ≠ [] → mcis ≠ [] →
  mendelian_consistency pa fa ma pcis fcis mcis = Raise IndexError ↔
  ∃ p0 p1 c0 z0 z1 zf zm,
    pa = [p0; p1] ∧ pcis = [c0]
    ∧ int_of_str p0 = Some z0 ∧ int_of_str p1 = Some z1
    ∧ alleles_read fa zf ∧ alleles_read ma zm ∧ fa ≠ [] ∧ ma ≠ [].
Proof.
  intros Hp Hf Hm. split.
  - intros H. destruct pa as [|p0 [|p1 [|p2 pa]]]; [done| | |done].
    + exfalso. pose proof H as H'. unfold mendelian_consistency in H.
      destruct (compute_min_distance_mendelian (VStr p0) (VStr <$> fa)) as [d_f|e] eqn:Hdf;
        simpl in H;
        [|injection H as ->; by apply compute_min_distance_mendelian_ValueError in Hdf].
      destruct (compute_min_distance_mendelian (VStr p0) (VStr <$> ma)) as [d_m|e] eqn:Hdm;
        simpl in H;
        [|injection H as ->; by apply compute_min_distance_mendelian_ValueError in Hdm].
      apply compute_min_distance_mendelian_is_Ok in Hdf as (z0 & zf & ? & ? & ?).
      apply compute_min_distance_mendelian_is_Ok in Hdm as (? & zm & ? & ? & ?).
      destruct (mendelian_consistency_one_total p0 fa ma z0 zf zm pcis fcis mcis)
        as (ok & d & okci & dci & Hret); [done..|].
      congruence.
    + pose proof H as H'. unfold mendelian_consistency in H.
      destruct (compute_min_distance_mendelian (VStr p0) (VStr <$> fa)) as [d0_f|e] eqn:H0f;
        simpl in H;
        [|injection H as ->; by apply compute_min_distance_mendelian_ValueError in H0f].
      destruct (compute_min_distance_mendelian (VStr p1) (VStr <$> ma)) as [d1_m|e] eqn:H1m;
        simpl in H;
        [|injection H as ->; by apply compute_min_distance_mendelian_ValueError in H1m].
      apply compute_min_distance_mendelian_is_Ok in H0f as (z0 & zf & ? & ? & ?).
      apply compute_min_distance_mendelian_is_Ok in H1m as (z1 & zm & ? & ? & ?).
      destruct pcis as [|c0 [|c1 pcis]]; [done| |].
      * exists p0, p1, c0, z0, z1, zf, zm. done.
      * exfalso.
        destruct (mendelian_consistency_two_total p0 p1 fa ma z0 z1 zf zm
                    (c0 :: c1 :: pcis) fcis mcis)
          as (ok & d & okci & dci & Hret); [done..|simpl; lia|done|done|].
        congruence.
  - intros (p0 & p1 & c0 & z0 & z1 & zf & zm & -> & -> & Hz0 & Hz1 & Hzf & Hzm & Hfa & Hma).
    destruct (compute_min_distance_mendelian_alleles p0 fa z0 zf) as (d0_f & H0f & _); [done..|].
    destruct (compute_min_distance_mendelian_alleles p1 ma z1 zm) as (d1_m & H1m & _); [done..|].
    destruct (compute_min_distance_mendelian_alleles p1 fa z1 zf) as (d1_f & H1f & _); [done..|].
    destruct (compute_min_distance_mendelian_alleles p0 ma z0 zm) as (d0_m & H0m & _); [done..|].
    unfold mendelian_consistency. rewrite H0f, H1m, H1f, H0m. simpl.
    rewrite (any_overlap_Ok [c0] 0 c0 fcis) by done.
    rewrite (any_overlap_IndexError [c0] 1 mcis), (any_overlap_IndexError [c0] 1 fcis) by done.
    unfold py_or, py_and. simpl. by destruct (existsb (intervals_overlap c0) fcis).
Qed.

(** ** Fatal inputs *)

Lemma py_split_length (sep : ascii) (s : string) :
  length (py_split sep s) = S (count_char sep s).
Proof.
  induction s as [|c s IH]; [done|]. simpl.
  destruct (Ascii.eqb c sep); simpl; [by rewrite IH|].
  destruct (py_split sep s) as [|t ts]; [done | by rewrite <- IH].
Qed.

Lemma one_or_two_split (s : string) :
  one_or_two (py_split "/" s) = true ↔ (count_char "/" s < 2)%nat.
Proof.
  unfold one_or_two. rewrite bool_decide_eq_true, py_split_length. lia.
Qed.

(** X7. A trio in which the genotype of an individual names more than two
    alleles (its text holds two or more "/") stops the run with the
    [AssertionError] of the line that checks that individual, the proband
    first, then the father, then the mother; a trio whose proband has no
    genotype text stops it with [AttributeError]. *)
Theorem more_than_two_alleles_is_fatal
    (st : State) (p f m : Row) (gp gf gm : string) :
  Genotype p = Str gp → Genotype f = Str gf → Genotype m = Str gm →
  ((2 ≤ count_char "/" gp)%nat →
   score_trio parse_interval st (p, f, m) = Raise (AssertionError 224))
  ∧ ((count_char "/" gp < 2)%nat → (2 ≤ count_char "/" gf)%nat →
     score_trio parse_interval st (p, f, m) = Raise (AssertionError 225))
  ∧ ((count_char "/" gp < 2)%nat → (count_char "/" gf < 2)%nat →
     (2 ≤ count_char "/" gm)%nat →
     score_trio parse_interval st (p, f, m) = Raise (AssertionError 226))
  ∧ (∀ (st0 : State) (p' : Row),
       (∀ g, Genotype p' ≠ Str g) →
       score_trio parse_interval st0 (p', f, m) = Raise AttributeError).
Proof.
  intros Hp Hf Hm.
  assert (Hyes : ∀ g, (count_char "/" g < 2)%nat → one_or_two (py_split "/" g) = true)
    by (intros g; apply one_or_two_split).
  assert (Hno : ∀ g, (2 ≤ count_char "/" g)%nat → one_or_two (py_split "/" g) = false).
  { intros g Hg. apply not_true_is_false. rewrite one_or_two_split. lia. }
  split_and!.
  - intros Hgp. unfold score_trio. rewrite Hp, Hf, Hm. simpl. by rewrite (Hno gp).
  - intros Hgp Hgf. unfold score_trio. rewrite Hp, Hf, Hm. simpl.
    rewrite (Hyes gp) by done. simpl. by rewrite (Hno gf).
  - intros Hgp Hgf Hgm. unfold score_trio. rewrite Hp, Hf, Hm. simpl.
    rewrite (Hyes gp), (Hyes gf) by done. simpl. by rewrite (Hno gm).
  - intros st0 p' Hmissing. unfold score_trio.
    destruct (Genotype p') as [g| |] eqn:Hg; [by destruct (Hmissing g) | done..].
Qed.

(** Whether an iteration returns or raises, and what it raises, does not
    depend on the state. *)
Lemma score_trio_Raise_any_state (st1 st2 : State) (trio : Trio) (e : exn) :
  score_trio parse_interval st1 trio = Raise e →
  score_trio parse_interval st2 trio = Raise e.
Proof.
  destruct trio as [[p f] m]. unfold score_trio.
  repeat match goal with
         | |- context [mbind _ ?c] =>
             lazymatch c with
             | context [st1] => fail
             | context [st2] => fail
             | _ => destruct c as [?|?]; simpl; [|done]
             end
         | |- context [match ?x with pair _ _ => _ end] => is_var x; destruct x
         end.
  done.
Qed.

(** X8. The loop stops at the first trio that cannot be scored:
    [compute_mendelian_violations] raises an exception exactly when the list
    has a trio that raises it while all the trios before it can be scored, and
    then no table is returned, whatever the trios after it are. *)
Theorem first_failing_trio_aborts (trio_rows : list Trio) (e : exn) :
  compute_mendelian_violations parse_interval trio_rows = Raise e ↔
  ∃ before trio after,
    trio_rows = before ++ trio :: after
    ∧ Forall (λ t, is_Ok (score_trio parse_interval initial_state t)) before
    ∧ score_trio parse_interval initial_state trio = Raise e.
Proof.
  unfold compute_mendelian_violations, compute_mendelian_violations_state.
  assert (Hgen : ∀ st, score_trios parse_interval st trio_rows = Raise e ↔
            ∃ before trio after,
              trio_rows = before ++ trio :: after
              ∧ Forall (λ t, is_Ok (score_trio parse_interval initial_state t)) before
              ∧ score_trio parse_interval initial_state trio = Raise e).
  { induction trio_rows as [|t trios IH]; intros st; simpl.
    - split; [done|]. intros (before & ? & ? & Heq & _). by destruct before.
    - rewrite bind_Raise. split.
      + intros [Hhere|(st1 & Hstep & Hrest)].
        * exists [], t, trios. split_and!; [done | constructor|].
          by apply (score_trio_Raise_any_state st).
        * apply IH in Hrest as (before & trio & after & -> & Hall & Htrio).
          exists (t :: before), trio, after. split_and!; [done| |done].
          constructor; [|done]. by eapply score_trio_any_state.
      + intros (before & trio & after & Heq & Hall & Htrio).
        destruct before as [|t' before]; simpl in Heq; injection Heq as -> ->.
        * left. by apply (score_trio_Raise_any_state initial_state).
        * apply Forall_cons in Hall as [[st0 Ht] Hall].
          destruct (score_trio_any_state _ initial_state st st0 t' Ht) as [st1 Hst1].
          right. exists st1. split; [done|]. apply IH. eauto 10. }
  specialize (Hgen initial_state). rewrite <- Hgen.
  destruct (score_trios parse_interval initial_state trio_rows); simpl; split; congruence.
Qed.

(** ** The result table and the diagnostics *)

Lemma score_trio_describes (st st' : State) (p f m : Row) :
  score_trio parse_interval st (p, f, m) = Ok st' →
  ∃ row, results_rows st' = results_rows st ++ [row]
         ∧ row_describes (p, f, m) row
         ∧ ViolationRow.MendelianViolationSummary row = summary_of row.
Proof.
  unfold score_trio. intros H. inv_bind H. injection H as <-.
  repeat match goal with
         | H : split_genotype _ = Ok _ |- _ => apply split_genotype_Ok in H as [? ->]
         end.
  eexists. split; [reflexivity|]. split.
  - simpl. split_and!; done.
  - reflexivity.
Qed.

(** One iteration, in terms of the row it adds. *)
Lemma score_trio_step (st st' : State) (p f m : Row) :
  score_trio parse_interval st (p, f, m) = Ok st' →
  ∃ row,
    results_rows st' = results_rows st ++ [row]
    ∧ row_describes (p, f, m) row
    ∧ ViolationRow.MendelianViolationSummary row = summary_of row
    ∧ counters_ci st'
      = (if ViolationRow.IsMendelianViolationCI row
         then increment (counter_key p) (counters_ci st) else counters_ci st)
    ∧ results st'
      = (if ViolationRow.IsMendelianViolation row
         then results st ++ [ViolationRow.mendelian_results_string row] else results st)
    ∧ results_ci st'
      = (if ViolationRow.IsMendelianViolationCI row
         then results_ci st ++ [ViolationRow.mendelian_ci_results_string row]
         else results_ci st).
Proof.
  intros H. pose proof H as (row & Hrows & Hdesc & Hsum)%score_trio_describes.
  apply score_trio_Ok in H as (o & Ho & ->).
  destruct Ho as (_ & _ & _ & _ & _ & _ & _ & _ & _ & _ & _ & Hv & Hvci & _).
  simpl in Hrows. apply app_inj_tail in Hrows as [_ <-].
  exists (o_row o). split_and!; [done | exact Hdesc | exact Hsum | | |];
    rewrite ?Hv, ?Hvci; simpl;
    by destruct (o_ok_mendelian o), (o_ok_mendelian_ci o).
Qed.

(** The loop, from any state, in terms of the rows it adds. *)
Lemma score_trios_rows (trios : list Trio) (st st' : State) :
  score_trios parse_interval st trios = Ok st' →
  ∃ rows,
    results_rows st' = results_rows st ++ rows
    ∧ Forall2 row_describes trios rows
    ∧ Forall (λ row, ViolationRow.MendelianViolationSummary row = summary_of row) rows
    ∧ total (counters_ci st') = total (counters_ci st) + violations_ci rows
    ∧ results st'
      = results st
        ++ (ViolationRow.mendelian_results_string
              <$> filter (λ row, ViolationRow.IsMendelianViolation row = true) rows)
    ∧ results_ci st'
      = results_ci st
        ++ (ViolationRow.mendelian_ci_results_string
              <$> filter (λ row, ViolationRow.IsMendelianViolationCI row = true) rows).
Proof.
  revert st. induction trios as [|[[p f] m] trios IH]; intros st; simpl.
  - intros [= <-]. exists []. rewrite !app_nil_r.
    split_and!; [done | constructor | constructor | unfold violations_ci; simpl; lia | done..].
  - intros (st1 & Hstep & Hrest)%bind_Ok.
    apply score_trio_step in Hstep as (row & Hrow & Hdesc & Hsum & Hci & Hres & Hresci).
    apply IH in Hrest as (rows & Hrows & Hall & Hsums & Htotal & Hresults & Hresults_ci).
    exists (row :: rows). split_and!.
    + by rewrite Hrows, Hrow, <- app_assoc.
    + by constructor.
    + by constructor.
    + rewrite Htotal, Hci. unfold violations_ci. rewrite filter_cons.
      destruct (ViolationRow.IsMendelianViolationCI row); simpl.
      * rewrite total_increment. lia.
      * lia.
    + rewrite Hresults, Hres, filter_cons.
      destruct (ViolationRow.IsMendelianViolation row); simpl; [|done].
      by rewrite <- app_assoc.
    + rewrite Hresults_ci, Hresci, filter_cons.
      destruct (ViolationRow.IsMendelianViolationCI row); simpl; [|done].
      by rewrite <- app_assoc.
Qed.

(** X9. When the loop has run, the confidence-interval counters sum to the
    number of rows whose [IsMendelianViolationCI] is true, and the two lists of
    diagnostic strings hold, in table order, the exact diagnostic of every row
    that is an exact violation and the confidence-interval diagnostic of every
    row that is a confidence-interval violation, and nothing else. *)
Theorem diagnostics_list_the_violating_rows (trio_rows : list Trio) (st : State) :
  compute_mendelian_violations_state parse_interval trio_rows = Ok st →
  total (counters_ci st) = violations_ci (results_rows st)
  ∧ results st
    = ViolationRow.mendelian_results_string
        <$> filter (λ row, ViolationRow.IsMendelianViolation row = true) (results_rows st)
  ∧ results_ci st
    = ViolationRow.mendelian_ci_results_string
        <$> filter (λ row, ViolationRow.IsMendelianViolationCI row = true) (results_rows st)
  ∧ Z.of_nat (length (results st)) = total (counters st)
  ∧ Z.of_nat (length (results_ci st)) = total (counters_ci st).
Proof.
  intros Hret. unfold compute_mendelian_violations_state in Hret.
  pose proof Hret as (rows' & Hrows' & _ & Htotal' & _)%score_trios_Ok.
  apply score_trios_rows in Hret as (rows & Hrows & _ & _ & Htotal & Hres & Hresci).
  simpl in *. subst rows rows'.
  assert (total ∅ = 0) as Hempty by (unfold total; apply map_fold_empty).
  rewrite Hempty in Htotal, Htotal'.
  split_and!; [done | done | done | |].
  - rewrite Hres, length_fmap, Htotal'. unfold violations. lia.
  - rewrite Hresci, length_fmap, Htotal. unfold violations_ci. lia.
Qed.

(** X10. The result table follows the list of trios: it has one row per
    trio, in the order of the list, and the row of a trio carries the sample
    identifiers, the genotype and confidence-interval text of its three
    individuals and the locus, variant, reference region and repeat unit of its
    proband (those of the parents are not looked at). *)
Theorem result_rows_follow_trios (trio_rows : list Trio) (st : State) :
  compute_mendelian_violations_state parse_interval trio_rows = Ok st →
  Forall2 row_describes trio_rows (results_rows st)
  ∧ compute_mendelian_violations parse_interval trio_rows = Ok (results_rows st).
Proof.
  intros Hret. unfold compute_mendelian_violations. rewrite Hret. split; [|done].
  apply score_trios_rows in Hret as (rows & Hrows & Hall & _).
  simpl in Hrows. by subst rows.
Qed.

(** X11. The summary of a row is decided by its two flags, the
    confidence-interval flag first: it is "MV-CI!" exactly for the
    confidence-interval violations, "MV" exactly for the exact violations that
    are not confidence-interval violations, and "ok" exactly for the rows that
    are neither; so a row marked "MV-CI!" does not say whether it is an exact
    violation too. *)
Theorem summary_follows_the_flags (trio_rows : list Trio) (st : State) :
  compute_mendelian_violations_state parse_interval trio_rows = Ok st →
  ∀ row, row ∈ results_rows st →
    (ViolationRow.MendelianViolationSummary row = "MV-CI!" ↔
     ViolationRow.IsMendelianViolationCI row = true)
    ∧ (ViolationRow.MendelianViolationSummary row = "MV" ↔
       ViolationRow.IsMendelianViolationCI row = false
       ∧ ViolationRow.IsMendelianViolation row = true)
    ∧ (ViolationRow.MendelianViolationSummary row = "ok" ↔
       ViolationRow.IsMendelianViolationCI row = false
       ∧ ViolationRow.IsMendelianViolation row = false).
Proof.
  intros Hret row Hin.
  apply score_trios_rows in Hret as (rows & Hrows & _ & Hsum & _).
  simpl in Hrows. subst rows.
  eapply Forall_forall in Hsum; [|done]. rewrite Hsum. unfold summary_of.
  destruct (ViolationRow.IsMendelianViolationCI row),
    (ViolationRow.IsMendelianViolation row); split_and!; split; try done;
    intros [? ?]; done.
Qed.

End FurtherScoring.

(** ** Which record answers for a parent *)

Lemma cache_from_unchanged (df : list Row) (all_rows : gmap row_key Row) (k : row_key) :
  (∀ r : Row, r ∈ df → Genotype r ≠ PyNone →
     k ≠ (SampleId r, LocusId r, VariantId r)
     ∧ k ≠ (Filename r, LocusId r, VariantId r)) →
  foldl (λ all_rows (row : Row),
           match Genotype row with
           | PyNone => all_rows
           | _ => <[(Filename row, LocusId row, VariantId row) := row]>
                    (<[(SampleId row, LocusId row, VariantId row) := row]> all_rows)
           end) all_rows df !! k
  = all_rows !! k.
Proof.
  revert all_rows. induction df as [|row df IH]; intros all_rows Hno; simpl; [done|].
  rewrite IH by (intros r Hr; apply Hno; by right).
  destruct (Genotype row) eqn:Hrow; [| |done].
  all: rewrite cache_step_lookup by congruence.
  all: case_decide as Hd; [|done].
  all: destruct (Hno row) as [? ?]; [left | congruence | tauto].
Qed.

Lemma cache_rows_last (before after : list Row) (r : Row) (k : row_key) :
  Genotype r ≠ PyNone →
  k = (SampleId r, LocusId r, VariantId r) ∨ k = (Filename r, LocusId r, VariantId r) →
  (∀ r' : Row, r' ∈ after → Genotype r' ≠ PyNone →
     k ≠ (SampleId r', LocusId r', VariantId r')
     ∧ k ≠ (Filename r', LocusId r', VariantId r')) →
  cache_rows (before ++ r :: after) !! k = Some r.
Proof.
  intros Hg Hk Hafter. unfold cache_rows. rewrite foldl_app. simpl.
  rewrite cache_from_unchanged by done.
  destruct (Genotype r) eqn:Hr; [| |done].
  all: rewrite cache_step_lookup by congruence.
  all: rewrite decide_True by tauto; done.
Qed.

(** X12. When several records of the table answer to a parent identifier
    at the locus and variant of a row (by their sample id or by their file
    name), the lookup returns the last of them in table order; so a candidate
    whose father and mother each have a last such record is emitted as a trio
    with exactly those two records. *)
Theorem parent_lookup_returns_last_record
    (df before after : list Row) (parent_id : cell) (row parent : Row) :
  df = before ++ parent :: after →
  is_record_for parent_id row parent →
  (∀ r, r ∈ after → ¬ is_record_for parent_id row r) →
  get_parent (cache_rows df) parent_id row = Some parent
  ∧ (∀ (mother_id' : cell) (mother : Row) (before' after' : list Row),
       row ∈ df → is_candidate row →
       parent_id = father_id row → mother_id' = mother_id row →
       df = before' ++ mother :: after' →
       is_record_for mother_id' row mother →
       (∀ r, r ∈ after' → ¬ is_record_for mother_id' row r) →
       (row, parent, mother) ∈ fst (group_rows_by_trio df)).
Proof.
  intros Hdf Hrec Hlast.
  assert (Hlookup : ∀ df before after parent_id parent,
            df = before ++ parent :: after →
            is_record_for parent_id row parent →
            (∀ r, r ∈ after → ¬ is_record_for parent_id row r) →
            get_parent (cache_rows df) parent_id row = Some parent).
  { clear. intros df before after parent_id parent -> (Hg & Hl & Hv & Hid) Hlast.
    assert (∃ s, parent_id = Str s) as [s ->] by (destruct Hid; eauto).
    unfold get_parent. apply cache_rows_last; [done | |].
    - rewrite Hl, Hv. destruct Hid as [[= ->]|[= ->]]; auto.
    - intros r' Hr' Hg'. split; intros [= -> Hl' Hv'];
        apply (Hlast r' Hr'); unfold is_record_for; auto. }
  split; [by eapply Hlookup|].
  intros mother_id' mother before' after' Hin Hc -> -> Hdf' Hrec' Hlast'.
  rewrite group_rows_by_trio_eq. simpl.
  apply list_elem_of_omap. exists row. split.
  - by apply list_elem_of_filter.
  - apply trio_of_Some. exists parent, mother.
    split_and!; [done | by eapply Hlookup | by eapply Hlookup].
Qed.

(** ** The pedigree table that is returned *)

Lemma drop_duplicates_from_sublist `{EqDecision A} (seen rows : list A) :
  drop_duplicates_from seen rows `sublist_of` rows.
Proof.
  revert seen. induction rows as [|r rows IH]; intros seen; simpl; [done|].
  case_bool_decide; [by apply sublist_cons | by apply sublist_skip].
Qed.

Lemma drop_duplicates_from_id `{EqDecision A} (seen rows : list A) :
  NoDup rows → (∀ x, x ∈ rows → x ∉ seen) → drop_duplicates_from seen rows = rows.
Proof.
  revert seen. induction rows as [|r rows IH]; intros seen Hnd Hseen; simpl; [done|].
  apply NoDup_cons in Hnd as [Hr Hnd].
  rewrite bool_decide_eq_false_2 by (apply Hseen; left). f_equal.
  apply IH; [done|]. intros x Hx [->|Hs]%elem_of_cons; [done|].
  apply (Hseen x); [by right | done].
Qed.

(** X13. When [parse_fam_file] returns, the table it returns holds each
    (individual, father, mother) triple of the file once, in the order of the
    file, and no individual twice; a file without repeated triples is returned
    as it is. *)
Theorem parse_fam_file_returns_a_keyed_table (fam : list FamRow) (ped : list Pedigree) :
  parse_fam_file fam = Ok ped →
  NoDup ped
  ∧ NoDup (individual_id <$> ped)
  ∧ (∀ x, x ∈ ped ↔ x ∈ pedigree_of <$> fam)
  ∧ ped `sublist_of` (pedigree_of <$> fam)
  ∧ (NoDup (pedigree_of <$> fam) → ped = pedigree_of <$> fam)
  ∧ (∀ r1 r2, r1 ∈ fam → r2 ∈ fam →
       fam_individual_id r1 = fam_individual_id r2 →
       pedigree_of r1 = pedigree_of r2).
Proof.
  unfold parse_fam_file. intros (u & Hcheck & [= <-])%bind_Ok.
  destruct u. apply check_for_duplicate_keys_Ok in Hcheck.
  fold (pedigree_of) in Hcheck.
  change (map (λ r, mkPedigree (fam_individual_id r) (fam_father_id r) (fam_mother_id r)) fam)
    with (pedigree_of <$> fam) in *.
  split_and!.
  - apply drop_duplicates_NoDup.
  - done.
  - intros x. apply drop_duplicates_elem.
  - apply drop_duplicates_from_sublist.
  - intros Hnd. apply drop_duplicates_from_id; [done|]. by intros x _ ?%elem_of_nil.
  - intros r1 r2 Hr1 Hr2 Hid. destruct (decide (pedigree_of r1 = pedigree_of r2)); [done|].
    exfalso. revert Hcheck. apply repeated_key; [apply drop_duplicates_NoDup|].
    exists (pedigree_of r1), (pedigree_of r2). split_and!; [| |done|done].
    + apply drop_duplicates_elem, list_elem_of_fmap. eauto.
    + apply drop_duplicates_elem, list_elem_of_fmap. eauto.
Qed.

(** ** The files that [main] writes *)

Lemma String_length_app (s t : string) :
  String.length (s +:+ t) = (String.length s + String.length t)%nat.
Proof. induction s as [|c s IH]; simpl; [done | by rewrite IH]. Qed.

Lemma re_sub_tsv_cons (c : ascii) (s : string) :
  re_sub_tsv (String c s)
  = match tsv_match (String c s) with
    | Some rest => rest
    | None => String c (re_sub_tsv s)
    end.
Proof. reflexivity. Qed.

(** The pattern matches a character other than a line feed followed by
    "tsv" and nothing else, or by a last line feed, which is left. *)
Lemma tsv_match_Some (s rest : string) :
  tsv_match s = Some rest ↔
  ∃ c, c ≠ newline
       ∧ ((s = String c "tsv" ∧ rest = "")
          ∨ (s = String c ("tsv" +:+ String newline "") ∧ rest = String newline "")).
Proof.
  destruct s as [|c s]; simpl.
  - split; [done|]. intros (c & _ & [[? _]|[? _]]); done.
  - destruct (Ascii.eqb_spec c newline) as [->|Hc].
    { split; [done|]. intros (c & Hc & [[[= <- _] _]|[[= <- _] _]]); done. }
    destruct (String.eqb_spec s "tsv") as [->|Hs].
    { split.
      - intros [= <-]. exists c. auto.
      - intros (c' & _ & [[_ ->]|[[= _ ?] _]]); done. }
    destruct (String.eqb_spec s ("tsv" +:+ String newline "")) as [->|Hs'].
    { split.
      - intros [= <-]. exists c. auto.
      - intros (c' & _ & [[[= _ ?] _]|[_ ->]]); done. }
    split; [done|]. intros (c' & _ & [[[= _ ?] _]|[[= _ ?] _]]); done.
Qed.

Lemma tsv_match_longer (b c : ascii) (base tail : string) :
  (3 ≤ String.length tail)%nat →
  tail ≠ "sv" +:+ String newline "" →
  tsv_match (String b (base +:+ String c tail)) = None.
Proof.
  intros Hlen Htail.
  destruct (tsv_match (String b (base +:+ String c tail))) as [rest|] eqn:Hm; [|done].
  exfalso. apply tsv_match_Some in Hm as (c' & _ & [[[= _ Heq] _]|[[= _ Heq] _]]).
  - apply (f_equal String.length) in Heq. rewrite String_length_app in Heq.
    simpl in Heq. lia.
  - pose proof (f_equal String.length Heq) as Hl. rewrite String_length_app in Hl.
    simpl in Hl. destruct base; [|simpl in Hl; lia].
    simpl in Heq. injection Heq as _ Heq. done.
Qed.

Lemma re_sub_tsv_suffix (base : string) (c : ascii) :
  c ≠ newline → re_sub_tsv (base +:+ String c "tsv") = base.
Proof.
  intros Hc. induction base as [|b base IH].
  - simpl. destruct (Ascii.eqb_spec c newline); done.
  - change (String b base +:+ String c "tsv") with (String b (base +:+ String c "tsv")).
    rewrite re_sub_tsv_cons, tsv_match_longer, IH; [done | simpl; lia | done].
Qed.

Lemma re_sub_tsv_suffix_newline (base : string) (c : ascii) :
  c ≠ newline →
  re_sub_tsv (base +:+ String c ("tsv" +:+ String newline "")) = base +:+ String newline "".
Proof.
  intros Hc. induction base as [|b base IH].
  - simpl. destruct (Ascii.eqb_spec c newline); done.
  - change (String b base +:+ ?s) with (String b (base +:+ s)).
    rewrite re_sub_tsv_cons, tsv_match_longer, IH; [done | simpl; lia | done].
Qed.

Lemma re_sub_tsv_other (s : string) :
  (∀ base c, c ≠ newline →
     s ≠ base +:+ String c "tsv"
     ∧ s ≠ base +:+ String c ("tsv" +:+ String newline "")) →
  re_sub_tsv s = s.
Proof.
  induction s as [|b s IH]; intros Hno; [done|].
  rewrite re_sub_tsv_cons.
  destruct (tsv_match (String b s)) as [rest|] eqn:Hm.
  - apply tsv_match_Some in Hm as (c & Hc & [[Hs _]|[Hs _]]);
      destruct (Hno "" c Hc); done.
  - f_equal. apply IH. intros base c Hc.
    destruct (Hno (String b base) c Hc) as [H1 H2].
    split; intros ->; [by apply H1 | by apply H2].
Qed.

Lemma re_sub_tsv_length (s : string) :
  (String.length s ≤ String.length (re_sub_tsv s) + 4)%nat.
Proof.
  induction s as [|b s IH]; [simpl; lia|].
  rewrite re_sub_tsv_cons.
  destruct (tsv_match (String b s)) as [rest|] eqn:Hm.
  - apply tsv_match_Some in Hm as (c & Hc & [[-> ->]|[-> ->]]); simpl; lia.
  - simpl. lia.
Qed.

Section MainProperties.
Variable parse_interval : string → result (string * Z * Z).

Lemma main_Ok (path : string) (calls : list Call) (fam : list FamRow)
    (out : (string * list ViolationRow.t) * (string * list Row)) :
  main parse_interval path calls fam = Ok out →
  ∃ ped,
    NoDup (call_key <$> calls)
    ∧ parse_fam_file fam = Ok ped
    ∧ compute_mendelian_violations parse_interval
        (group_rows_by_trio (join_fam calls ped)).1 = Ok out.1.2
    ∧ out.2.2 = (group_rows_by_trio (join_fam calls ped)).2
    ∧ out.1.1 = re_sub_tsv path +:+ ".mendelian_violations.tsv"
    ∧ out.2.1 = re_sub_tsv path +:+ ".non_trio_rows.tsv".
Proof.
  unfold main. intros (calls' & Hcalls & H)%bind_Ok.
  apply bind_Ok in H as (ped & Hped & H).
  destruct (group_rows_by_trio (join_fam calls' ped)) as [trio_rows other_rows] eqn:Hg.
  apply bind_Ok in H as (vs & Hvs & [= <-]).
  destruct (decide (NoDup (call_key <$> calls))) as [Hnd|Hnd].
  - rewrite parse_combined_str_calls_tsv_path_Ok in Hcalls by done.
    injection Hcalls as <-. exists ped. rewrite Hg. by split_and!.
  - assert (parse_combined_str_calls_tsv_path calls = Raise ValueError) as Hr
      by by apply parse_combined_str_calls_tsv_path_Raise.
    congruence.
Qed.

(** X14. The two output paths are the path of the calls table with a
    final "tsv" and the character before it removed -- any character but a
    line feed, not only a dot -- followed by [.mendelian_violations.tsv] and
    [.non_trio_rows.tsv]; a path that does not end so is kept whole, and one
    that ends so before a last line feed keeps the line feed. The two paths
    differ from each other and from the path of the calls table, which is
    therefore never overwritten. *)
Theorem output_paths_replace_a_final_tsv
    (path : string) (calls : list Call) (fam : list FamRow)
    (p1 p2 : string) (vs : list ViolationRow.t) (others : list Row) :
  main parse_interval path calls fam = Ok ((p1, vs), (p2, others)) →
  (∀ base c, c ≠ newline → path = base +:+ String c "tsv" →
     p1 = base +:+ ".mendelian_violations.tsv" ∧ p2 = base +:+ ".non_trio_rows.tsv")
  ∧ (∀ base c, c ≠ newline → path = base +:+ String c ("tsv" +:+ String newline "") →
       p1 = (base +:+ String newline "") +:+ ".mendelian_violations.tsv"
       ∧ p2 = (base +:+ String newline "") +:+ ".non_trio_rows.tsv")
  ∧ ((∀ base c, c ≠ newline →
        path ≠ base +:+ String c "tsv"
        ∧ path ≠ base +:+ String c ("tsv" +:+ String newline "")) →
     p1 = path +:+ ".mendelian_violations.tsv" ∧ p2 = path +:+ ".non_trio_rows.tsv")
  ∧ p1 ≠ p2 ∧ p1 ≠ path ∧ p2 ≠ path.
Proof.
  intros (ped & _ & _ & _ & _ & Hp1 & Hp2)%main_Ok. simpl in Hp1, Hp2. subst p1 p2.
  pose proof (re_sub_tsv_length path) as Hlen.
  split_and!.
  - intros base c Hc ->. by rewrite re_sub_tsv_suffix.
  - intros base c Hc ->. by rewrite re_sub_tsv_suffix_newline.
  - intros Hno. by rewrite re_sub_tsv_other.
  - intros Heq%(f_equal String.length). rewrite !String_length_app in Heq.
    simpl in Heq. lia.
  - intros Heq%(f_equal String.length). rewrite !String_length_app in Heq.
    simpl in Heq. lia.
  - intros Heq%(f_equal String.length). rewrite !String_length_app in Heq.
    simpl in Heq. lia.
Qed.

End MainProperties.

(** ** The tables that [main] writes *)

Lemma NoDup_fmap_elem_eq {A B} (f : A → B) (l : list A) (x y : A) :
  NoDup (f <$> l) → x ∈ l → y ∈ l → f x = f y → x = y.
Proof.
  induction l as [|a l IH]; [by intros _ ?%elem_of_nil|].
  rewrite fmap_cons, NoDup_cons.
  intros [Hna Hnd] [->|Hx]%elem_of_cons [->|Hy]%elem_of_cons Heq.
  - done.
  - exfalso. apply Hna. rewrite Heq. apply list_elem_of_fmap. eauto.
  - exfalso. apply Hna. rewrite <- Heq. apply list_elem_of_fmap. eauto.
  - by apply IH.
Qed.

Lemma parse_fam_file_inv (fam : list FamRow) (ped : list Pedigree) :
  parse_fam_file fam = Ok ped →
  NoDup (individual_id <$> ped) ∧ ∀ x, x ∈ ped ↔ x ∈ pedigree_of <$> fam.
Proof.
  unfold parse_fam_file. intros (u & Hcheck & [= <-])%bind_Ok.
  destruct u. apply check_for_duplicate_keys_Ok in Hcheck.
  split; [done|]. intros x. apply drop_duplicates_elem.
Qed.

Lemma join_fam_call (calls : list Call) (ped : list Pedigree) :
  call <$> join_fam calls ped = calls.
Proof.
  unfold join_fam. induction calls as [|c calls IH]; [done|].
  rewrite map_cons, fmap_cons, IH. f_equal.
  by destruct (find _ ped).
Qed.

(** The candidates of the joined table are the calls of the samples for
    which the pedigree names both parents, with the parents it names. *)
Lemma join_fam_candidates (fam : list FamRow) (ped : list Pedigree) (calls : list Call) :
  parse_fam_file fam = Ok ped →
  call <$> filter is_candidate (join_fam calls ped) = filter (pedigree_child fam) calls
  ∧ Forall (pedigree_entry fam) (filter is_candidate (join_fam calls ped)).
Proof.
  intros [Hnd Hel]%parse_fam_file_inv.
  unfold join_fam. induction calls as [|c calls [IH1 IH2]]; [split; [done | constructor]|].
  rewrite map_cons, !filter_cons.
  destruct (find _ ped) as [p|] eqn:Hfind.
  - apply find_some in Hfind as [Hin%list_elem_of_In Hid%bool_decide_eq_true].
    pose proof Hin as (r & -> & Hr)%Hel%list_elem_of_fmap. simpl in Hid.
    case_decide as Hc.
    + unfold is_candidate in Hc. simpl in Hc.
      apply andb_true_iff in Hc as [Hf%negb_true_iff Hm%negb_true_iff].
      rewrite decide_True.
      * split; [rewrite fmap_cons; simpl; by f_equal|].
        constructor; [|done]. exists r. by split_and!.
      * apply Exists_exists. exists r. by split_and!.
    + rewrite decide_False; [done|].
      intros (r' & Hr' & Hid' & Hf & Hm)%Exists_exists. apply Hc.
      assert (pedigree_of r' = pedigree_of r) as Heq.
      { apply (NoDup_fmap_elem_eq individual_id ped); [done | | done |].
        - apply Hel, list_elem_of_fmap. eauto.
        - simpl. congruence. }
      injection Heq as _ Hf' Hm'. unfold is_candidate. simpl.
      by rewrite <- Hf', <- Hm', Hf, Hm.
  - rewrite decide_False by (unfold is_candidate; simpl; done).
    rewrite decide_False; [done|].
    intros (r' & Hr' & Hid' & _)%Exists_exists.
    pose proof (find_none _ _ Hfind (pedigree_of r')) as Hnone.
    simpl in Hnone. rewrite bool_decide_eq_true_2 in Hnone by done.
    specialize (Hnone ltac:(apply list_elem_of_In, Hel, list_elem_of_fmap; eauto)).
    done.
Qed.

Section MainTables.
Variable parse_interval : string → result (string * Z * Z).

(** X15. When [main] returns, every call of a sample for which the
    pedigree file names both a father and a mother is written once, to exactly
    one of the two files: as the proband of a row of the violations table, or
    as a row of the non-trio table; each file keeps the order of the calls
    table. The calls of the other samples -- those the pedigree does not
    list, or lists with the father or the mother missing -- are in neither
    file as a proband or a non-trio row; an identifier such as "0" is text,
    not a missing cell. The parent identifiers of the rows written are those
    of the pedigree file, and the father and the mother of a row of the
    violations table are calls of the table. *)
Theorem main_writes_the_calls_of_pedigree_children
    (path : string) (calls : list Call) (fam : list FamRow)
    (p1 p2 : string) (vs : list ViolationRow.t) (others : list Row) :
  main parse_interval path calls fam = Ok ((p1, vs), (p2, others)) →
  ∃ trios : list Trio,
    Forall2 row_describes trios vs
    ∧ ((call ∘ proband) <$> trios) ++ (call <$> others)
      ≡ₚ filter (pedigree_child fam) calls
    ∧ ((call ∘ proband) <$> trios) `sublist_of` calls
    ∧ (call <$> others) `sublist_of` calls
    ∧ (length vs + length others)%nat = length (filter (pedigree_child fam) calls)
    ∧ Forall (pedigree_entry fam ∘ proband) trios
    ∧ Forall (pedigree_entry fam) others
    ∧ Forall (parents_from calls) trios.
Proof.
  intros (ped & _ & Hped & Hvs & Hothers & _)%main_Ok. simpl in Hvs, Hothers.
  rewrite group_rows_by_trio_eq in Hvs, Hothers. simpl in Hvs, Hothers.
  destruct (join_fam_candidates fam ped calls Hped) as [Hcands Hentries].
  pose proof (join_fam_call calls ped) as Hcalls.
  set (joined := join_fam calls ped) in *.
  set (cands := filter is_candidate joined) in *.
  set (trios := omap (trio_of (cache_rows joined)) cands) in *.
  assert (Hprobands : proband <$> trios = filter (parents_found (cache_rows joined)) cands)
    by apply proband_omap_trio_of.
  assert (Hdesc : Forall2 row_describes trios vs).
  { unfold compute_mendelian_violations in Hvs.
    destruct (compute_mendelian_violations_state parse_interval trios) as [st|] eqn:Hst;
      [|done].
    injection Hvs as <-. unfold compute_mendelian_violations_state in Hst.
    apply score_trios_rows in Hst as (rows & Hrows & Hall & _).
    simpl in Hrows. by subst rows. }
  assert (Hperm : ((call ∘ proband) <$> trios) ++ (call <$> others)
                  ≡ₚ filter (pedigree_child fam) calls).
  { rewrite list_fmap_compose, Hprobands, Hothers, <- fmap_app, <- Hcands.
    by rewrite filter_app_complement. }
  exists trios. split_and!.
  - done.
  - done.
  - rewrite list_fmap_compose, Hprobands.
    transitivity (call <$> cands); [apply fmap_sublist, sublist_filter|].
    rewrite Hcands. apply sublist_filter.
  - rewrite Hothers.
    transitivity (call <$> cands); [apply fmap_sublist, sublist_filter|].
    rewrite Hcands. apply sublist_filter.
  - rewrite <- Hperm, length_app, !length_fmap.
    by rewrite (Forall2_length _ _ _ Hdesc).
  - apply Forall_fmap. rewrite Hprobands.
    apply Forall_forall. intros row [_ Hrow]%list_elem_of_filter.
    by apply (proj1 (Forall_forall _ _) Hentries).
  - rewrite Hothers.
    apply Forall_forall. intros row [_ Hrow]%list_elem_of_filter.
    by apply (proj1 (Forall_forall _ _) Hentries).
  - apply Forall_forall. intros trio (row & Hrow & Htrio)%list_elem_of_omap.
    apply trio_of_Some in Htrio as (f & m & -> & Hf & Hm).
    apply get_parent_Some in Hf as [Hfin Hfrec].
    apply get_parent_Some in Hm as [Hmin Hmrec].
    simpl. split_and!; [| |done|done]; rewrite <- Hcalls; by apply list_elem_of_fmap_2.
Qed.

End MainTables.

(** ** The genotype summary flags *)

Lemma py_all_eqb (x : string) (l : list string) :
  py_all (String.eqb x) l = true ↔ ∀ a, a ∈ l → a = x.
Proof.
  unfold py_all. rewrite forallb_forall. split.
  - intros H a Ha%list_elem_of_In. symmetry. by apply String.eqb_eq, H.
  - intros H a Ha%list_elem_of_In. apply String.eqb_eq. symmetry. by apply H.
Qed.

Lemma one_or_two_inv {A} (l : list A) :
  one_or_two l = true → (∃ a, l = [a]) ∨ (∃ a b, l = [a; b]).
Proof.
  unfold one_or_two. rewrite bool_decide_eq_true.
  destruct l as [|a [|b [|c l]]]; simpl; intros [?|?]; try done; eauto.
Qed.

Lemma same_alleles_spec (pa fa ma : list string) :
  bool_decide (list_to_set pa =@{gset string} list_to_set ma)
  && bool_decide (list_to_set pa =@{gset string} list_to_set fa) = true
  ↔ ∀ a, (a ∈ pa ↔ a ∈ ma) ∧ (a ∈ pa ↔ a ∈ fa).
Proof.
  rewrite andb_true_iff, !bool_decide_eq_true, !set_eq.
  setoid_rewrite elem_of_list_to_set. split.
  - intros [Hm Hf] a. split; [apply Hm | apply Hf].
  - intros H. split; intros a; apply H.
Qed.

Section GenotypeFlags.
Variable parse_interval : string → result (string * Z * Z).

(** X16. A row flags [AllGenotypesAreTheSame] exactly when the three
    individuals have the same set of allele texts (order and repetition do
    not count: "17/20", "20/17" and "17/17", "17" are the same). Three
    genotypes that are all homozygous for the reference allele are the same,
    and a trio whose genotypes are the same is never an exact violation: its
    distance is 0. *)
Theorem identical_genotypes_are_consistent (st st' : State) (p f m : Row) :
  score_trio parse_interval st (p, f, m) = Ok st' →
  ∃ row,
    results_rows st' = results_rows st ++ [row]
    ∧ (ViolationRow.AllGenotypesAreTheSame row = true ↔
       ∀ a, (a ∈ alleles_of p ↔ a ∈ alleles_of m) ∧ (a ∈ alleles_of p ↔ a ∈ alleles_of f))
    ∧ (ViolationRow.AllGenotypesAreHomozygousReference row = true →
       ViolationRow.AllGenotypesAreTheSame row = true)
    ∧ (ViolationRow.AllGenotypesAreTheSame row = true →
       ViolationRow.IsMendelianViolation row = false
       ∧ ViolationRow.MendelianViolationDistance row = 0).
Proof.
  unfold score_trio. intros H. inv_bind H. injection H as <-.
  repeat match goal with
         | H : split_genotype _ = Ok _ |- _ => apply split_genotype_Ok in H as [? ->]
         | H : py_assert _ (one_or_two _) = Ok _ |- _ => apply py_assert_Ok in H
         end.
  eexists. split; [reflexivity|]. simpl.
  match goal with
  | Hc : mendelian_consistency _ _ _ _ _ _ = Ok (?ok, ?d, _, _),
    Ha : (if ?ok then _ else _) = Ok _,
    Hp : one_or_two (alleles_of p) = true,
    Hf : one_or_two (alleles_of f) = true,
    Hm : one_or_two (alleles_of m) = true |- _ =>
      rename Hc into Hcons; rename Ha into Hassert;
      rename Hp into Hpa; rename Hf into Hfa; rename Hm into Hma
  end.
  split_and!.
  - apply same_alleles_spec.
  - intros [[Hp Hm]%andb_true_iff Hf]%andb_true_iff.
    rewrite py_all_eqb in Hp, Hm, Hf.
    apply same_alleles_spec. intros a.
    apply one_or_two_inv in Hpa, Hfa, Hma.
    assert (∀ l : list string, ((∃ a, l = [a]) ∨ (∃ a b, l = [a; b])) →
              ∃ b, b ∈ l) as Hne
      by (intros l [[a1 ->]|(a1 & a2 & ->)]; exists a1; left).
    destruct (Hne _ Hpa) as [bp Hbp], (Hne _ Hfa) as [bf Hbf], (Hne _ Hma) as [bm Hbm].
    pose proof (Hp _ Hbp). pose proof (Hf _ Hbf). pose proof (Hm _ Hbm). subst.
    split; split; intros Ha.
    + by rewrite (Hp _ Ha).
    + by rewrite (Hm _ Ha).
    + by rewrite (Hp _ Ha).
    + by rewrite (Hf _ Ha).
  - intros Hsame. pose proof (proj1 (same_alleles_spec _ _ _) Hsame) as Hsame'.
    clear Hsame. rename Hsame' into Hsame.
    match type of Hcons with
    | mendelian_consistency _ _ _ _ _ _ = Ok (?ok, _, _, _) =>
        assert (ok = true) as ->
    end.
    { apply one_or_two_inv in Hpa as [[p0 Hp0]|(p0 & p1 & Hp0)]; rewrite Hp0 in Hcons, Hsame.
      - apply mendelian_consistency_one in Hcons as [-> _].
        apply orb_true_iff. left. apply py_in_true, Hsame. left.
      - apply mendelian_consistency_two in Hcons as [-> _].
        apply orb_true_iff. left. apply andb_true_iff.
        split; apply py_in_true, Hsame; [left | right; left]. }
    split; [done|]. apply py_assert_Ok in Hassert. lia.
Qed.

Lemma score_trios_each (trios : list Trio) (st st' : State) :
  score_trios parse_interval st trios = Ok st' →
  Forall (λ trio, is_Ok (score_trio parse_interval initial_state trio)) trios.
Proof.
  revert st. induction trios as [|trio trios IH]; intros st; simpl; [constructor|].
  intros (st1 & Hstep & Hrest)%bind_Ok. constructor; [|by eapply IH].
  by eapply score_trio_any_state.
Qed.

(** X18. A missing genotype is not skipped: a trio in which the genotype
    of the proband, the father or the mother is missing raises
    [AttributeError] when it is scored, so a table whose grouping yields such a
    trio makes [compute_mendelian_violations] raise, and no result table is
    returned. (The cache of [group_rows_by_trio] leaves out the records whose
    genotype is [None], not those whose genotype is [NaN].) *)
Theorem missing_genotype_aborts_the_run (df : list Row) (p f m : Row) :
  (p, f, m) ∈ (group_rows_by_trio df).1 →
  isna (Genotype p) || isna (Genotype f) || isna (Genotype m) = true →
  (∀ st, score_trio parse_interval st (p, f, m) = Raise AttributeError)
  ∧ ∃ e, compute_mendelian_violations parse_interval (group_rows_by_trio df).1 = Raise e.
Proof.
  intros Hin Hna.
  assert (Hraise : ∀ st, score_trio parse_interval st (p, f, m) = Raise AttributeError).
  { intros st. unfold score_trio.
    destruct (Genotype p), (Genotype f), (Genotype m); simpl in Hna; done. }
  split; [done|].
  unfold compute_mendelian_violations, compute_mendelian_violations_state.
  destruct (score_trios parse_interval initial_state (group_rows_by_trio df).1)
    as [st|e] eqn:Hrun; [|by exists e].
  apply score_trios_each in Hrun.
  apply (proj1 (Forall_forall _ _) Hrun) in Hin as [st' Hst'].
  by rewrite Hraise in Hst'.
Qed.

End GenotypeFlags.

(** ** The confidence intervals that are read *)

Lemma py_split_no_sep (sep : ascii) (s t : string) :
  t ∈ py_split sep s → count_char sep t = 0%nat.
Proof.
  revert t. induction s as [|c s IH]; intros t; simpl.
  - by intros ->%list_elem_of_singleton.
  - destruct (Ascii.eqb_spec c sep) as [->|Hc].
    + intros [->|Ht]%elem_of_cons; [done | by apply IH].
    + destruct (py_split sep s) as [|t' ts] eqn:Hs.
      * intros ->%list_elem_of_singleton. simpl.
        by rewrite (proj2 (Ascii.eqb_neq _ _) Hc).
      * intros [->|Ht]%elem_of_cons.
        -- simpl. rewrite (proj2 (Ascii.eqb_neq _ _) Hc). apply IH. left.
        -- apply IH. by right.
Qed.

Lemma int_of_str_unfold (s : string) :
  int_of_str s
  = match lstrip s with
    | EmptyString => None
    | String c s' =>
        if Ascii.eqb c "-" then Z.opp <$> int_digits 0 false s'
        else if Ascii.eqb c "+" then int_digits 0 false s'
        else int_digits 0 false (String c s')
    end.
Proof.
  unfold int_of_str. destruct (lstrip s) as [|c s']; [done|].
  destruct c as [[] [] [] [] [] [] [] []]; reflexivity.
Qed.

Lemma digit_of_nonneg (c : ascii) (d : Z) : digit_of c = Some d → 0 ≤ d.
Proof. unfold digit_of. case_match; [|done]. intros [= <-]. lia. Qed.

Lemma int_digits_nonneg (s : string) (acc : Z) (b : bool) (z : Z) :
  0 ≤ acc → int_digits acc b s = Some z → 0 ≤ z.
Proof.
  revert acc b. induction s as [|c s IH]; intros acc b Hacc.
  - simpl. destruct b; [by intros [= <-] | done].
  - cbn [int_digits]. destruct (digit_of c) as [d|] eqn:Hd.
    + apply IH. apply digit_of_nonneg in Hd. lia.
    + destruct b; [|done]. destruct (Ascii.eqb c "_").
      * destruct s as [|c' s']; [done|]. destruct (digit_of c'); [|done]. by apply IH.
      * destruct (all_space (String c s)); [by intros [= <-] | done].
Qed.

Lemma lstrip_count_char (c : ascii) (s : string) :
  (count_char c (lstrip s) ≤ count_char c s)%nat.
Proof.
  induction s as [|c' s IH]; simpl; [lia|].
  destruct (is_space c'); simpl; lia.
Qed.

(** A text without a minus sign does not read as a negative number. *)
Lemma int_of_str_nonneg (t : string) (z : Z) :
  count_char "-" t = 0%nat → int_of_str t = Some z → 0 ≤ z.
Proof.
  intros Hcount. rewrite int_of_str_unfold.
  pose proof (lstrip_count_char "-" t) as Hle.
  destruct (lstrip t) as [|c s']; [done|].
  destruct (Ascii.eqb_spec c "-") as [->|Hc]; [simpl in Hle; lia|].
  destruct (Ascii.eqb c "+"); by apply int_digits_nonneg.
Qed.

Lemma Interval_of_args_Ok (args : list Z) (c : Interval) :
  Interval_of_args args = Ok c →
  (length args = 2%nat ∧ i_data c = None ∨ length args = 3%nat ∧ ∃ d, d ∈ args ∧ i_data c = Some d)
  ∧ i_begin c ∈ args ∧ i_end c ∈ args.
Proof.
  destruct args as [|b [|e [|d [|]]]]; simpl; try done.
  - intros [= <-]. simpl. split_and!; [by left | set_solver..].
  - intros [= <-]. simpl. split_and!; [right; split; [done|]; exists d | |]; set_solver.
Qed.

(** X17. The confidence-interval text of a record is read into one
    interval per "/"-separated part; when it is read, every part has one or two
    dashes -- a third number is kept as the data of the interval and takes no
    part in any comparison -- and no bound is negative: a minus sign is taken
    as a separator, so a text that begins with one raises [ValueError]. *)
Theorem confidence_bounds_are_not_negative :
  (∀ s cis,
     parse_CIs s = Ok cis →
     length cis = S (count_char "/" s)
     ∧ Forall2 (λ part c,
                  0 ≤ i_begin c ∧ 0 ≤ i_end c
                  ∧ ((count_char "-" part = 1%nat ∧ i_data c = None)
                     ∨ (count_char "-" part = 2%nat ∧ ∃ d, i_data c = Some d ∧ 0 ≤ d)))
               (py_split "/" s) cis)
  ∧ (∀ rest, parse_CIs (String "-" rest) = Raise ValueError).
Proof.
  split.
  - intros s cis Hread. unfold parse_CIs in Hread. split.
    { apply mapM_length in Hread. by rewrite Hread, py_split_length. }
    apply mapM_Ok in Hread. eapply Forall2_impl; [exact Hread|].
    intros part c (args & Hargs & Hc)%bind_Ok. simpl in Hargs.
    pose proof (mapM_length _ _ _ Hargs) as Hlen. rewrite py_split_length in Hlen.
    apply mapM_Ok in Hargs.
    assert (Hnonneg : ∀ z, z ∈ args → 0 ≤ z).
    { intros z Hz. apply list_elem_of_lookup in Hz as [i Hi].
      destruct (Forall2_lookup_r _ _ _ _ _ Hargs Hi) as (t & Ht & Hint).
      simpl in Hint. destruct (int_of_str t) as [z'|] eqn:Hz'; [|done].
      injection Hint as ->. apply (int_of_str_nonneg t); [|done].
      apply (py_split_no_sep _ part). by eapply list_elem_of_lookup_2. }
    apply Interval_of_args_Ok in Hc as (Hshape & Hb & He).
    split_and!; [by apply Hnonneg | by apply Hnonneg |].
    destruct Hshape as [[Hl Hd]|[Hl (d & Hd & Hdata)]].
    + left. split; [lia | done].
    + right. split; [lia|]. exists d. split; [done | by apply Hnonneg].
  - intros rest. unfold parse_CIs. cbn [py_split]. simpl (Ascii.eqb _ _).
    destruct (py_split "/" rest) as [|t ts]; reflexivity.
Qed.

(** ** The further statements on concrete inputs *)

(** [two_allele_ci_consistency] at the trio of the specification. *)
Lemma two_allele_ci_consistency_witness :
  let c0 := mkInterval 17 17 None in
  let c1 := mkInterval 20 21 None in
  let fcis := [mkInterval 17 17 None; mkInterval 17 17 None] in
  let mcis := [mkInterval 20 20 None; mkInterval 22 25 None] in
  ∃ ok d okci dci c0_f c1_m c1_f c0_m,
    mendelian_consistency ["17"; "20"] ["17"; "17"] ["20"; "22"] [c0; c1] fcis mcis
    = Ok (ok, d, okci, dci)
    ∧ (okci = true ↔
       (overlaps_any c0 fcis ∧ overlaps_any c1 mcis)
       ∨ (overlaps_any c1 fcis ∧ overlaps_any c0 mcis))
    ∧ is_min_distance_ci c0 fcis c0_f ∧ is_min_distance_ci c1 mcis c1_m
    ∧ is_min_distance_ci c1 fcis c1_f ∧ is_min_distance_ci c0 mcis c0_m
    ∧ dci = Z.min (c0_f + c1_m) (c1_f + c0_m).
Proof.
  intros c0 c1 fcis mcis.
  apply (proj1 (two_allele_ci_consistency parse_interval_model)
           "17" "20" ["17"; "17"] ["20"; "22"] 17 20 [17; 17] [20; 22]
           c0 c1 [] fcis mcis).
  - reflexivity.
  - reflexivity.
  - repeat constructor.
  - repeat constructor.
  - discriminate.
  - discriminate.
  - discriminate.
  - discriminate.
Defined.

(** [one_allele_ci_consistency] at the hemizygous trio of the
    specification. *)
Lemma one_allele_ci_consistency_witness :
  let c0 := mkInterval 15 16 None in
  let fcis := [mkInterval 10 10 None; mkInterval 10 10 None] in
  let mcis := [mkInterval 15 15 None; mkInterval 18 18 None] in
  ∃ ok d okci dci c_f c_m,
    mendelian_consistency ["15"] ["10"; "10"] ["15"; "18"] [c0] fcis mcis
    = Ok (ok, d, okci, dci)
    ∧ (okci = true ↔ overlaps_any c0 fcis ∨ overlaps_any c0 mcis)
    ∧ is_min_distance_ci c0 fcis c_f ∧ is_min_distance_ci c0 mcis c_m
    ∧ dci = Z.min c_f c_m.
Proof.
  intros c0 fcis mcis.
  apply (proj1 (one_allele_ci_consistency parse_interval_model)
           "15" ["10"; "10"] ["15"; "18"] 15 [10; 10] [15; 18] c0 [] fcis mcis).
  - reflexivity.
  - repeat constructor.
  - repeat constructor.
  - discriminate.
  - discriminate.
  - discriminate.
  - discriminate.
Defined.

(** [exact_consistency_implies_ci_consistency] at a trio whose alleles lie
    in their intervals. *)
Lemma exact_consistency_implies_ci_consistency_witness :
  ∃ ok d okci dci,
    mendelian_consistency ["17"; "20"] ["17"; "17"] ["20"; "22"]
      [mkInterval 17 17 None; mkInterval 20 21 None]
      [mkInterval 17 17 None; mkInterval 17 17 None]
      [mkInterval 20 20 None; mkInterval 22 25 None]
    = Ok (ok, d, okci, dci)
    ∧ ok = true ∧ okci = true.
Proof.
  exists true, 0, true, 0. split; [reflexivity|]. split; [reflexivity|].
  apply (proj1 (exact_consistency_implies_ci_consistency parse_interval_model)
           ["17"; "20"] ["17"; "17"] ["20"; "22"]
           [mkInterval 17 17 None; mkInterval 20 21 None]
           [mkInterval 17 17 None; mkInterval 17 17 None]
           [mkInterval 20 20 None; mkInterval 22 25 None] true 0 true 0).
  - constructor; [exists 17; split; [reflexivity | simpl; lia]|].
    constructor; [exists 20; split; [reflexivity | simpl; lia]|].
    constructor.
  - constructor; [exists 17; split; [reflexivity | simpl; lia]|].
    constructor; [exists 17; split; [reflexivity | simpl; lia]|].
    constructor.
  - constructor; [exists 20; split; [reflexivity | simpl; lia]|].
    constructor; [exists 22; split; [reflexivity | simpl; lia]|].
    constructor.
  - reflexivity.
  - reflexivity.
Defined.

(** [ci_consistent_proper_distance_zero] at intervals that begin before
    they end. *)
Lemma ci_consistent_proper_distance_zero_witness :
  ∃ ok d okci dci,
    mendelian_consistency ["17"; "20"] ["17"] ["21"]
      [mkInterval 17 18 None; mkInterval 20 22 None]
      [mkInterval 17 18 None] [mkInterval 21 23 None]
    = Ok (ok, d, okci, dci)
    ∧ okci = true ∧ dci = 0.
Proof.
  exists false, 1, true, 0. split; [reflexivity|]. split; [reflexivity|].
  apply (proj1 ci_consistent_proper_distance_zero
           ["17"; "20"] ["17"] ["21"]
           [mkInterval 17 18 None; mkInterval 20 22 None]
           [mkInterval 17 18 None] [mkInterval 21 23 None] false 1 true 0).
  - repeat constructor.
  - repeat constructor.
  - repeat constructor.
  - reflexivity.
  - reflexivity.
Defined.

(** [zero_distance_iff_integers_consistent] at the trio whose father's
    allele is written with a leading zero. *)
Lemma zero_distance_iff_integers_consistent_witness :
  ∃ z0 z1 zf zm,
    int_of_str "17" = Some z0 ∧ int_of_str "20" = Some z1
    ∧ alleles_read ["017"; "17"] zf ∧ alleles_read ["20"; "22"] zm
    ∧ (0 = 0 ↔ (z0 ∈ zf ∧ z1 ∈ zm) ∨ (z1 ∈ zf ∧ z0 ∈ zm)).
Proof.
  apply (proj1 zero_distance_iff_integers_consistent
           "17" "20" ["017"; "17"] ["20"; "22"]
           [mkInterval 17 17 None; mkInterval 20 21 None]
           [mkInterval 17 17 None; mkInterval 17 17 None]
           [mkInterval 20 20 None; mkInterval 22 25 None] true 0 true 0).
  reflexivity.
Defined.

(** [one_interval_for_two_alleles_raises_IndexError] at a proband with two
    alleles and one interval. *)
Lemma one_interval_for_two_alleles_raises_IndexError_witness :
  mendelian_consistency ["17"; "20"] ["17"; "17"] ["20"; "22"]
    [mkInterval 17 20 None] [mkInterval 17 17 None] [mkInterval 20 22 None]
  = Raise IndexError.
Proof.
  apply (proj2 (one_interval_for_two_alleles_raises_IndexError
                  ["17"; "20"] ["17"; "17"] ["20"; "22"]
                  [mkInterval 17 20 None] [mkInterval 17 17 None] [mkInterval 20 22 None]
                  ltac:(discriminate) ltac:(discriminate) ltac:(discriminate))).
  exists "17", "20", (mkInterval 17 20 None), 17, 20, [17; 17], [20; 22].
  split_and!.
  - reflexivity.
  - reflexivity.
  - reflexivity.
  - reflexivity.
  - repeat constructor.
  - repeat constructor.
  - discriminate.
  - discriminate.
Defined.

(** [more_than_two_alleles_is_fatal] at a proband with three alleles. *)
Lemma more_than_two_alleles_is_fatal_witness :
  score_trio parse_interval_model initial_state
    (example_row "kid" "17/20/21" "17-17/20-21" (Str "dad") (Str "mom"),
     example_row "dad" "17/17" "17-17/17-17" NaN NaN,
     example_row "mom" "20/22" "20-20/22-25" NaN NaN)
  = Raise (AssertionError 224).
Proof.
  apply (proj1 (more_than_two_alleles_is_fatal parse_interval_model initial_state
                  (example_row "kid" "17/20/21" "17-17/20-21" (Str "dad") (Str "mom"))
                  (example_row "dad" "17/17" "17-17/17-17" NaN NaN)
                  (example_row "mom" "20/22" "20-20/22-25" NaN NaN)
                  "17/20/21" "17/17" "20/22" eq_refl eq_refl eq_refl)).
  simpl. lia.
Defined.

(** [diagnostics_list_the_violating_rows] on the two example trios. *)
Lemma diagnostics_list_the_violating_rows_witness :
  ∃ st,
    compute_mendelian_violations_state parse_interval_model example_trios = Ok st
    ∧ total (counters_ci st) = violations_ci (results_rows st)
    ∧ results st
      = ViolationRow.mendelian_results_string
          <$> filter (λ row, ViolationRow.IsMendelianViolation row = true) (results_rows st)
    ∧ results_ci st
      = ViolationRow.mendelian_ci_results_string
          <$> filter (λ row, ViolationRow.IsMendelianViolationCI row = true) (results_rows st)
    ∧ Z.of_nat (length (results st)) = total (counters st)
    ∧ Z.of_nat (length (results_ci st)) = total (counters_ci st).
Proof.
  eexists. split; [vm_compute; reflexivity|].
  apply (diagnostics_list_the_violating_rows parse_interval_model example_trios).
  vm_compute. reflexivity.
Defined.

(** [result_rows_follow_trios] on the two example trios. *)
Lemma result_rows_follow_trios_witness :
  ∃ st,
    compute_mendelian_violations_state parse_interval_model example_trios = Ok st
    ∧ Forall2 row_describes example_trios (results_rows st)
    ∧ compute_mendelian_violations parse_interval_model example_trios
      = Ok (results_rows st).
Proof.
  eexists. split; [vm_compute; reflexivity|].
  apply (result_rows_follow_trios parse_interval_model example_trios).
  vm_compute. reflexivity.
Defined.

(** [summary_follows_the_flags] on the two example trios. *)
Lemma summary_follows_the_flags_witness :
  ∃ st,
    compute_mendelian_violations_state parse_interval_model example_trios = Ok st
    ∧ ∀ row, row ∈ results_rows st →
        (ViolationRow.MendelianViolationSummary row = "MV-CI!"
         ↔ ViolationRow.IsMendelianViolationCI row = true)
        ∧ (ViolationRow.MendelianViolationSummary row = "MV"
           ↔ ViolationRow.IsMendelianViolationCI row = false
             ∧ ViolationRow.IsMendelianViolation row = true)
        ∧ (ViolationRow.MendelianViolationSummary row = "ok"
           ↔ ViolationRow.IsMendelianViolationCI row = false
             ∧ ViolationRow.IsMendelianViolation row = false).
Proof.
  eexists. split; [vm_compute; reflexivity|].
  apply (summary_follows_the_flags parse_interval_model example_trios).
  vm_compute. reflexivity.
Defined.

(** [parent_lookup_returns_last_record] on a table with two calls for the
    father, from two files. *)
Lemma parent_lookup_returns_last_record_witness :
  let kid := example_row "kid" "17/20" "17-17/20-21" (Str "dad") (Str "mom") in
  let dad := example_row "dad" "17/17" "17-17/17-17" NaN NaN in
  let dad_again :=
    mkRow (mkCall "dad" "HTT" "HTT" "dad.rerun.json" (Str "17/18") "17-17/18-18"
                  "chr4:3074876-3074933" "CAG" "male" "18" "28.0" None) NaN NaN in
  let mom := example_row "mom" "20/22" "20-20/22-25" NaN NaN in
  get_parent (cache_rows [kid; dad; dad_again; mom]) (Str "dad") kid = Some dad_again.
Proof.
  intros kid dad dad_again mom.
  apply (proj1 (parent_lookup_returns_last_record
                  [kid; dad; dad_again; mom] [kid; dad] [mom] (Str "dad") kid dad_again
                  eq_refl
                  ltac:(split_and!; [discriminate | reflexivity | reflexivity | by left])
                  ltac:(intros r [->|[]%elem_of_nil]%elem_of_cons (_ & _ & _ & [[=]|[=]])))).
Defined.

(** [parse_fam_file_returns_a_keyed_table] on a file that lists the child
    twice, with two phenotypes. *)
Lemma parse_fam_file_returns_a_keyed_table_witness :
  let fam :=
    [mkFamRow (Str "F1") (Str "kid") (Str "dad") (Str "mom") (Str "1") (Str "1");
     mkFamRow (Str "F1") (Str "kid") (Str "dad") (Str "mom") (Str "1") (Str "2");
     mkFamRow (Str "F1") (Str "dad") (Str "0") (Str "0") (Str "1") (Str "1")] in
  ∃ ped,
    parse_fam_file fam = Ok ped
    ∧ NoDup ped
    ∧ NoDup (individual_id <$> ped)
    ∧ (∀ x, x ∈ ped ↔ x ∈ pedigree_of <$> fam)
    ∧ ped `sublist_of` (pedigree_of <$> fam)
    ∧ (NoDup (pedigree_of <$> fam) → ped = pedigree_of <$> fam)
    ∧ (∀ r1 r2, r1 ∈ fam → r2 ∈ fam →
         fam_individual_id r1 = fam_individual_id r2 →
         pedigree_of r1 = pedigree_of r2).
Proof.
  intros fam. eexists. split; [vm_compute; reflexivity|].
  apply (parse_fam_file_returns_a_keyed_table fam).
  vm_compute. reflexivity.
Defined.

(** [output_paths_replace_a_final_tsv] on the example tables. *)
Lemma output_paths_replace_a_final_tsv_witness :
  ∃ p1 vs p2 others,
    main parse_interval_model "calls.tsv" example_calls example_fam
    = Ok ((p1, vs), (p2, others))
    ∧ p1 = "calls.mendelian_violations.tsv" ∧ p2 = "calls.non_trio_rows.tsv"
    ∧ p1 ≠ p2 ∧ p1 ≠ "calls.tsv" ∧ p2 ≠ "calls.tsv".
Proof.
  eexists _, _, _, _. split; [vm_compute; reflexivity|].
  match goal with
  | |- ?p1 = _ ∧ ?p2 = _ ∧ _ =>
      destruct (output_paths_replace_a_final_tsv parse_interval_model
                  "calls.tsv" example_calls example_fam p1 p2 _ _
                  ltac:(vm_compute; reflexivity))
        as (Hsuffix & _ & _ & Hdiff)
  end.
  destruct (Hsuffix "calls" "."%char ltac:(discriminate) eq_refl) as [H1 H2].
  split; [exact H1|]. split; [exact H2|]. exact Hdiff.
Defined.

(** [main_writes_the_calls_of_pedigree_children] on the example tables:
    the child is scored, the father (whose parents are written "0") and the
    child without a paternal call are non-trio rows, the mother and the guest
    are in neither file. *)
Lemma main_writes_the_calls_of_pedigree_children_witness :
  ∃ p1 vs p2 others,
    main parse_interval_model "calls.tsv" example_calls example_fam
    = Ok ((p1, vs), (p2, others))
    ∧ ∃ trios : list Trio,
        Forall2 row_describes trios vs
        ∧ ((call ∘ proband) <$> trios) ++ (call <$> others)
          ≡ₚ filter (pedigree_child example_fam) example_calls
        ∧ ((call ∘ proband) <$> trios) `sublist_of` example_calls
        ∧ (call <$> others) `sublist_of` example_calls
        ∧ (length vs + length others)%nat
          = length (filter (pedigree_child example_fam) example_calls)
        ∧ Forall (pedigree_entry example_fam ∘ proband) trios
        ∧ Forall (pedigree_entry example_fam) others
        ∧ Forall (parents_from example_calls) trios.
Proof.
  eexists _, _, _, _. split; [vm_compute; reflexivity|].
  apply (main_writes_the_calls_of_pedigree_children parse_interval_model
           "calls.tsv" example_calls example_fam
           "calls.mendelian_violations.tsv" "calls.non_trio_rows.tsv").
  vm_compute. reflexivity.
Defined.

(** [identical_genotypes_are_consistent] on three individuals homozygous
    for the 19 repeats of the reference. *)
Lemma identical_genotypes_are_consistent_witness :
  let p := example_row "kid" "19/19" "19-19/19-19" (Str "dad") (Str "mom") in
  let f := example_row "dad" "19/19" "19-19/19-19" NaN NaN in
  let m := example_row "mom" "19" "19-19" NaN NaN in
  ∃ st',
    score_trio parse_interval_model initial_state (p, f, m) = Ok st'
    ∧ ∃ row,
        results_rows st' = results_rows initial_state ++ [row]
        ∧ (ViolationRow.AllGenotypesAreTheSame row = true ↔
           ∀ a, (a ∈ alleles_of p ↔ a ∈ alleles_of m)
                ∧ (a ∈ alleles_of p ↔ a ∈ alleles_of f))
        ∧ (ViolationRow.AllGenotypesAreHomozygousReference row = true →
           ViolationRow.AllGenotypesAreTheSame row = true)
        ∧ (ViolationRow.AllGenotypesAreTheSame row = true →
           ViolationRow.IsMendelianViolation row = false
           ∧ ViolationRow.MendelianViolationDistance row = 0).
Proof.
  intros p f m. eexists. split; [vm_compute; reflexivity|].
  apply (identical_genotypes_are_consistent parse_interval_model initial_state _ p f m).
  vm_compute. reflexivity.
Defined.

(** [confidence_bounds_are_not_negative] on the intervals of two alleles. *)
Lemma confidence_bounds_are_not_negative_witness :
  ∃ cis,
    parse_CIs "17-17/20-21" = Ok cis
    ∧ length cis = S (count_char "/" "17-17/20-21")
    ∧ Forall2 (λ part c,
                 0 ≤ i_begin c ∧ 0 ≤ i_end c
                 ∧ ((count_char "-" part = 1%nat ∧ i_data c = None)
                    ∨ (count_char "-" part = 2%nat ∧ ∃ d, i_data c = Some d ∧ 0 ≤ d)))
              (py_split "/" "17-17/20-21") cis.
Proof.
  eexists. split; [vm_compute; reflexivity|].
  apply (proj1 confidence_bounds_are_not_negative "17-17/20-21").
  vm_compute. reflexivity.
Defined.

(** [missing_genotype_aborts_the_run] on a table in which the call of the
    father has no genotype. *)
Lemma missing_genotype_aborts_the_run_witness :
  let kid := example_row "kid" "17/20" "17-17/20-21" (Str "dad") (Str "mom") in
  let dad :=
    mkRow (mkCall "dad" "HTT" "HTT" "dad.json" NaN "17-17/17-17"
                  "chr4:3074876-3074933" "CAG" "male" "17" "30.5" None) NaN NaN in
  let mom := example_row "mom" "20/22" "20-20/22-25" NaN NaN in
  (∀ st, score_trio parse_interval_model st (kid, dad, mom) = Raise AttributeError)
  ∧ ∃ e, compute_mendelian_violations parse_interval_model
           (group_rows_by_trio [kid; dad; mom]).1 = Raise e.
Proof.
  intros kid dad mom.
  apply (missing_genotype_aborts_the_run parse_interval_model [kid; dad; mom] kid dad mom).
  - vm_compute. left.
  - reflexivity.
Defined.
